(** * DotDash: rule validation, rule persistence, conflict suggestions,
      the rule store, the pause store and the expansion engine's recursion
      guard.

    A shallow embedding of the TypeScript sources of the DotDash front end
    (src/lib/validation.ts, src/lib/storage.ts, src/lib/conflict-utils.ts,
    src/state/pause-toggle-store.tsx, src/state/shortcuts-store.tsx and the
    import of src/views/SettingsView.tsx) and the properties stated about
    them. *)

From Stdlib Require Import ZArith NArith List Bool Lia String Ascii DecimalFacts DecimalN.
From stdpp Require Import gmap list sorting.
Import ListNotations.

Local Open Scope N_scope.

(** ** JavaScript strings

    A JavaScript string is a sequence of UTF-16 code units; [length] counts
    code units, comparison and sorting go by code unit. *)

Abbreviation jsstring := (list N).

Definition js (s : string) : jsstring :=
  List.map N_of_ascii (list_ascii_of_string s).

Module Char.
Definition tab : N := 9.
Definition newline : N := 10.
Definition cr : N := 13.
Definition space : N := 32.
Definition quote : N := 34.
Definition plus : N := 43.
Definition comma : N := 44.
Definition minus : N := 45.
Definition dot : N := 46.
Definition slash : N := 47.
Definition colon : N := 58.
Definition lbracket : N := 91.
Definition backslash : N := 92.
Definition rbracket : N := 93.
Definition underscore : N := 95.
Definition lbrace : N := 123.
Definition rbrace : N := 125.

End Char.

(** [toLowerCase] on strings of ASCII characters, where a concrete runtime
    is needed; the full Unicode mapping is the runtime's own. *)
Definition ascii_toLowerCase (s : jsstring) : jsstring :=
  List.map (fun c => if (65 <=? c) && (c <=? 90) then c + 32 else c) s.

(** [s.length] *)
Definition jslength (s : jsstring) : N := N.of_nat (length s).

(** [s.startsWith(p)] *)
Fixpoint startsWith (s p : jsstring) {struct p} : bool :=
  match p, s with
  | [], _ => true
  | _ :: _, [] => false
  | b :: p', a :: s' => (a =? b) && startsWith s' p'
  end.

(** [s.split("\n")]: the pieces between line feeds; never empty. *)
Fixpoint split_newline (s : jsstring) : list jsstring :=
  match s with
  | [] => [[]]
  | c :: s' =>
      if c =? Char.newline then [] :: split_newline s'
      else match split_newline s' with
           | [] => [[c]]
           | piece :: pieces => (c :: piece) :: pieces
           end
  end.

(** [xs.join(sep)] *)
Fixpoint join (sep : jsstring) (xs : list jsstring) : jsstring :=
  match xs with
  | [] => []
  | [x] => x
  | x :: rest => x ++ sep ++ join sep rest
  end.

(** ** The rule type

    Modelled from the spec: the [ExpansionRule] interface, declared in
    src/types/expansion-rule, which is not among the files; its fields are
    those of section 3 of the specification, all strings in the sources that
    build and read rules. *)
Record ExpansionRule := {
  id : jsstring;
  command : jsstring;
  replacementText : jsstring;
  createdAt : jsstring;
  updatedAt : jsstring
}.

(** ** src/lib/validation.ts *)

Module Validation.

Inductive Field := FieldCommand | FieldReplacementText.

Definition Field_eqb (a b : Field) : bool :=
  match a, b with
  | FieldCommand, FieldCommand => true
  | FieldReplacementText, FieldReplacementText => true
  | _, _ => false
  end.

Record ValidationError := { field : Field; message : jsstring }.

(** [Pick<ExpansionRule, "command" | "replacementText">] *)
Record RuleDraft := { draftCommand : jsstring; draftReplacementText : jsstring }.

Definition RESERVED : gset jsstring :=
  list_to_set [js ".help"; js ".settings"; js ".about"; js ".quit";
               js ".exit"; js ".version"; js ".info"].

(** The character class [[A-Za-z0-9_]]. *)
Definition is_word_char (c : N) : bool :=
  ((65 <=? c) && (c <=? 90)) || ((97 <=? c) && (c <=? 122))
  || ((48 <=? c) && (c <=? 57)) || (c =? Char.underscore).

(** [/^\.[A-Za-z0-9_]+$/.test(s)] *)
Definition re_period_then_word (s : jsstring) : bool :=
  match s with
  | c :: (_ :: _) as rest => (c =? Char.dot) && forallb is_word_char rest
  | _ => false
  end.

(** [/__/.test(s)] *)
Fixpoint re_double_underscore (s : jsstring) : bool :=
  match s with
  | a :: (b :: _) as rest =>
      ((a =? Char.underscore) && (b =? Char.underscore)) || re_double_underscore rest
  | _ => false
  end.

Fixpoint ends_with_underscore (s : jsstring) : bool :=
  match s with
  | [] => false
  | [c] => c =? Char.underscore
  | _ :: rest => ends_with_underscore rest
  end.

(** [/^\._|_$/.test(s)] *)
Definition re_edge_underscore (s : jsstring) : bool :=
  startsWith s [Char.dot; Char.underscore] || ends_with_underscore s.

(** [errors.push(e)] under a condition. *)
Definition push_if (cond : bool) (e : ValidationError)
    (errors : list ValidationError) : list ValidationError :=
  if cond then errors ++ [e] else errors.

Definition err (f : Field) (m : string) : ValidationError :=
  {| field := f; message := js m |}.

Section WithRuntime.
(** [String.prototype.toLowerCase] of the JavaScript runtime. *)
Variable toLowerCase : jsstring -> jsstring.

(** [existing.find(r => r.id !== selfId && r.command.toLowerCase() === lower)] *)
Definition is_duplicate_of (lower : jsstring) (selfId : option jsstring)
    (r : ExpansionRule) : bool :=
  negb (bool_decide (Some (id r) = selfId))
  && bool_decide (toLowerCase (command r) = lower).

Definition validateRule (rule : RuleDraft) (existing : list ExpansionRule)
    (selfId : option jsstring) : list ValidationError :=
  let errors := [] in
  let command := draftCommand rule in
  let replacementText := draftReplacementText rule in
  let errors := push_if (negb (startsWith command (js ".")))
                  (err FieldCommand "Must start with a period (.)") errors in
  let errors := push_if (jslength command <=? 4)
                  (err FieldCommand "Must be longer than 4 characters") errors in
  let errors := push_if (negb (re_period_then_word command))
                  (err FieldCommand "Only letters, numbers, and underscores after the period") errors in
  let errors := push_if (50 <? jslength command)
                  (err FieldCommand "Maximum length is 50 characters") errors in
  let errors := push_if (re_double_underscore command)
                  (err FieldCommand "No consecutive underscores") errors in
  let errors := push_if (re_edge_underscore command)
                  (err FieldCommand "No leading or trailing underscore after the period") errors in
  let errors := push_if (bool_decide (toLowerCase command ∈ RESERVED))
                  (err FieldCommand "This command is reserved") errors in
  let lower := toLowerCase command in
  let duplicate := List.find (is_duplicate_of lower selfId) existing in
  let errors := push_if (match duplicate with Some _ => true | None => false end)
                  (err FieldCommand "Must be unique") errors in
  let errors := push_if (jslength replacementText =? 0)
                  (err FieldReplacementText "Replacement text cannot be empty") errors in
  let errors := push_if (10000 <? jslength replacementText)
                  (err FieldReplacementText "Maximum length is 10,000 characters") errors in
  let errors := push_if (100 <? N.of_nat (length (split_newline replacementText)))
                  (err FieldReplacementText "Maximum 100 lines") errors in
  errors.

End WithRuntime.

(** The errors reported against one field. *)
Definition errors_for (f : Field) (errors : list ValidationError) : list ValidationError :=
  List.filter (fun e => Field_eqb (field e) f) errors.

(** *** What the data model asks of a command and of a replacement text *)

Definition word_char (c : N) : Prop :=
  65 <= c <= 90 \/ 97 <= c <= 122 \/ 48 <= c <= 57 \/ c = Char.underscore.

Definition starts_with_period (s : jsstring) : Prop :=
  exists rest, s = Char.dot :: rest.

Definition period_then_word_chars (s : jsstring) : Prop :=
  exists rest, s = Char.dot :: rest /\ Forall word_char rest.

Definition doubled_underscore (s : jsstring) : Prop :=
  exists before after, s = before ++ Char.underscore :: Char.underscore :: after.

Definition leading_underscore (s : jsstring) : Prop :=
  exists after, s = Char.dot :: Char.underscore :: after.

Definition trailing_underscore (s : jsstring) : Prop :=
  exists before, s = before ++ [Char.underscore].

Definition reserved_words : list jsstring :=
  [js ".help"; js ".settings"; js ".about"; js ".quit";
   js ".exit"; js ".version"; js ".info"].

(** Number of lines of a text: one more than its line feeds. *)
Fixpoint count_newlines (s : jsstring) : nat :=
  match s with
  | [] => 0
  | c :: s' => if c =? Char.newline then S (count_newlines s') else count_newlines s'
  end.

Definition line_count (s : jsstring) : nat := S (count_newlines s).

Section Acceptance.
Variable toLowerCase : jsstring -> jsstring.

(** Commands are compared, and looked up among the reserved words,
    without regard to case. *)
Definition same_command (a b : jsstring) : Prop := toLowerCase a = toLowerCase b.

Definition is_reserved (s : jsstring) : Prop :=
  exists w, In w reserved_words /\ toLowerCase s = w.

Definition taken_by_other (existing : list ExpansionRule) (selfId : option jsstring)
    (s : jsstring) : Prop :=
  exists r, In r existing /\ Some (id r) <> selfId /\ same_command (command r) s.

Record command_acceptable (s : jsstring) (existing : list ExpansionRule)
    (selfId : option jsstring) : Prop := {
  acc_sentinel : starts_with_period s;
  acc_length : 5 <= jslength s <= 50;
  acc_charset : period_then_word_chars s;
  acc_no_doubled : ~ doubled_underscore s;
  acc_no_leading : ~ leading_underscore s;
  acc_no_trailing : ~ trailing_underscore s;
  acc_not_reserved : ~ is_reserved s;
  acc_unique : ~ taken_by_other existing selfId s
}.

Definition replacement_acceptable (s : jsstring) : Prop :=
  s <> [] /\ jslength s <= 10000 /\ (line_count s <= 100)%nat.

End Acceptance.

End Validation.

(** ** JSON as the runtime reads and writes it ([JSON.parse], [JSON.stringify]) *)

Module JSON.

(** A number literal keeps its exact decimal value [mantissa * 10 ^ exp10]. *)
Record number := { mantissa : Z; exp10 : Z }.

#[local] Unset Elimination Schemes.
Inductive value :=
| JNull
| JBool (b : bool)
| JNumber (n : number)
| JString (s : jsstring)
| JArray (items : list value)
| JObject (members : list (jsstring * value)).
#[local] Set Elimination Schemes.

Inductive outcome (A : Type) :=
| Parsed (a : A)
| SyntaxError
| OutOfFuel.
Arguments Parsed {A} a.
Arguments SyntaxError {A}.
Arguments OutOfFuel {A}.

Definition is_ws (c : N) : bool :=
  (c =? Char.space) || (c =? Char.tab) || (c =? Char.newline) || (c =? Char.cr).

Fixpoint skip_ws (s : jsstring) : jsstring :=
  match s with
  | [] => []
  | c :: rest => if is_ws c then skip_ws rest else s
  end.

(** *** Numbers *)

Definition digit_char (c : N) : option (Decimal.uint -> Decimal.uint) :=
  match c with
  | 48 => Some Decimal.D0 | 49 => Some Decimal.D1 | 50 => Some Decimal.D2
  | 51 => Some Decimal.D3 | 52 => Some Decimal.D4 | 53 => Some Decimal.D5
  | 54 => Some Decimal.D6 | 55 => Some Decimal.D7 | 56 => Some Decimal.D8
  | 57 => Some Decimal.D9
  | _ => None
  end.

(** The longest run of decimal digits at the head of [s]. *)
Fixpoint take_digits (s : jsstring) : Decimal.uint * jsstring :=
  match s with
  | [] => (Decimal.Nil, [])
  | c :: rest =>
      match digit_char c with
      | Some d => let (ds, rest') := take_digits rest in (d ds, rest')
      | None => (Decimal.Nil, s)
      end
  end.

Fixpoint chars_of_uint (d : Decimal.uint) : jsstring :=
  match d with
  | Decimal.Nil => []
  | Decimal.D0 d => 48 :: chars_of_uint d
  | Decimal.D1 d => 49 :: chars_of_uint d
  | Decimal.D2 d => 50 :: chars_of_uint d
  | Decimal.D3 d => 51 :: chars_of_uint d
  | Decimal.D4 d => 52 :: chars_of_uint d
  | Decimal.D5 d => 53 :: chars_of_uint d
  | Decimal.D6 d => 54 :: chars_of_uint d
  | Decimal.D7 d => 55 :: chars_of_uint d
  | Decimal.D8 d => 56 :: chars_of_uint d
  | Decimal.D9 d => 57 :: chars_of_uint d
  end.

Definition is_nil (d : Decimal.uint) : bool :=
  match d with Decimal.Nil => true | _ => false end.

(** An optional leading [-]. *)
Definition take_minus (s : jsstring) : bool * jsstring :=
  match s with
  | c :: rest => if c =? Char.minus then (true, rest) else (false, s)
  | [] => (false, s)
  end.

(** The fraction [. digit+], when there is one. *)
Definition take_fraction (s : jsstring) : option (Decimal.uint * jsstring) :=
  match s with
  | c :: rest =>
      if c =? Char.dot then
        let (frac, rest') := take_digits rest in
        if is_nil frac then None else Some (frac, rest')
      else Some (Decimal.Nil, s)
  | [] => Some (Decimal.Nil, s)
  end.

(** The exponent [(e|E) (+|-)? digit+], when there is one. *)
Definition take_exponent (s : jsstring) : option (Z * jsstring) :=
  match s with
  | c :: rest =>
      if (c =? 101) || (c =? 69) then
        let (neg, rest1) :=
          match rest with
          | sgn :: rest' =>
              if sgn =? Char.minus then (true, rest')
              else if sgn =? Char.plus then (false, rest')
              else (false, rest)
          | [] => (false, rest)
          end in
        let (ds, rest2) := take_digits rest1 in
        if is_nil ds then None
        else Some (if neg then Z.opp (Z.of_N (N.of_uint ds)) else Z.of_N (N.of_uint ds), rest2)
      else Some (0%Z, s)
  | [] => Some (0%Z, s)
  end.

(** A number literal: an optional minus sign, an integer part without
    leading zeros, an optional fraction and an optional exponent. *)
Definition parse_number (s : jsstring) : option (number * jsstring) :=
  let (neg, s1) := take_minus s in
  let (int_part, s2) := take_digits s1 in
  if Decimal.uint_eq_dec (Decimal.unorm int_part) int_part then
    match take_fraction s2 with
    | None => None
    | Some (frac, s3) =>
        match take_exponent s3 with
        | None => None
        | Some (e, s4) =>
            let m := Z.of_N (N.of_uint (Decimal.app int_part frac)) in
            Some ({| mantissa := if neg then Z.opp m else m;
                     exp10 := (e - Z.of_nat (Decimal.nb_digits frac))%Z |}, s4)
        end
    end
  else None.

(** *** Strings *)

Definition hex_digit (c : N) : option N :=
  if (48 <=? c) && (c <=? 57) then Some (c - 48)
  else if (97 <=? c) && (c <=? 102) then Some (c - 87)
  else if (65 <=? c) && (c <=? 70) then Some (c - 55)
  else None.

Definition hex4 (a b c d : N) : option N :=
  match hex_digit a, hex_digit b, hex_digit c, hex_digit d with
  | Some x, Some y, Some z, Some w => Some (((x * 16 + y) * 16 + z) * 16 + w)
  | _, _, _, _ => None
  end.

(** The character a one-letter escape stands for. *)
Definition simple_escape (c : N) : option N :=
  if c =? Char.quote then Some Char.quote
  else if c =? Char.backslash then Some Char.backslash
  else if c =? Char.slash then Some Char.slash
  else if c =? 98 then Some 8
  else if c =? 102 then Some 12
  else if c =? 110 then Some Char.newline
  else if c =? 114 then Some Char.cr
  else if c =? 116 then Some Char.tab
  else None.

Definition prepend (c : N) (r : option (jsstring * jsstring)) : option (jsstring * jsstring) :=
  match r with
  | Some (s, rest) => Some (c :: s, rest)
  | None => None
  end.

(** The characters of a string literal after its opening quote, up to and
    including the closing quote. *)
Fixpoint parse_string_body (s : jsstring) : option (jsstring * jsstring) :=
  match s with
  | [] => None
  | c :: rest =>
      if c =? Char.quote then Some ([], rest)
      else if c =? Char.backslash then
        match rest with
        | [] => None
        | e :: rest1 =>
            if e =? 117 then
              match rest1 with
              | h1 :: h2 :: h3 :: h4 :: rest2 =>
                  match hex4 h1 h2 h3 h4 with
                  | Some u => prepend u (parse_string_body rest2)
                  | None => None
                  end
              | _ => None
              end
            else
              match simple_escape e with
              | Some u => prepend u (parse_string_body rest1)
              | None => None
              end
        end
      else if c <? 32 then None
      else prepend c (parse_string_body rest)
  end.

(** *** Values *)

Definition lift {A} (r : option (A * jsstring)) : outcome (A * jsstring) :=
  match r with
  | Some x => Parsed x
  | None => SyntaxError
  end.

Definition expect_literal (lit : string) (v : value) (s : jsstring) : outcome (value * jsstring) :=
  if startsWith s (js lit) then Parsed (v, drop (length (js lit)) s) else SyntaxError.

Fixpoint parse_value (fuel : nat) (s : jsstring) {struct fuel} : outcome (value * jsstring) :=
  match fuel with
  | O => OutOfFuel
  | S fuel' =>
      match skip_ws s with
      | [] => SyntaxError
      | c :: rest =>
          if c =? Char.quote then
            match parse_string_body rest with
            | Some (str, rest') => Parsed (JString str, rest')
            | None => SyntaxError
            end
          else if c =? Char.lbracket then
            match skip_ws rest with
            | d :: rest' =>
                if d =? Char.rbracket then Parsed (JArray [], rest')
                else match parse_elements fuel' rest with
                     | Parsed (items, rest'') => Parsed (JArray items, rest'')
                     | SyntaxError => SyntaxError
                     | OutOfFuel => OutOfFuel
                     end
            | [] => SyntaxError
            end
          else if c =? Char.lbrace then
            match skip_ws rest with
            | d :: rest' =>
                if d =? Char.rbrace then Parsed (JObject [], rest')
                else match parse_members fuel' rest with
                     | Parsed (members, rest'') => Parsed (JObject members, rest'')
                     | SyntaxError => SyntaxError
                     | OutOfFuel => OutOfFuel
                     end
            | [] => SyntaxError
            end
          else if c =? 116 then expect_literal "true" (JBool true) (c :: rest)
          else if c =? 102 then expect_literal "false" (JBool false) (c :: rest)
          else if c =? 110 then expect_literal "null" JNull (c :: rest)
          else match parse_number (c :: rest) with
               | Some (n, rest') => Parsed (JNumber n, rest')
               | None => SyntaxError
               end
      end
  end

with parse_elements (fuel : nat) (s : jsstring) {struct fuel} : outcome (list value * jsstring) :=
  match fuel with
  | O => OutOfFuel
  | S fuel' =>
      match parse_value fuel' s with
      | Parsed (v, rest) =>
          match skip_ws rest with
          | c :: rest' =>
              if c =? Char.comma then
                match parse_elements fuel' rest' with
                | Parsed (vs, rest'') => Parsed (v :: vs, rest'')
                | SyntaxError => SyntaxError
                | OutOfFuel => OutOfFuel
                end
              else if c =? Char.rbracket then Parsed ([v], rest')
              else SyntaxError
          | [] => SyntaxError
          end
      | SyntaxError => SyntaxError
      | OutOfFuel => OutOfFuel
      end
  end

with parse_members (fuel : nat) (s : jsstring) {struct fuel} : outcome (list (jsstring * value) * jsstring) :=
  match fuel with
  | O => OutOfFuel
  | S fuel' =>
      match skip_ws s with
      | q :: after_quote =>
          if q =? Char.quote then
            match parse_string_body after_quote with
            | Some (key, after_key) =>
                match skip_ws after_key with
                | colon :: after_colon =>
                    if colon =? Char.colon then
                      match parse_value fuel' after_colon with
                      | Parsed (v, rest) =>
                          match skip_ws rest with
                          | c :: rest' =>
                              if c =? Char.comma then
                                match parse_members fuel' rest' with
                                | Parsed (ms, rest'') => Parsed ((key, v) :: ms, rest'')
                                | SyntaxError => SyntaxError
                                | OutOfFuel => OutOfFuel
                                end
                              else if c =? Char.rbrace then Parsed ([(key, v)], rest')
                              else SyntaxError
                          | [] => SyntaxError
                          end
                      | SyntaxError => SyntaxError
                      | OutOfFuel => OutOfFuel
                      end
                    else SyntaxError
                | [] => SyntaxError
                end
            | None => SyntaxError
            end
          else SyntaxError
      | [] => SyntaxError
      end
  end.

(** [JSON.parse(text)]: [None] stands for the [SyntaxError] it throws.  Each
    unit of fuel is spent on at least one character, so [2 * length + 1] is
    never used up (see [parse_never_out_of_fuel]). *)
Definition parse (text : jsstring) : option value :=
  match parse_value (2 * length text + 1) text with
  | Parsed (v, rest) =>
      match skip_ws rest with
      | [] => Some v
      | _ :: _ => None
      end
  | SyntaxError => None
  | OutOfFuel => None
  end.

(** *** Writing ([JSON.stringify(value, null, 2)]) *)

Definition is_high_surrogate (c : N) : bool := (55296 <=? c) && (c <=? 56319).
Definition is_low_surrogate (c : N) : bool := (56320 <=? c) && (c <=? 57343).

Definition hex_char (n : N) : N := if n <? 10 then 48 + n else 87 + n.

(** [\uXXXX], in lower-case hexadecimal. *)
Definition unicode_escape (c : N) : jsstring :=
  [Char.backslash; 117; hex_char (c / 4096); hex_char ((c / 256) mod 16);
   hex_char ((c / 16) mod 16); hex_char (c mod 16)].

(** QuoteJSONString without the surrounding quotes: the two-character
    escapes, [\u00XX] for the other control characters, [\uDXXX] for a
    surrogate that is not part of a pair, everything else as it is. *)
Fixpoint quote_chars (s : jsstring) : jsstring :=
  match s with
  | [] => []
  | c :: rest =>
      if c =? 8 then Char.backslash :: 98 :: quote_chars rest
      else if c =? Char.tab then Char.backslash :: 116 :: quote_chars rest
      else if c =? Char.newline then Char.backslash :: 110 :: quote_chars rest
      else if c =? 12 then Char.backslash :: 102 :: quote_chars rest
      else if c =? Char.cr then Char.backslash :: 114 :: quote_chars rest
      else if c =? Char.quote then Char.backslash :: Char.quote :: quote_chars rest
      else if c =? Char.backslash then Char.backslash :: Char.backslash :: quote_chars rest
      else if c <? 32 then unicode_escape c ++ quote_chars rest
      else if is_high_surrogate c then
        match rest with
        | d :: rest' =>
            if is_low_surrogate d then c :: d :: quote_chars rest'
            else unicode_escape c ++ quote_chars rest
        | [] => unicode_escape c
        end
      else if is_low_surrogate c then unicode_escape c ++ quote_chars rest
      else c :: quote_chars rest
  end.

Definition quote_string (s : jsstring) : jsstring :=
  Char.quote :: quote_chars s ++ [Char.quote].

Definition integer_to_string (z : Z) : jsstring :=
  (if (z <? 0)%Z then [Char.minus] else []) ++ chars_of_uint (N.to_uint (Z.abs_N z)).

(** Agrees with [Number::toString] on the integers below [2 ^ 53] written
    with [exp10 = 0], the only numbers the program writes. *)
Definition number_to_string (n : number) : jsstring :=
  integer_to_string (mantissa n)
  ++ (if (exp10 n =? 0)%Z then [] else 101 :: integer_to_string (exp10 n)).

(** A line feed and the indentation of nesting depth [depth] (gap of 2). *)
Definition newline_indent (depth : nat) : jsstring :=
  Char.newline :: repeat Char.space (2 * depth).

Fixpoint serialize (depth : nat) (v : value) {struct v} : jsstring :=
  match v with
  | JNull => js "null"
  | JBool b => if b then js "true" else js "false"
  | JNumber n => number_to_string n
  | JString s => quote_string s
  | JArray items =>
      match items with
      | [] => js "[]"
      | _ :: _ =>
          Char.lbracket :: newline_indent (S depth)
          ++ join (Char.comma :: newline_indent (S depth))
                  (List.map (serialize (S depth)) items)
          ++ newline_indent depth ++ [Char.rbracket]
      end
  | JObject members =>
      match members with
      | [] => js "{}"
      | _ :: _ =>
          Char.lbrace :: newline_indent (S depth)
          ++ join (Char.comma :: newline_indent (S depth))
                  (List.map (fun kv => quote_string (fst kv)
                                       ++ Char.colon :: Char.space :: serialize (S depth) (snd kv))
                            members)
          ++ newline_indent depth ++ [Char.rbrace]
      end
  end.

Definition stringify (v : value) : jsstring := serialize 0 v.

(** *** Reading a parsed value *)

(** Own property [key] of an object; a repeated key keeps its last value. *)
Fixpoint lookup_member (key : jsstring) (members : list (jsstring * value)) : option value :=
  match members with
  | [] => None
  | (k, v) :: rest =>
      match lookup_member key rest with
      | Some v' => Some v'
      | None => if decide (k = key) then Some v else None
      end
  end.

(** [v[key]] for a key that no array, string or [Object.prototype] defines
    (such as ["version"] and ["rules"]); [None] is [undefined]. *)
Definition get_field (v : value) (key : jsstring) : option value :=
  match v with
  | JObject members => lookup_member key members
  | _ => None
  end.

(** The literal rounds to the double [1]: it lies between the midpoints to
    the neighbouring doubles, [1 - 2^-54] and [1 + 2^-53] (both ties go to 1). *)
Definition reads_as_one (n : number) : bool :=
  let m := mantissa n in
  if (0 <=? exp10 n)%Z then (m * 10 ^ exp10 n =? 1)%Z
  else
    let scale := (10 ^ (- exp10 n))%Z in
    ((2 ^ 54 - 1) * scale <=? m * 2 ^ 54)%Z && (m * 2 ^ 53 <=? (2 ^ 53 + 1) * scale)%Z.

(** The literal rounds to the double [0] (or [-0]): it is at most half the
    smallest subnormal, [2^-1075], in magnitude. *)
Definition reads_as_zero (n : number) : bool :=
  let m := Z.abs (mantissa n) in
  (m =? 0)%Z || ((exp10 n <? 0)%Z && (m * 2 ^ 1075 <=? 10 ^ (- exp10 n))%Z).

(** [!v] *)
Definition falsy (v : value) : bool :=
  match v with
  | JNull => true
  | JBool b => negb b
  | JNumber n => reads_as_zero n
  | JString s => match s with [] => true | _ => false end
  | JArray _ => false
  | JObject _ => false
  end.

(** [typeof v !== "object"] *)
Definition typeof_not_object (v : value) : bool :=
  match v with
  | JNull | JArray _ | JObject _ => false
  | JBool _ | JNumber _ | JString _ => true
  end.

(** What may follow a number literal: no digit, no [.], no [e] or [E]. *)
Definition number_end (rest : jsstring) : Prop :=
  match rest with
  | [] => True
  | c :: _ => digit_char c = None /\ c <> Char.dot /\ c <> 101 /\ c <> 69
  end.

(** What may follow a run of digits. *)
Definition digits_end (rest : jsstring) : Prop :=
  match rest with
  | [] => True
  | c :: _ => digit_char c = None
  end.

(** Fuel that parsing the text of [v] takes. *)
Fixpoint need (v : value) : nat :=
  match v with
  | JArray items => S (list_sum (List.map (fun item => S (need item)) items))
  | JObject members => S (list_sum (List.map (fun kv => S (need (snd kv))) members))
  | _ => 1
  end.

(** The first character of a written value: not white space and no closing
    bracket or brace. *)
Definition opens_value (c : N) : Prop :=
  is_ws c = false /\ c <> Char.rbracket /\ c <> Char.rbrace.

Definition roundtrips (v : value) : Prop :=
  forall depth fuel rest,
    (need v <= fuel)%nat -> number_end rest ->
    parse_value fuel (serialize depth v ++ rest) = Parsed (v, rest).

(** *** Writing without indentation ([JSON.stringify(value)]) *)

Fixpoint serialize_compact (v : value) {struct v} : jsstring :=
  match v with
  | JNull => js "null"
  | JBool b => if b then js "true" else js "false"
  | JNumber n => number_to_string n
  | JString s => quote_string s
  | JArray items =>
      Char.lbracket :: join [Char.comma] (List.map serialize_compact items)
      ++ [Char.rbracket]
  | JObject members =>
      Char.lbrace
      :: join [Char.comma]
           (List.map (fun kv => quote_string (fst kv) ++ Char.colon :: serialize_compact (snd kv))
              members)
      ++ [Char.rbrace]
  end.

Definition stringify_compact (v : value) : jsstring := serialize_compact v.

Definition roundtrips_compact (v : value) : Prop :=
  forall fuel rest,
    (need v <= fuel)%nat -> number_end rest ->
    parse_value fuel (serialize_compact v ++ rest) = Parsed (v, rest).

(** *** Text as a file holds it

    A file holds UTF-8, which has no encoding for a surrogate outside a
    pair: encoding replaces it by U+FFFD (as [TextEncoder] and
    [String.prototype.toWellFormed] do), decoding gives the rest back. *)
Fixpoint toWellFormed (s : jsstring) : jsstring :=
  match s with
  | [] => []
  | c :: rest =>
      if is_high_surrogate c then
        match rest with
        | d :: rest' =>
            if is_low_surrogate d then c :: d :: toWellFormed rest'
            else 65533 :: toWellFormed rest
        | [] => [65533]
        end
      else if is_low_surrogate c then 65533 :: toWellFormed rest
      else c :: toWellFormed rest
  end.

(** Text that passes through the encoding unchanged whatever follows it. *)
Definition stable (a : jsstring) : Prop :=
  forall b, toWellFormed (a ++ b) = a ++ toWellFormed b.

End JSON.

(** ** src/lib/storage.ts *)

Module Storage.
Import JSON.

Definition RULES_VERSION : number := {| mantissa := 1; exp10 := 0 |}.
Definition STORAGE_KEY : jsstring := js "dotdash.rules.v" ++ number_to_string RULES_VERSION.

(** [x !== RULES_VERSION]: true unless [x] is a number equal to 1. *)
Definition differs_from_RULES_VERSION (x : option value) : bool :=
  match x with
  | Some (JNumber n) => negb (reads_as_one n)
  | _ => true
  end.

(** [Array.isArray(x)] *)
Definition isArray (x : option value) : bool :=
  match x with
  | Some (JArray _) => true
  | _ => false
  end.

(** The value of [parsed.rules] once it is known to be an array. *)
Definition rules_of (parsed : value) : option (list value) :=
  match get_field parsed (js "rules") with
  | Some (JArray items) => Some items
  | _ => None
  end.

Definition parseRulesFile (text : jsstring) : option (list value) :=
  match JSON.parse text with
  | None => None
  | Some parsed =>
      if falsy parsed
         || differs_from_RULES_VERSION (get_field parsed (js "version"))
         || negb (isArray (get_field parsed (js "rules")))
      then None
      else rules_of parsed
  end.

(** [localStorage] is a map from keys to strings; [getItem] of a missing key
    is [null]. *)
Definition loadRulesFromStorage (localStorage : gmap jsstring jsstring) : option (list value) :=
  match localStorage !! STORAGE_KEY with
  | None => None
  | Some raw =>
      match raw with
      | [] => None
      | _ :: _ =>
          match JSON.parse raw with
          | None => None
          | Some parsed =>
              if typeof_not_object parsed || match parsed with JNull => true | _ => false end
              then None
              else if differs_from_RULES_VERSION (get_field parsed (js "version")) then None
              else if negb (isArray (get_field parsed (js "rules"))) then None
              else rules_of parsed
          end
      end
  end.

(** An [ExpansionRule] object as a JSON value, its keys in the order of the
    interface. *)
Definition value_of_rule (r : ExpansionRule) : value :=
  JObject [(js "id", JString (id r));
           (js "command", JString (command r));
           (js "replacementText", JString (replacementText r));
           (js "createdAt", JString (createdAt r));
           (js "updatedAt", JString (updatedAt r))].

Definition string_field (v : value) (key : string) : option jsstring :=
  match get_field v (js key) with
  | Some (JString s) => Some s
  | _ => None
  end.

(** Reading an [ExpansionRule] back from a JSON object. *)
Definition rule_of_value (v : value) : option ExpansionRule :=
  match string_field v "id", string_field v "command", string_field v "replacementText",
        string_field v "createdAt", string_field v "updatedAt" with
  | Some i, Some c, Some t, Some ca, Some ua =>
      Some {| id := i; command := c; replacementText := t; createdAt := ca; updatedAt := ua |}
  | _, _, _, _, _ => None
  end.

(** The payload [{ version: RULES_VERSION, rules }]. *)
Definition rules_payload (rules : list ExpansionRule) : value :=
  JObject [(js "version", JNumber RULES_VERSION);
           (js "rules", JArray (List.map value_of_rule rules))].

Definition serializeRules (rules : list ExpansionRule) : jsstring :=
  JSON.stringify (rules_payload rules).

(** *** What makes a stored payload usable *)

(** The payload's [version] field is the number [RULES_VERSION]. *)
Definition has_current_version (parsed : value) : Prop :=
  exists n, get_field parsed (js "version") = Some (JNumber n) /\ reads_as_one n = true.

(** The payload's [rules] field is the array [rules]. *)
Definition has_rules_array (parsed : value) (rules : list value) : Prop :=
  get_field parsed (js "rules") = Some (JArray rules).

(** The text is not valid JSON, or its version differs from the current
    one, or its rules field is not an array. *)
Definition unusable (text : jsstring) : Prop :=
  JSON.parse text = None
  \/ exists parsed, JSON.parse text = Some parsed
       /\ (~ has_current_version parsed \/ ~ exists rules, has_rules_array parsed rules).

(** The text is a payload of the current version whose rules field is
    exactly the array [rules]. *)
Definition usable (text : jsstring) (rules : list value) : Prop :=
  exists parsed, JSON.parse text = Some parsed
    /\ has_current_version parsed /\ has_rules_array parsed rules.

(** *** The other readers and writers of storage.ts *)

(** [saveRulesToStorage]: [localStorage.setItem] of the payload written
    without indentation (storage is taken to have room for it). *)
Definition saveRulesToStorage (rules : list ExpansionRule)
    (localStorage : gmap jsstring jsstring) : gmap jsstring jsstring :=
  <[ STORAGE_KEY := JSON.stringify_compact (rules_payload rules) ]> localStorage.

Definition RULES_PATH : jsstring := js "dotdash.rules.json".

(** A file of the application's data directory: text, or a file that
    [exists] but that [readTextFile] fails to read. *)
Inductive file :=
| TextFile (text : jsstring)
| Unreadable.

(** [loadRulesFromDisk]: a missing file, a failed read, a [SyntaxError] of
    [JSON.parse] and the [TypeError] of reading [null.version] all end in
    [null]. *)
Definition loadRulesFromDisk (disk : gmap jsstring file) : option (list value) :=
  match disk !! RULES_PATH with
  | None => None
  | Some Unreadable => None
  | Some (TextFile text) =>
      match JSON.parse text with
      | None => None
      | Some JNull => None
      | Some parsed =>
          if differs_from_RULES_VERSION (get_field parsed (js "version"))
             || negb (isArray (get_field parsed (js "rules")))
          then None
          else rules_of parsed
      end
  end.

(** [saveRulesToDisk] when [writeTextFile] fulfils: the file holds the
    encoded text. *)
Definition saveRulesToDisk (rules : list ExpansionRule)
    (disk : gmap jsstring file) : gmap jsstring file :=
  <[ RULES_PATH := TextFile (toWellFormed (JSON.stringify (rules_payload rules))) ]> disk.

(** [interface ImportResult]; its field [rules] is written [importedRules]. *)
Record ImportResult := { importedRules : list value; hasConflicts : bool }.

(** [rule.command.toLowerCase()] can be evaluated only when [rule] is an
    object whose [command] is a string; anything else is a [TypeError]. *)
Definition command_string (rule : value) : option jsstring :=
  match get_field rule (js "command") with
  | Some (JString s) => Some s
  | _ => None
  end.

Section WithRuntime.
Variable toLowerCase : jsstring -> jsstring.

(** [rules.some(rule => existingCommandsSet.has(rule.command.toLowerCase()))]:
    stops at the first hit; [None] is the [TypeError] of a rule without a
    string command met before any hit. *)
Fixpoint some_conflict (existingCommandsSet : gset jsstring) (rules : list value) : option bool :=
  match rules with
  | [] => Some false
  | rule :: rest =>
      match command_string rule with
      | None => None
      | Some c =>
          if bool_decide (toLowerCase c ∈ existingCommandsSet) then Some true
          else some_conflict existingCommandsSet rest
      end
  end.

Definition parseRulesFileWithConflicts (text : jsstring)
    (existingRules : list ExpansionRule) : option ImportResult :=
  match JSON.parse text with
  | None => None
  | Some parsed =>
      if falsy parsed
         || differs_from_RULES_VERSION (get_field parsed (js "version"))
         || negb (isArray (get_field parsed (js "rules")))
      then None
      else
        match rules_of parsed with
        | None => None
        | Some rules =>
            let existingCommandsSet : gset jsstring :=
              list_to_set (List.map (fun r => toLowerCase (command r)) existingRules) in
            match some_conflict existingCommandsSet rules with
            | None => None
            | Some conflicts => Some {| importedRules := rules; hasConflicts := conflicts |}
            end
        end
  end.

(** A rule of the file clashes with an existing rule: its command is a
    string equal, without regard to case, to an existing rule's command. *)
Definition clashes (existingRules : list ExpansionRule) (rule : value) : Prop :=
  exists c r, command_string rule = Some c /\ In r existingRules
              /\ toLowerCase (command r) = toLowerCase c.

End WithRuntime.

(** *** Sample files *)

(** A file whose only rule is [null], with no existing rules. *)
Definition null_rule_file : jsstring :=
  JSON.stringify (JObject [(js "version", JNumber RULES_VERSION);
                           (js "rules", JArray [JNull])]).

(** A file with one rule [.sig], read while a rule [.SIG] exists. *)
Definition sig_rule : ExpansionRule :=
  {| id := js "r1"; command := js ".sig"; replacementText := js "Best";
     createdAt := js "2025-08-09"; updatedAt := js "2025-08-09" |}.

Definition SIG_rule : ExpansionRule :=
  {| id := js "r2"; command := js ".SIG"; replacementText := js "Regards";
     createdAt := js "2025-08-10"; updatedAt := js "2025-08-10" |}.

End Storage.

(** ** src/lib/conflict-utils.ts *)

Module ConflictUtils.

(** [a < b] on strings: lexicographic by code unit. *)
Fixpoint string_ltb (a b : jsstring) : bool :=
  match a, b with
  | _, [] => false
  | [], _ :: _ => true
  | x :: a', y :: b' => (x <? y) || ((x =? y) && string_ltb a' b')
  end.

Fixpoint insert_sorted (s : jsstring) (sorted : list jsstring) : list jsstring :=
  match sorted with
  | [] => [s]
  | h :: t => if string_ltb s h then s :: sorted else h :: insert_sorted s t
  end.

(** [xs.sort()] with the default comparison; it reorders [xs] in place. *)
Definition sort (xs : list jsstring) : list jsstring :=
  fold_right insert_sorted [] xs.

(** [a <= b] in that order: [b < a] does not hold. *)
Definition string_le (a b : jsstring) : Prop := string_ltb b a = false.

(** The decimal text of a non-negative integer in a template literal. *)
Definition decimal (n : N) : jsstring := JSON.chars_of_uint (N.to_uint n).

(** What reading a property of an object literal finds. *)
Inductive property :=
| Own (synonyms : list jsstring)
| Inherited
| Missing.

(** The names every object inherits from [Object.prototype]; each holds a
    function or, for [__proto__], the prototype object: truthy and not
    iterable. *)
Definition Object_prototype_names : list jsstring :=
  [js "constructor"; js "__defineGetter__"; js "__defineSetter__";
   js "hasOwnProperty"; js "__lookupGetter__"; js "__lookupSetter__";
   js "isPrototypeOf"; js "propertyIsEnumerable"; js "toString";
   js "valueOf"; js "__proto__"; js "toLocaleString"].

Definition synonymMap : list (jsstring * list jsstring) :=
  [(js "sig", [js "signature"; js "sign"]);
   (js "signature", [js "sig"; js "sign"]);
   (js "meeting", [js "meet"; js "mtg"]);
   (js "address", [js "addr"; js "location"]);
   (js "phone", [js "tel"; js "mobile"]);
   (js "email", [js "mail"; js "contact"]);
   (js "thanks", [js "thx"; js "ty"]);
   (js "regards", [js "rgds"; js "best"])].

Fixpoint assoc (key : jsstring) (table : list (jsstring * list jsstring)) : option (list jsstring) :=
  match table with
  | [] => None
  | (k, v) :: rest => if decide (k = key) then Some v else assoc key rest
  end.

(** [synonymMap[key]] *)
Definition synonymMap_get (key : jsstring) : property :=
  match assoc key synonymMap with
  | Some synonyms => Own synonyms
  | None => if decide (key ∈ Object_prototype_names) then Inherited else Missing
  end.

Definition descriptiveSuffixes : list jsstring :=
  [js "_new"; js "_alt"; js "_work"; js "_personal"; js "_temp"].

(** How a call ends. *)
Inductive completion :=
| Returns (suggestions : list jsstring)
| ThrowsTypeError.

(** A call's result together with the state it leaves: the module's
    [suggestionCache] and the caller's [existingCommands] array. *)
Record outcome := {
  completed : completion;
  suggestionCache : gmap jsstring (list jsstring);
  existingCommands : list jsstring
}.

Section WithRuntime.
Variable toLowerCase : jsstring -> jsstring.

(** The helper [addSuggestion], closed over [existingSet]. *)
Definition addSuggestion (existingSet : gset jsstring) (suggestion : jsstring)
    (suggestions : list jsstring) : list jsstring :=
  if negb (bool_decide (toLowerCase suggestion ∈ existingSet))
     && (N.of_nat (length suggestions) <? 5)
     && negb (bool_decide (suggestion ∈ suggestions))
  then suggestions ++ [suggestion]
  else suggestions.

(** Strategy 1 and the abbreviations of strategy 3: candidates of at least
    four code units. *)
Definition add_long_enough (existingSet : gset jsstring)
    (suggestions : list jsstring) (candidate : jsstring) : list jsstring :=
  if 4 <=? jslength candidate then addSuggestion existingSet candidate suggestions
  else suggestions.

(** Strategy 4: [for (let i = 2; i <= 10 && suggestions.length < 5; i++)]. *)
Fixpoint numeric_suffixes (existingSet : gset jsstring) (baseWithoutDot : jsstring)
    (counters : list N) (suggestions : list jsstring) : list jsstring :=
  match counters with
  | [] => suggestions
  | i :: rest =>
      if N.of_nat (length suggestions) <? 5 then
        numeric_suffixes existingSet baseWithoutDot rest
          (addSuggestion existingSet (Char.dot :: baseWithoutDot ++ decimal i) suggestions)
      else suggestions
  end.

(** The body after the cache lookup, once [synonyms] is known to be a list. *)
Definition build_suggestions (baseCommand : jsstring) (existing : list jsstring)
    (synonyms : list jsstring) : list jsstring :=
  let suggestions := [] in
  let existingSet : gset jsstring := list_to_set (List.map toLowerCase existing) in
  let baseWithoutDot := drop 1 baseCommand in
  let suggestions :=
    fold_left (fun acc synonym => add_long_enough existingSet acc (Char.dot :: synonym))
      synonyms suggestions in
  let suggestions :=
    fold_left (fun acc suffix =>
                 addSuggestion existingSet (Char.dot :: baseWithoutDot ++ suffix) acc)
      descriptiveSuffixes suggestions in
  let suggestions :=
    if 4 <? jslength baseWithoutDot then
      fold_left (add_long_enough existingSet)
        [Char.dot :: take 3 baseWithoutDot; Char.dot :: take 4 baseWithoutDot] suggestions
    else suggestions in
  let suggestions :=
    numeric_suffixes existingSet baseWithoutDot [2; 3; 4; 5; 6; 7; 8; 9; 10] suggestions in
  take 5 suggestions.

Definition generateCommandSuggestions (baseCommand : jsstring)
    (existing : list jsstring) (cache : gmap jsstring (list jsstring)) : outcome :=
  if match baseCommand with [] => true | _ :: _ => false end
     || negb (startsWith baseCommand (js "."))
  then {| completed := Returns []; suggestionCache := cache; existingCommands := existing |}
  else
    let sorted := sort existing in
    let cacheKey := baseCommand ++ js ":" ++ join (js ",") sorted in
    match cache !! cacheKey with
    | Some cached =>
        {| completed := Returns cached; suggestionCache := cache; existingCommands := sorted |}
    | None =>
        match synonymMap_get (toLowerCase (drop 1 baseCommand)) with
        | Inherited =>
            {| completed := ThrowsTypeError; suggestionCache := cache;
               existingCommands := sorted |}
        | found =>
            let synonyms := match found with Own l => l | _ => [] end in
            let result := build_suggestions baseCommand sorted synonyms in
            let cache := if 100 <? N.of_nat (size cache) then ∅ else cache in
            {| completed := Returns result;
               suggestionCache := <[cacheKey := result]> cache;
               existingCommands := sorted |}
        end
    end.

(** What holds of the suggestions collected so far. *)
Record collected (existingSet : gset jsstring) (suggestions : list jsstring) : Prop := {
  at_most_five : (length suggestions <= 5)%nat;
  distinct : NoDup suggestions;
  dotted : forall s, s ∈ suggestions -> exists rest, s = Char.dot :: rest;
  unused : forall s, s ∈ suggestions -> toLowerCase s ∉ existingSet
}.

End WithRuntime.

(** *** Conflicts with existing rules *)

(** The code units that [trim] removes: white space and line terminators. *)
Definition is_white_space (c : N) : bool :=
  ((9 <=? c) && (c <=? 13)) || (c =? 32) || (c =? 160) || (c =? 5760)
  || ((8192 <=? c) && (c <=? 8202)) || (c =? 8232) || (c =? 8233)
  || (c =? 8239) || (c =? 8287) || (c =? 12288) || (c =? 65279).

Fixpoint trimStart (s : jsstring) : jsstring :=
  match s with
  | [] => []
  | c :: rest => if is_white_space c then trimStart rest else s
  end.

(** [s.trim()] *)
Definition trim (s : jsstring) : jsstring := rev (trimStart (rev (trimStart s))).

(** [excludeId && rule.id === excludeId]: an absent or empty [excludeId]
    excludes nothing. *)
Definition is_excluded (excludeId : option jsstring) (rule : ExpansionRule) : bool :=
  match excludeId with
  | Some ((_ :: _) as excluded) => bool_decide (id rule = excluded)
  | _ => false
  end.

Record ConflictItem := {
  importedRule : ExpansionRule;
  existingRule : ExpansionRule;
  suggestedAlternatives : list jsstring
}.

(** How [detectImportConflicts] ends. *)
Inductive import_completion :=
| ReturnsConflicts (conflicts : list ConflictItem)
| ImportThrowsTypeError.

(** The object that [validateCommandWithConflicts] returns. *)
Record CommandValidation := {
  isValid : bool;
  hasConflict : bool;
  conflictingRule : option ExpansionRule;
  suggestions : list jsstring
}.

(** The format test of [validateCommandWithConflicts]. *)
Definition hasValidFormat (cmd : jsstring) : bool :=
  startsWith cmd (js ".")
  && (4 <? jslength cmd)
  && Validation.re_period_then_word cmd
  && (jslength cmd <=? 50)
  && negb (Validation.re_double_underscore cmd)
  && negb (Validation.re_edge_underscore cmd).

Section Conflicts.
Variable toLowerCase : jsstring -> jsstring.

(** The test that [detectConflict] hands to [find]. *)
Definition conflicts_with (normalizedCommand : jsstring) (excludeId : option jsstring)
    (rule : ExpansionRule) : bool :=
  if is_excluded excludeId rule then false
  else bool_decide (trim (toLowerCase (command rule)) = normalizedCommand).

(** [detectConflict(command, existingRules, excludeId)]; the parameter
    [command] is written [cmd], [command] being the field of a rule. *)
Definition detectConflict (cmd : jsstring) (existingRules : list ExpansionRule)
    (excludeId : option jsstring) : option ExpansionRule :=
  match cmd with
  | [] => None
  | _ :: _ =>
      let normalizedCommand := trim (toLowerCase cmd) in
      List.find (conflicts_with normalizedCommand excludeId) existingRules
  end.

(** The map filled by [existingRules.forEach]: a later rule replaces an
    earlier one with the same lower-cased command. *)
Definition existingCommandMap_of (existingRules : list ExpansionRule)
    : gmap jsstring ExpansionRule :=
  fold_left (fun m rule => <[toLowerCase (command rule) := rule]> m) existingRules ∅.

(** The body of [importedRules.forEach]; a [TypeError] thrown by
    [generateCommandSuggestions] ends the loop and the call. Each call gets a
    new [allCommands] array, so that its reordering is not seen. *)
Fixpoint check_imported (existingCommandMap : gmap jsstring ExpansionRule)
    (allCommands : list jsstring) (rules : list ExpansionRule)
    (conflicts : list ConflictItem) (cache : gmap jsstring (list jsstring))
    : import_completion * gmap jsstring (list jsstring) :=
  match rules with
  | [] => (ReturnsConflicts conflicts, cache)
  | imported :: rest =>
      match existingCommandMap !! toLowerCase (command imported) with
      | Some existing =>
          let o := generateCommandSuggestions toLowerCase (command imported) allCommands cache in
          match completed o with
          | Returns alternatives =>
              check_imported existingCommandMap allCommands rest
                (conflicts ++ [{| importedRule := imported; existingRule := existing;
                                  suggestedAlternatives := alternatives |}])
                (suggestionCache o)
          | ThrowsTypeError => (ImportThrowsTypeError, suggestionCache o)
          end
      | None => check_imported existingCommandMap allCommands rest conflicts cache
      end
  end.

Definition detectImportConflicts (importedRules existingRules : list ExpansionRule)
    (cache : gmap jsstring (list jsstring))
    : import_completion * gmap jsstring (list jsstring) :=
  check_imported (existingCommandMap_of existingRules)
    (List.map command existingRules ++ List.map command importedRules)
    importedRules [] cache.

(** [validateCommandWithConflicts(command, existingRules, excludeId)]:
    [None] when [generateCommandSuggestions] throws. *)
Definition validateCommandWithConflicts (cmd : jsstring)
    (existingRules : list ExpansionRule) (excludeId : option jsstring)
    (cache : gmap jsstring (list jsstring))
    : option CommandValidation * gmap jsstring (list jsstring) :=
  let conflicting := detectConflict cmd existingRules excludeId in
  let conflict := match conflicting with Some _ => true | None => false end in
  let valid := hasValidFormat cmd && negb conflict in
  if conflict then
    let o := generateCommandSuggestions toLowerCase cmd
               (List.map command existingRules) cache in
    match completed o with
    | Returns alternatives =>
        (Some {| isValid := valid; hasConflict := conflict;
                 conflictingRule := conflicting; suggestions := alternatives |},
         suggestionCache o)
    | ThrowsTypeError => (None, suggestionCache o)
    end
  else
    (Some {| isValid := valid; hasConflict := conflict;
             conflictingRule := conflicting; suggestions := [] |},
     cache).

(** The test with which [detectImportConflicts] looks a rule up: some
    existing rule has the same lower-cased command. *)
Definition clashes_with (existingRules : list ExpansionRule) (rule : ExpansionRule) : bool :=
  existsb (fun e => bool_decide (toLowerCase (command e) = toLowerCase (command rule)))
    existingRules.

End Conflicts.

(** *** Sample rules *)

Definition rule_sig : ExpansionRule :=
  {| id := js "1"; command := js ".sig"; replacementText := js "Best regards";
     createdAt := js "2025-08-09"; updatedAt := js "2025-08-09" |}.

Definition rule_about : ExpansionRule :=
  {| id := js "2"; command := js ".About"; replacementText := js "About me";
     createdAt := js "2025-08-09"; updatedAt := js "2025-08-09" |}.

Definition rule_imported_sig : ExpansionRule :=
  {| id := js "9"; command := js ".SIG"; replacementText := js "Cheers";
     createdAt := js "2025-08-10"; updatedAt := js "2025-08-10" |}.

End ConflictUtils.

(** ** src/state/pause-toggle-store.tsx *)

Module PauseStore.

(** ['user' | 'secure-input' | 'both' | 'none'] *)
Inductive PauseReason := ReasonUser | ReasonSecureInput | ReasonBoth | ReasonNone.

Definition PauseReason_eqb (a b : PauseReason) : bool :=
  match a, b with
  | ReasonUser, ReasonUser | ReasonSecureInput, ReasonSecureInput
  | ReasonBoth, ReasonBoth | ReasonNone, ReasonNone => true
  | _, _ => false
  end.

Record PauseState := {
  isPaused : bool;
  pauseReason : PauseReason;
  canResume : bool;
  pauseTimestamp : option jsstring
}.

Record PauseStateInfo := {
  is_paused : bool;
  paused_by_user : bool;
  paused_by_secure_input : bool;
  pause_timestamp : option jsstring;
  can_resume : bool
}.

Definition mapPauseReason (pausedByUser pausedBySecureInput : bool) : PauseReason :=
  if pausedByUser && pausedBySecureInput then ReasonBoth
  else if pausedByUser then ReasonUser
  else if pausedBySecureInput then ReasonSecureInput
  else ReasonNone.

(** How a promise settles. *)
Inductive settled (A : Type) :=
| Fulfilled (a : A)
| Rejected (error : jsstring).
Arguments Fulfilled {A} a.
Arguments Rejected {A} error.

(** The provider's React state: the current state object and its identity
    (a new object literal gets a new identity), the number of times a changed
    state was presented, and what was written with [console.error]. *)
Record Provider := {
  pauseState : PauseState;
  stateObject : nat;
  presentations : nat;
  console : list jsstring
}.

(** [useState({ isPaused: false, pauseReason: 'none', canResume: true })] *)
Definition defaultState : PauseState :=
  {| isPaused := false; pauseReason := ReasonNone; canResume := true;
     pauseTimestamp := None |}.

Definition initialProvider : Provider :=
  {| pauseState := defaultState; stateObject := 0; presentations := 0; console := [] |}.

(** What an updater passed to [setPauseState] returns: [prev] itself or a
    new object. *)
Inductive updated :=
| SameObject
| NewObject (next : PauseState).

(** [setPauseState(updater)]: React keeps the state and presents nothing
    when the updater returns the object it was given. *)
Definition setPauseState (updater : PauseState -> updated) (p : Provider) : Provider :=
  match updater (pauseState p) with
  | SameObject => p
  | NewObject next =>
      {| pauseState := next; stateObject := S (stateObject p);
         presentations := S (presentations p); console := console p |}
  end.

Definition console_error (line : string) (p : Provider) : Provider :=
  {| pauseState := pauseState p; stateObject := stateObject p;
     presentations := presentations p; console := console p ++ [js line] |}.

(** The updater of [refreshPauseState]. *)
Definition refreshed (stateInfo : PauseStateInfo) (prev : PauseState) : updated :=
  let newState :=
    {| isPaused := is_paused stateInfo;
       pauseReason := mapPauseReason (paused_by_user stateInfo)
                                     (paused_by_secure_input stateInfo);
       canResume := can_resume stateInfo;
       pauseTimestamp := pause_timestamp stateInfo |} in
  if eqb (isPaused prev) (isPaused newState)
     && PauseReason_eqb (pauseReason prev) (pauseReason newState)
     && eqb (canResume prev) (canResume newState)
  then SameObject
  else NewObject newState.

(** [refreshPauseState], given how [invoke('get_pause_state')] settles; the
    second component is how its own promise settles. *)
Definition refreshPauseState (reply : settled PauseStateInfo) (p : Provider)
    : Provider * settled unit :=
  match reply with
  | Fulfilled stateInfo => (setPauseState (refreshed stateInfo) p, Fulfilled tt)
  | Rejected _ => (console_error "Failed to refresh pause state:" p, Fulfilled tt)
  end.

(** The mount effect: [useEffect(() => { refreshPauseState(); }, ...)]. *)
Definition mount (reply : settled PauseStateInfo) : Provider * settled unit :=
  refreshPauseState reply initialProvider.

(** [togglePause], given how [invoke('toggle_global_pause')] settles, the
    time, and the reply to the refresh of the error path.  The warning about
    a slow toggle depends on the clock alone and is left out. *)
Definition togglePause (reply : settled bool) (now : jsstring)
    (refreshReply : settled PauseStateInfo) (p : Provider) : Provider * settled unit :=
  match reply with
  | Fulfilled newState =>
      (setPauseState
         (fun prev => NewObject
            {| isPaused := newState;
               pauseReason := if newState then ReasonUser else ReasonNone;
               canResume := true;
               pauseTimestamp := if newState then Some now else None |}) p,
       Fulfilled tt)
  | Rejected _ =>
      (fst (refreshPauseState refreshReply (console_error "Failed to toggle pause:" p)),
       Fulfilled tt)
  end.

(** [pauseExpansions], given how [set_pause_state] with
    [{ paused: true, byUser: true }] settles. *)
Definition pauseExpansions (reply : settled unit) (now : jsstring)
    (refreshReply : settled PauseStateInfo) (p : Provider) : Provider * settled unit :=
  match reply with
  | Fulfilled _ =>
      (setPauseState
         (fun prev => NewObject
            {| isPaused := true;
               pauseReason := if PauseReason_eqb (pauseReason prev) ReasonSecureInput
                              then ReasonBoth else ReasonUser;
               canResume := true;
               pauseTimestamp := Some now |}) p,
       Fulfilled tt)
  | Rejected _ =>
      (fst (refreshPauseState refreshReply (console_error "Failed to pause expansions:" p)),
       Fulfilled tt)
  end.

(** [resumeExpansions], given how [set_pause_state] with
    [{ paused: false, byUser: true }] settles. *)
Definition resumeExpansions (reply : settled unit)
    (refreshReply : settled PauseStateInfo) (p : Provider) : Provider * settled unit :=
  match reply with
  | Fulfilled _ => refreshPauseState refreshReply p
  | Rejected _ =>
      (fst (refreshPauseState refreshReply (console_error "Failed to resume expansions:" p)),
       Fulfilled tt)
  end.

(** The ['secure-input-detected'] listener, given how [set_pause_state] with
    [{ paused: detected, byUser: false }] settles. *)
Definition onSecureInputDetected (reply : settled unit)
    (refreshReply : settled PauseStateInfo) (p : Provider) : Provider :=
  match reply with
  | Fulfilled _ => fst (refreshPauseState refreshReply p)
  | Rejected _ => console_error "Failed to handle secure input detection:" p
  end.

(** The three fields [refreshPauseState] compares. *)
Definition presentation (s : PauseState) : bool * PauseReason * bool :=
  (isPaused s, pauseReason s, canResume s).

(** The state a pause-state reply maps to. *)
Definition mapped (stateInfo : PauseStateInfo) : PauseState :=
  {| isPaused := is_paused stateInfo;
     pauseReason := mapPauseReason (paused_by_user stateInfo)
                                   (paused_by_secure_input stateInfo);
     canResume := can_resume stateInfo;
     pauseTimestamp := pause_timestamp stateInfo |}.

(** *** The store driven by the Pause Coordinator *)

(** Modelled from the spec: the Pause Coordinator behind the commands
    [toggle_global_pause], [set_pause_state] and [get_pause_state]; its
    source (the Tauri back end) is not among the files.  After sections 3,
    4.4 and 6 of the specification: three stored inputs, an effective state
    recomputed from them, [setUserPause] and [setSecureInputPause] each
    writing only its own flag, [togglePause] answering the effective state.
    The specification does not say how [canResume] and [pauseTimestamp] are
    computed; they are carried as data. *)
Record Coordinator := {
  pausedByUser : bool;
  pausedBySecureInput : bool;
  permissionGranted : bool;
  storedTimestamp : option jsstring;
  resumable : bool
}.

Definition effective (c : Coordinator) : bool :=
  pausedByUser c || pausedBySecureInput c || negb (permissionGranted c).

Definition setUserPause (paused : bool) (c : Coordinator) : Coordinator :=
  {| pausedByUser := paused; pausedBySecureInput := pausedBySecureInput c;
     permissionGranted := permissionGranted c; storedTimestamp := storedTimestamp c;
     resumable := resumable c |}.

Definition setSecureInputPause (paused : bool) (c : Coordinator) : Coordinator :=
  {| pausedByUser := pausedByUser c; pausedBySecureInput := paused;
     permissionGranted := permissionGranted c; storedTimestamp := storedTimestamp c;
     resumable := resumable c |}.

Definition toggle_global_pause (c : Coordinator) : Coordinator * bool :=
  let c' := setUserPause (negb (pausedByUser c)) c in (c', effective c').

Definition set_pause_state (paused byUser : bool) (c : Coordinator) : Coordinator :=
  if byUser then setUserPause paused c else setSecureInputPause paused c.

Definition get_pause_state (c : Coordinator) : PauseStateInfo :=
  {| is_paused := effective c; paused_by_user := pausedByUser c;
     paused_by_secure_input := pausedBySecureInput c;
     pause_timestamp := storedTimestamp c; can_resume := resumable c |}.

Definition initialCoordinator : Coordinator :=
  {| pausedByUser := false; pausedBySecureInput := false; permissionGranted := true;
     storedTimestamp := None; resumable := true |}.

(** The provider together with the coordinator it talks to. *)
Record System := { coordinator : Coordinator; provider : Provider }.

Definition initialSystem : System :=
  {| coordinator := initialCoordinator; provider := initialProvider |}.

(** The updates of the pause interface. *)
Inductive Update :=
| TogglePause (now : jsstring)
| PauseExpansions (now : jsstring)
| ResumeExpansions
| SecureInputDetected (detected : bool).

Definition apply_update (u : Update) (s : System) : System :=
  match u with
  | TogglePause now =>
      let (c, newState) := toggle_global_pause (coordinator s) in
      {| coordinator := c;
         provider := fst (togglePause (Fulfilled newState) now
                            (Fulfilled (get_pause_state c)) (provider s)) |}
  | PauseExpansions now =>
      let c := set_pause_state true true (coordinator s) in
      {| coordinator := c;
         provider := fst (pauseExpansions (Fulfilled tt) now
                            (Fulfilled (get_pause_state c)) (provider s)) |}
  | ResumeExpansions =>
      let c := set_pause_state false true (coordinator s) in
      {| coordinator := c;
         provider := fst (resumeExpansions (Fulfilled tt)
                            (Fulfilled (get_pause_state c)) (provider s)) |}
  | SecureInputDetected detected =>
      let c := set_pause_state detected false (coordinator s) in
      {| coordinator := c;
         provider := onSecureInputDetected (Fulfilled tt)
                       (Fulfilled (get_pause_state c)) (provider s) |}
  end.

Definition apply_updates (us : list Update) (s : System) : System :=
  fold_left (fun s u => apply_update u s) us s.

(** The reason the stored flags call for. *)
Definition reason_of_flags (c : Coordinator) : PauseReason :=
  mapPauseReason (pausedByUser c) (pausedBySecureInput c).

End PauseStore.

(** ** The expansion engine and its recursion guard *)

Module Engine.

(** Modelled from the spec: the normalized units the Keystroke Monitor emits
    (section 4.1); the engine's source is not among the files. *)
Inductive InputEvent :=
| Printable (c : N)
| Delimiter (c : N)
| Backspace
| CursorMove
| FocusChange.

(** Modelled from the spec: the calls made on the platform adapter
    (sections 4.3 and 9). *)
Inductive Output :=
| DeleteBackward (n : nat)
| InjectText (text : jsstring).

(** Modelled from the spec: the engine state of sections 3 and 4.1 to 4.3
    (rule table, options, pause flag, SyntheticInputGuard counter, match
    buffer) with what it has done so far (adapter calls, matched commands);
    the engine's source is not among the files. *)
Record Engine := {
  rules : list (jsstring * jsstring);
  dryRun : bool;
  paused : bool;
  guard : nat;
  buffer : jsstring;
  outputs : list Output;
  matches : list jsstring
}.

Definition sentinel : N := Char.dot.
Definition max_command_length : nat := 50.

Definition with_buffer (b : jsstring) (e : Engine) : Engine :=
  {| rules := rules e; dryRun := dryRun e; paused := paused e; guard := guard e;
     buffer := b; outputs := outputs e; matches := matches e |}.

Definition with_guard (g : nat) (e : Engine) : Engine :=
  {| rules := rules e; dryRun := dryRun e; paused := paused e; guard := g;
     buffer := buffer e; outputs := outputs e; matches := matches e |}.

Definition record_match (token : jsstring) (e : Engine) : Engine :=
  {| rules := rules e; dryRun := dryRun e; paused := paused e; guard := guard e;
     buffer := buffer e; outputs := outputs e; matches := matches e ++ [token] |}.

Definition emit (o : list Output) (e : Engine) : Engine :=
  {| rules := rules e; dryRun := dryRun e; paused := paused e; guard := guard e;
     buffer := buffer e; outputs := outputs e ++ o; matches := matches e |}.

Definition reset (e : Engine) : Engine := with_buffer [] e.

Section WithPlatform.
(** Case folding of the runtime and the configured delimiter set. *)
Variable toLowerCase : jsstring -> jsstring.
Variable is_delimiter : N -> bool.

(** Modelled from the spec: the case-insensitive exact lookup of section 4.2;
    the table lists the most recently updated rule first. *)
Fixpoint lookup_rule (token : jsstring) (table : list (jsstring * jsstring)) : option jsstring :=
  match table with
  | [] => None
  | (cmd, replacement) :: rest =>
      if decide (toLowerCase cmd = toLowerCase token) then Some replacement
      else lookup_rule token rest
  end.

(** Modelled from the spec: the events the Monitor observes when the
    Injector deletes [n] characters and synthesizes [text] (section 4.3). *)
Definition synthetic_events (n : nat) (text : jsstring) : list InputEvent :=
  repeat Backspace n
  ++ List.map (fun c => if is_delimiter c then Delimiter c else Printable c) text.

(** Modelled from the spec: one event through Monitor, Match Buffer and
    Injector (sections 4.1 to 4.3 and 5).  The guard check comes before
    anything else, then the pause check; an expansion raises the guard, has
    the adapter delete the token and inject the replacement, lets the Monitor
    observe the synthetic events, and lowers the guard.  [fuel] bounds the
    nesting of observations inside injections. *)
Fixpoint observe (fuel : nat) (ev : InputEvent) (e : Engine) {struct fuel} : option Engine :=
  match fuel with
  | O => None
  | S fuel' =>
      if (0 <? guard e)%nat then Some e
      else if paused e then Some (reset e)
      else
        match ev with
        | Printable c =>
            match buffer e with
            | [] => if c =? sentinel then Some (with_buffer [c] e) else Some e
            | _ :: _ =>
                if Validation.is_word_char c && (length (buffer e) <? max_command_length)%nat
                then Some (with_buffer (buffer e ++ [c]) e)
                else Some (reset e)
            end
        | Delimiter _ =>
            match buffer e with
            | [] => Some e
            | _ :: _ =>
                match lookup_rule (buffer e) (rules e) with
                | None => Some (reset e)
                | Some replacement =>
                    let token := buffer e in
                    if dryRun e then Some (reset (record_match token e))
                    else
                      let raised :=
                        emit [DeleteBackward (length token); InjectText replacement]
                          (with_guard (S (guard e)) (record_match token e)) in
                      match
                        fold_left
                          (fun acc synthetic =>
                             match acc with
                             | Some e' => observe fuel' synthetic e'
                             | None => None
                             end)
                          (synthetic_events (length token) replacement) (Some raised)
                      with
                      | Some injected => Some (reset (with_guard (guard e) injected))
                      | None => None
                      end
                end
            end
        | Backspace => Some (with_buffer (removelast (buffer e)) e)
        | CursorMove => Some (reset e)
        | FocusChange => Some (reset e)
        end
  end.

(** A stream of events, one after the other. *)
Definition observe_all (fuel : nat) (evs : list InputEvent) (e : Engine) : option Engine :=
  fold_left
    (fun acc ev => match acc with Some e' => observe fuel ev e' | None => None end)
    evs (Some e).

End WithPlatform.

(** The state an expansion of [buffer e] into [replacement] leaves. *)
Definition expanded (replacement : jsstring) (e : Engine) : Engine :=
  reset (emit [DeleteBackward (length (buffer e)); InjectText replacement]
           (record_match (buffer e) e)).

(** A rule table in which the replacement of [.sig] is itself the command
    [.addr] followed by a space. *)
Definition nested_rules : list (jsstring * jsstring) :=
  [(js ".sig", js ".addr "); (js ".addr", js "1 Main Street")].

Definition space_delimits (c : N) : bool := c =? Char.space.

Definition typed_sig : Engine :=
  {| rules := nested_rules; dryRun := false; paused := false; guard := 0;
     buffer := js ".sig"; outputs := []; matches := [] |}.

End Engine.

(** ** src/state/shortcuts-store.tsx *)

Module ShortcutsStore.

(** The argument of [upsertRule]: a rule without its dates, with or without
    an id. *)
Record RuleInput := {
  inputId : option jsstring;
  inputCommand : jsstring;
  inputReplacementText : jsstring
}.

(** [prev.map(r => r.id === rule.id ? { ...r, ...rule, updatedAt: new
    Date().toISOString() } : r)]: the clock is read once for every rule that
    is replaced; [clock k] is what its reading number [k] gives. *)
Fixpoint update_matching (ruleId : jsstring) (rule : RuleInput) (clock : nat -> jsstring)
    (reads : nat) (prev : list ExpansionRule) : list ExpansionRule :=
  match prev with
  | [] => []
  | r :: rest =>
      if bool_decide (id r = ruleId) then
        {| id := ruleId; command := inputCommand rule;
           replacementText := inputReplacementText rule;
           createdAt := createdAt r; updatedAt := clock reads |}
        :: update_matching ruleId rule clock (S reads) rest
      else r :: update_matching ruleId rule clock reads rest
  end.

(** The updater of [upsertRule]; [uuid] is what [crypto.randomUUID()]
    returns. An empty id counts as no id. *)
Definition upsertRule (rule : RuleInput) (clock : nat -> jsstring) (uuid : jsstring)
    (prev : list ExpansionRule) : list ExpansionRule :=
  match inputId rule with
  | Some ((_ :: _) as ruleId) => update_matching ruleId rule clock 0 prev
  | _ =>
      let now := clock 0%nat in
      prev ++ [{| id := uuid; createdAt := now; updatedAt := now;
                  command := inputCommand rule;
                  replacementText := inputReplacementText rule |}]
  end.

(** The updater of [deleteRule]. *)
Definition deleteRule (ruleId : jsstring) (prev : list ExpansionRule) : list ExpansionRule :=
  List.filter (fun r => negb (bool_decide (id r = ruleId))) prev.

(** The clock of the samples: every reading gives the same time. *)
Definition noon : nat -> jsstring := fun _ => js "2025-08-11T12:00:00.000Z".

Definition stored_sig : ExpansionRule :=
  {| id := js "a1"; command := js ".sig"; replacementText := js "Best";
     createdAt := js "2025-08-09T08:00:00.000Z";
     updatedAt := js "2025-08-09T08:00:00.000Z" |}.

End ShortcutsStore.

(** ** src/views/SettingsView.tsx *)

Module SettingsView.
Import ConflictUtils.

Inductive Action := Skip | Overwrite | Rename.

(** [ConflictResolution] of src/components/ImportConflictDialog.tsx *)
Record ConflictResolution := {
  action : Action;
  newCommand : option jsstring;
  ruleId : jsstring
}.

(** The four counters of [handleConflictResolution]. *)
Record Counts := {
  importedCount : nat;
  skippedCount : nat;
  overwrittenCount : nat;
  renamedCount : nat
}.

(** [new Map(entries.map(e => [key(e), e]))]: a later entry replaces an
    earlier one with the same key. *)
Definition Map_of {A} (key : A -> jsstring) (entries : list A) : gmap jsstring A :=
  fold_left (fun m e => <[key e := e]> m) entries ∅.

(** The body of the loop over [pendingImportRules]. *)
Definition resolve_one (resolutionMap : gmap jsstring ConflictResolution)
    (conflictMap : gmap jsstring ConflictItem)
    (state : list ExpansionRule * Counts) (imported : ExpansionRule)
    : list ExpansionRule * Counts :=
  let (updatedRules, counts) := state in
  match conflictMap !! id imported, resolutionMap !! id imported with
  | Some conflict, Some resolution =>
      match action resolution with
      | Skip =>
          (updatedRules,
           {| importedCount := importedCount counts;
              skippedCount := S (skippedCount counts);
              overwrittenCount := overwrittenCount counts;
              renamedCount := renamedCount counts |})
      | Overwrite =>
          (List.filter (fun r => negb (bool_decide (id r = id (existingRule conflict))))
             updatedRules ++ [imported],
           {| importedCount := importedCount counts;
              skippedCount := skippedCount counts;
              overwrittenCount := S (overwrittenCount counts);
              renamedCount := renamedCount counts |})
      | Rename =>
          match newCommand resolution with
          | Some ((_ :: _) as renamed) =>
              (updatedRules ++ [{| id := id imported; command := renamed;
                                   replacementText := replacementText imported;
                                   createdAt := createdAt imported;
                                   updatedAt := updatedAt imported |}],
               {| importedCount := importedCount counts;
                  skippedCount := skippedCount counts;
                  overwrittenCount := overwrittenCount counts;
                  renamedCount := S (renamedCount counts) |})
          | _ =>
              (updatedRules,
               {| importedCount := importedCount counts;
                  skippedCount := S (skippedCount counts);
                  overwrittenCount := overwrittenCount counts;
                  renamedCount := renamedCount counts |})
          end
      end
  | _, _ =>
      (updatedRules ++ [imported],
       {| importedCount := S (importedCount counts);
          skippedCount := skippedCount counts;
          overwrittenCount := overwrittenCount counts;
          renamedCount := renamedCount counts |})
  end.

(** [handleConflictResolution(resolutions)] in a view that holds
    [importConflicts], [pendingImportRules] and [rules]: the list handed to
    [replaceAllRules] and the counts of the summary. *)
Definition handleConflictResolution (resolutions : list ConflictResolution)
    (importConflicts : list ConflictItem) (pendingImportRules rules : list ExpansionRule)
    : list ExpansionRule * Counts :=
  let resolutionMap := Map_of ruleId resolutions in
  let conflictMap := Map_of (fun c => id (importedRule c)) importConflicts in
  fold_left (resolve_one resolutionMap conflictMap) pendingImportRules
    (rules, {| importedCount := 0; skippedCount := 0;
               overwrittenCount := 0; renamedCount := 0 |}).

(** The rules counted so far. *)
Definition counted (counts : Counts) : nat :=
  importedCount counts + skippedCount counts + overwrittenCount counts
  + renamedCount counts.

(** The rules added so far. *)
Definition added (counts : Counts) : nat :=
  importedCount counts + overwrittenCount counts + renamedCount counts.

End SettingsView.

(** * Properties *)

Module ValidationFacts.
Import Validation.

(** *** Facts about the tests *)

Lemma is_word_char_spec c : is_word_char c = true <-> word_char c.
Proof.
  unfold is_word_char, word_char, Char.underscore.
  rewrite !orb_true_iff, !andb_true_iff, !N.leb_le, N.eqb_eq. tauto.
Qed.

Lemma startsWith_period s : startsWith s (js ".") = true <-> starts_with_period s.
Proof.
  unfold starts_with_period. change (js ".") with [Char.dot].
  destruct s as [|c s]; simpl.
  - split; [discriminate | intros [r Hr]; discriminate].
  - rewrite andb_true_r, N.eqb_eq. split.
    + intros ->. now exists s.
    + intros [r Hr]. now inversion Hr.
Qed.

Lemma re_period_then_word_spec s :
  re_period_then_word s = true <->
  period_then_word_chars s /\ (2 <= length s)%nat.
Proof.
  unfold re_period_then_word, period_then_word_chars.
  destruct s as [|c [|d s]].
  - split; [discriminate | intros [[r [Hr _]] _]; discriminate].
  - split; [discriminate | simpl; lia].
  - rewrite andb_true_iff, N.eqb_eq, forallb_forall. split.
    + intros [-> Hall]. split; [|simpl; lia].
      exists (d :: s). split; [reflexivity|].
      apply List.Forall_forall. intros x Hx. apply is_word_char_spec. now apply Hall.
    + intros [[r [Hr Hall]] _]. inversion Hr; subst. split; [reflexivity|].
      intros x Hx. apply is_word_char_spec.
      rewrite List.Forall_forall in Hall. now apply Hall.
Qed.

Lemma re_double_underscore_spec s :
  re_double_underscore s = true <-> doubled_underscore s.
Proof.
  unfold doubled_underscore. induction s as [|a s IH].
  - split; [discriminate | intros [[|x p] [q H]]; discriminate].
  - destruct s as [|b s].
    + split; [discriminate|]. intros [[|x [|y p]] [q H]]; discriminate.
    + change (re_double_underscore (a :: b :: s))
        with (((a =? Char.underscore) && (b =? Char.underscore))
              || re_double_underscore (b :: s)).
      rewrite orb_true_iff, andb_true_iff, !N.eqb_eq, IH. split.
      * intros [[-> ->] | [p [q H]]].
        -- now exists [], s.
        -- exists (a :: p), q. now rewrite H.
      * intros [[|x p] [q H]].
        -- inversion H; subst. now left.
        -- right. inversion H; subst. now exists p, q.
Qed.

Lemma ends_with_underscore_spec s :
  ends_with_underscore s = true <-> trailing_underscore s.
Proof.
  unfold trailing_underscore. induction s as [|a s IH].
  - split; [discriminate | intros [[|x p] H]; discriminate].
  - destruct s as [|b s].
    + simpl. rewrite N.eqb_eq. split.
      * intros ->. now exists [].
      * intros [[|x [|y p]] H]; inversion H; subst; reflexivity.
    + change (ends_with_underscore (a :: b :: s)) with (ends_with_underscore (b :: s)).
      rewrite IH. split.
      * intros [p H]. exists (a :: p). now rewrite H.
      * intros [[|x p] H]; [discriminate|]. inversion H; subst. now exists p.
Qed.

Lemma re_edge_underscore_spec s :
  re_edge_underscore s = true <-> leading_underscore s \/ trailing_underscore s.
Proof.
  unfold re_edge_underscore. rewrite orb_true_iff, ends_with_underscore_spec.
  apply or_iff_compat_r. unfold leading_underscore.
  destruct s as [|a [|b s]]; simpl.
  - split; [discriminate | intros [q H]; discriminate].
  - rewrite andb_false_r. split; [discriminate | intros [q H]; discriminate].
  - rewrite andb_true_r, andb_true_iff, !N.eqb_eq. split.
    + intros [-> ->]. now exists s.
    + intros [q H]. now inversion H.
Qed.

Lemma RESERVED_spec s : s ∈ RESERVED <-> In s reserved_words.
Proof.
  unfold RESERVED. rewrite elem_of_list_to_set. apply list_elem_of_In.
Qed.

Lemma count_split_newline s : length (split_newline s) = line_count s.
Proof.
  unfold line_count. induction s as [|c s IH]; [reflexivity|].
  simpl. destruct (c =? Char.newline).
  - simpl. now rewrite IH.
  - destruct (split_newline s) as [|p ps]; [discriminate|]. exact IH.
Qed.

Lemma errors_for_push_if f cond e errors :
  errors_for f (push_if cond e errors) =
  errors_for f errors ++ (if cond && Field_eqb (field e) f then [e] else []).
Proof.
  unfold errors_for, push_if. destruct cond; simpl.
  - rewrite List.filter_app. simpl. now destruct (Field_eqb (field e) f).
  - now rewrite app_nil_r.
Qed.

Lemma app_flag_nil (e : ValidationError) (l : list ValidationError) (b : bool) :
  l ++ (if b then [e] else []) = [] <-> l = [] /\ b = false.
Proof.
  destruct b.
  - split; [intros H; apply app_eq_nil in H as [_ H]; discriminate | intros [_ H]; discriminate].
  - rewrite app_nil_r. tauto.
Qed.

Lemma find_is_some {A} (f : A -> bool) (l : list A) :
  (match List.find f l with Some _ => true | None => false end) = false <->
  forall x, In x l -> f x = false.
Proof.
  destruct (List.find f l) as [x|] eqn:E.
  - split; [discriminate|]. intros H. apply List.find_some in E as [Hin Hf].
    rewrite (H x Hin) in Hf. discriminate.
  - split; [|reflexivity]. intros _. now apply List.find_none.
Qed.

Section ValidateRuleFacts.
Variable toLowerCase : jsstring -> jsstring.

Lemma is_duplicate_of_spec lower selfId r :
  is_duplicate_of toLowerCase lower selfId r = true <->
  Some (id r) <> selfId /\ toLowerCase (command r) = lower.
Proof.
  unfold is_duplicate_of.
  rewrite andb_true_iff, negb_true_iff, bool_decide_eq_false, bool_decide_eq_true.
  reflexivity.
Qed.

Lemma no_duplicate_spec existing selfId s :
  (forall r, In r existing ->
     is_duplicate_of toLowerCase (toLowerCase s) selfId r = false) <->
  ~ taken_by_other toLowerCase existing selfId s.
Proof.
  unfold taken_by_other, same_command. split.
  - intros H [r [Hin [Hid Hcmd]]].
    assert (is_duplicate_of toLowerCase (toLowerCase s) selfId r = true)
      by (apply is_duplicate_of_spec; auto).
    rewrite (H r Hin) in *. discriminate.
  - intros H r Hin.
    destruct (is_duplicate_of toLowerCase (toLowerCase s) selfId r) eqn:E; [|reflexivity].
    apply is_duplicate_of_spec in E as [Hid Hcmd]. exfalso. apply H. eauto.
Qed.

Lemma reserved_test_spec s :
  bool_decide (toLowerCase s ∈ RESERVED) = false <-> ~ is_reserved toLowerCase s.
Proof.
  rewrite bool_decide_eq_false, RESERVED_spec. unfold is_reserved. split.
  - intros H [w [Hw E]]. apply H. now rewrite E.
  - intros H Hin. apply H. eauto.
Qed.

(** C3. [validateRule] reports nothing against the command exactly when the
    command starts with the period, is 5 to 50 code units long, is the period
    followed only by characters of [[A-Za-z0-9_]], has no doubled underscore,
    no underscore right after the period or at its end, is not (compared
    without regard to case) a reserved word, and no existing rule with another
    id has the same command compared without regard to case. *)
Theorem validateRule_command_errors rule existing selfId :
  errors_for FieldCommand (validateRule toLowerCase rule existing selfId) = [] <->
  command_acceptable toLowerCase (draftCommand rule) existing selfId.
Proof.
  unfold validateRule. cbv zeta.
  rewrite !errors_for_push_if. cbn [field err Field_eqb].
  rewrite !andb_true_r, !andb_false_r, !app_nil_r, !app_flag_nil.
  cbn [errors_for List.filter].
  rewrite negb_false_iff, startsWith_period, negb_false_iff,
    re_period_then_word_spec, find_is_some, no_duplicate_spec, reserved_test_spec.
  rewrite N.leb_gt, N.ltb_ge.
  assert (Hedge : re_edge_underscore (draftCommand rule) = false <->
                  ~ leading_underscore (draftCommand rule)
                  /\ ~ trailing_underscore (draftCommand rule)).
  { rewrite <- not_true_iff_false, re_edge_underscore_spec. tauto. }
  assert (Hdbl : re_double_underscore (draftCommand rule) = false <->
                 ~ doubled_underscore (draftCommand rule)).
  { now rewrite <- not_true_iff_false, re_double_underscore_spec. }
  rewrite Hedge, Hdbl. unfold jslength. split.
  - intros [[[[[[[[_ H1] H2] [H3 _]] H4] H5] [H6 H7]] H8] H9].
    constructor; auto. unfold jslength. lia.
  - intros [H1 H2 H3 H4 H5 H6 H7 H8]. unfold jslength in H2.
    repeat split; auto; lia.
Qed.

Lemma length_zero_iff_nil_js (s : jsstring) : (jslength s =? 0) = false <-> s <> [].
Proof.
  unfold jslength. rewrite N.eqb_neq. destruct s; simpl; split; intros; try lia; congruence.
Qed.

(** C4. [validateRule] reports nothing against the replacement text exactly
    when the text is not empty, is at most 10,000 code units long and has at
    most 100 lines (pieces between line feeds). *)
Theorem validateRule_replacement_errors rule existing selfId :
  errors_for FieldReplacementText (validateRule toLowerCase rule existing selfId) = [] <->
  replacement_acceptable (draftReplacementText rule).
Proof.
  unfold validateRule. cbv zeta.
  rewrite !errors_for_push_if. cbn [field err Field_eqb].
  rewrite !andb_true_r, !andb_false_r, !app_nil_r, !app_flag_nil.
  cbn [errors_for List.filter].
  rewrite length_zero_iff_nil_js, count_split_newline, !N.ltb_ge.
  unfold replacement_acceptable. split.
  - intros [[[_ H1] H2] H3]. repeat split; auto; lia.
  - intros [H1 [H2 H3]]. repeat split; auto; lia.
Qed.

End ValidateRuleFacts.

(** The cases of the repository's own tests, under ASCII case folding. *)
Example valid_command_accepted :
  validateRule ascii_toLowerCase
    {| draftCommand := js ".valid_command"; draftReplacementText := js "test" |} [] None = [].
Proof. vm_compute. reflexivity. Qed.

Example short_command_rejected :
  List.map field
    (validateRule ascii_toLowerCase
       {| draftCommand := js ".ab"; draftReplacementText := js "test" |} [] None)
  = [FieldCommand].
Proof. vm_compute. reflexivity. Qed.

Example hyphen_rejected :
  List.map field
    (validateRule ascii_toLowerCase
       {| draftCommand := js ".sig-test"; draftReplacementText := js "test" |} [] None)
  = [FieldCommand].
Proof. vm_compute. reflexivity. Qed.

Example reserved_in_any_case :
  List.map message
    (validateRule ascii_toLowerCase
       {| draftCommand := js ".HELP"; draftReplacementText := js "test" |} [] None)
  = [js "This command is reserved"].
Proof. vm_compute. reflexivity. Qed.

Example own_rule_is_no_duplicate :
  let rule := {| id := js "1"; command := js ".Signature"; replacementText := js "x";
                 createdAt := []; updatedAt := [] |} in
  validateRule ascii_toLowerCase
    {| draftCommand := js ".signature"; draftReplacementText := js "x" |} [rule] (Some (js "1"))
  = []
  /\ List.map message
       (validateRule ascii_toLowerCase
          {| draftCommand := js ".signature"; draftReplacementText := js "x" |} [rule] None)
     = [js "Must be unique"].
Proof. vm_compute. split; reflexivity. Qed.

(** *** Which error is reported when *)

Lemma push_if_app cond e errors :
  push_if cond e errors = errors ++ (if cond then [e] else []).
Proof. unfold push_if. destruct cond; [reflexivity | now rewrite app_nil_r]. Qed.

Lemma In_reported (checks : list (bool * ValidationError)) e :
  In e (flat_map (fun check : bool * ValidationError =>
                     if fst check then [snd check] else []) checks)
  <-> In (true, e) checks.
Proof.
  induction checks as [|[cond e'] checks IH]; [reflexivity|].
  cbn [flat_map fst snd]. rewrite in_app_iff, IH. cbn [In].
  destruct cond; cbn [In]; split; intros [H | H]; auto; try contradiction.
  - destruct H as [-> | []]. now left.
  - injection H as ->. left. now left.
  - discriminate.
Qed.

Lemma one_check_per_message (checks : list (bool * ValidationError)) :
  List.NoDup (List.map (fun check : bool * ValidationError => message (snd check))
                checks) ->
  forall i cond e, nth_error checks i = Some (cond, e) ->
  forall cond', In (cond', e) checks -> cond' = cond.
Proof.
  induction checks as [|[c0 e0] checks IH]; intros Hnodup i cond e Hnth cond' Hin;
    [contradiction|].
  cbn [List.map snd] in Hnodup. apply List.NoDup_cons_iff in Hnodup as [Hfirst Hrest].
  assert (Hother : forall c, In (c, e0) checks -> False).
  { intros c Hc. apply Hfirst.
    apply (List.in_map (fun check : bool * ValidationError => message (snd check)))
      in Hc. exact Hc. }
  destruct i as [|i]; cbn [nth_error] in Hnth.
  - injection Hnth as -> ->. destruct Hin as [Hin | Hin]; [congruence|].
    exfalso. now apply (Hother cond').
  - destruct Hin as [Hin | Hin].
    + injection Hin as -> ->. exfalso. apply (Hother cond). eapply nth_error_In, Hnth.
    + now apply (IH Hrest i cond e Hnth).
Qed.

(** A check is reported exactly when its condition holds, as long as no two
    checks share a message. *)
Lemma check_reported (checks : list (bool * ValidationError)) i cond e :
  List.NoDup (List.map (fun check : bool * ValidationError => message (snd check))
                checks) ->
  nth_error checks i = Some (cond, e) ->
  In e (flat_map (fun check : bool * ValidationError =>
                     if fst check then [snd check] else []) checks)
  <-> cond = true.
Proof.
  intros Hnodup Hnth. rewrite In_reported. split.
  - intros Hin. symmetry. now apply (one_check_per_message checks Hnodup i cond e Hnth).
  - intros ->. eapply nth_error_In, Hnth.
Qed.

Section ReportedErrors.
Variable toLowerCase : jsstring -> jsstring.

(** Each of the eleven checks of [validateRule] reports its own message
    exactly when its own condition fails, whatever the other checks find:
    the checks neither hide nor trigger one another. *)
Theorem validateRule_reports rule existing selfId :
  let errors := validateRule toLowerCase rule existing selfId in
  let cmd := draftCommand rule in
  let text := draftReplacementText rule in
  (In (err FieldCommand "Must start with a period (.)") errors
     <-> ~ starts_with_period cmd)
  /\ (In (err FieldCommand "Must be longer than 4 characters") errors
        <-> jslength cmd <= 4)
  /\ (In (err FieldCommand "Only letters, numbers, and underscores after the period") errors
        <-> ~ (period_then_word_chars cmd /\ (2 <= length cmd)%nat))
  /\ (In (err FieldCommand "Maximum length is 50 characters") errors
        <-> 50 < jslength cmd)
  /\ (In (err FieldCommand "No consecutive underscores") errors
        <-> doubled_underscore cmd)
  /\ (In (err FieldCommand "No leading or trailing underscore after the period") errors
        <-> leading_underscore cmd \/ trailing_underscore cmd)
  /\ (In (err FieldCommand "This command is reserved") errors
        <-> is_reserved toLowerCase cmd)
  /\ (In (err FieldCommand "Must be unique") errors
        <-> taken_by_other toLowerCase existing selfId cmd)
  /\ (In (err FieldReplacementText "Replacement text cannot be empty") errors
        <-> text = [])
  /\ (In (err FieldReplacementText "Maximum length is 10,000 characters") errors
        <-> 10000 < jslength text)
  /\ (In (err FieldReplacementText "Maximum 100 lines") errors
        <-> (100 < line_count text)%nat).
Proof.
  cbv zeta.
  assert (Hreserved : bool_decide (toLowerCase (draftCommand rule) ∈ RESERVED) = true
                      <-> is_reserved toLowerCase (draftCommand rule)).
  { rewrite bool_decide_eq_true, RESERVED_spec. unfold is_reserved. split.
    - intros H. now exists (toLowerCase (draftCommand rule)).
    - now intros [w [Hw ->]]. }
  assert (Hunique :
    (match List.find (is_duplicate_of toLowerCase (toLowerCase (draftCommand rule)) selfId)
             existing with Some _ => true | None => false end) = true
    <-> taken_by_other toLowerCase existing selfId (draftCommand rule)).
  { destruct (List.find _ existing) as [r|] eqn:Hfind.
    - apply List.find_some in Hfind as [Hin Hdup].
      apply is_duplicate_of_spec in Hdup as [Hid Hcmd].
      split; [intros _; now exists r | reflexivity].
    - split; [discriminate|]. intros [r [Hin [Hid Hcmd]]].
      pose proof (List.find_none _ _ Hfind r Hin) as Hno.
      assert (Hyes : is_duplicate_of toLowerCase (toLowerCase (draftCommand rule)) selfId r
                     = true) by (apply is_duplicate_of_spec; now split).
      congruence. }
  assert (Hempty : (jslength (draftReplacementText rule) =? 0) = true
                   <-> draftReplacementText rule = []).
  { unfold jslength. rewrite N.eqb_eq. destruct (draftReplacementText rule); cbn;
      split; intros; try lia; congruence. }
  pose (checks :=
    [(negb (startsWith (draftCommand rule) (js ".")),
      err FieldCommand "Must start with a period (.)");
     (jslength (draftCommand rule) <=? 4,
      err FieldCommand "Must be longer than 4 characters");
     (negb (re_period_then_word (draftCommand rule)),
      err FieldCommand "Only letters, numbers, and underscores after the period");
     (50 <? jslength (draftCommand rule),
      err FieldCommand "Maximum length is 50 characters");
     (re_double_underscore (draftCommand rule),
      err FieldCommand "No consecutive underscores");
     (re_edge_underscore (draftCommand rule),
      err FieldCommand "No leading or trailing underscore after the period");
     (bool_decide (toLowerCase (draftCommand rule) ∈ RESERVED),
      err FieldCommand "This command is reserved");
     (match List.find (is_duplicate_of toLowerCase (toLowerCase (draftCommand rule)) selfId)
              existing with Some _ => true | None => false end,
      err FieldCommand "Must be unique");
     (jslength (draftReplacementText rule) =? 0,
      err FieldReplacementText "Replacement text cannot be empty");
     (10000 <? jslength (draftReplacementText rule),
      err FieldReplacementText "Maximum length is 10,000 characters");
     (100 <? N.of_nat (length (split_newline (draftReplacementText rule))),
      err FieldReplacementText "Maximum 100 lines")]).
  assert (Herrors : validateRule toLowerCase rule existing selfId
                    = flat_map (fun check : bool * ValidationError =>
                                  if fst check then [snd check] else []) checks).
  { unfold validateRule. cbv zeta. rewrite !push_if_app. subst checks.
    cbn [flat_map fst snd]. rewrite app_nil_r, <- !app_assoc. reflexivity. }
  assert (Hnodup : List.NoDup (List.map (fun check : bool * ValidationError =>
                                           message (snd check)) checks)).
  { apply NoDup_ListNoDup. subst checks. cbn [List.map snd message err].
    apply (bool_decide_unpack _). vm_compute. exact I. }
  rewrite Herrors.
  rewrite (check_reported checks 0 _ _ Hnodup eq_refl),
    (check_reported checks 1 _ _ Hnodup eq_refl),
    (check_reported checks 2 _ _ Hnodup eq_refl),
    (check_reported checks 3 _ _ Hnodup eq_refl),
    (check_reported checks 4 _ _ Hnodup eq_refl),
    (check_reported checks 5 _ _ Hnodup eq_refl),
    (check_reported checks 6 _ _ Hnodup eq_refl),
    (check_reported checks 7 _ _ Hnodup eq_refl),
    (check_reported checks 8 _ _ Hnodup eq_refl),
    (check_reported checks 9 _ _ Hnodup eq_refl),
    (check_reported checks 10 _ _ Hnodup eq_refl).
  rewrite negb_true_iff, <- not_true_iff_false, startsWith_period.
  rewrite negb_true_iff, <- not_true_iff_false, re_period_then_word_spec.
  rewrite re_double_underscore_spec, re_edge_underscore_spec, Hreserved, Hunique, Hempty.
  rewrite N.leb_le, !N.ltb_lt, count_split_newline.
  repeat split; try tauto; lia.
Qed.

End ReportedErrors.

End ValidationFacts.

Module JSONFacts.
Import JSON.

(** *** Facts: whitespace and numbers *)

Lemma skip_ws_newline_indent depth s :
  skip_ws (newline_indent depth ++ s) = skip_ws s.
Proof.
  unfold newline_indent. generalize (2 * depth)%nat as n. intros n.
  change (skip_ws (repeat Char.space n ++ s) = skip_ws s).
  induction n as [|n IH]; [reflexivity|exact IH].
Qed.

Lemma skip_ws_head c s : is_ws c = false -> skip_ws (c :: s) = c :: s.
Proof. intros H. simpl. now rewrite H. Qed.

Lemma number_end_digits_end rest : number_end rest -> digits_end rest.
Proof. destruct rest; [trivial|]. now intros [H _]. Qed.

Lemma take_digits_chars d rest :
  digits_end rest -> take_digits (chars_of_uint d ++ rest) = (d, rest).
Proof.
  intros Hend. induction d; simpl; rewrite ?IHd; try reflexivity.
  destruct rest as [|c rest]; [reflexivity|]. simpl in *.
  rewrite Hend. reflexivity.
Qed.

Lemma to_uint_normal n : Decimal.unorm (N.to_uint n) = N.to_uint n.
Proof.
  rewrite <- (DecimalN.Unsigned.to_of (N.to_uint n)).
  now rewrite DecimalN.Unsigned.of_to.
Qed.

Lemma to_uint_nonnil n : N.to_uint n <> Decimal.Nil.
Proof. rewrite <- to_uint_normal. apply DecimalFacts.unorm_nonnil. Qed.

Lemma chars_of_uint_head d :
  d <> Decimal.Nil ->
  exists c tl, chars_of_uint d = c :: tl /\ 48 <= c <= 57.
Proof.
  destruct d; [congruence| ..]; intros _; simpl; eexists _, _; (split; [reflexivity|lia]).
Qed.

Lemma take_unsigned n rest :
  number_end rest ->
  take_digits (chars_of_uint (N.to_uint n) ++ rest) = (N.to_uint n, rest).
Proof. intros H. apply take_digits_chars. now apply number_end_digits_end. Qed.

Lemma is_nil_false d : d <> Decimal.Nil -> is_nil d = false.
Proof. destruct d; [congruence|reflexivity..]. Qed.

Lemma take_minus_integer z tail :
  take_minus (integer_to_string z ++ tail) =
  ((z <? 0)%Z, chars_of_uint (N.to_uint (Z.abs_N z)) ++ tail).
Proof.
  unfold integer_to_string. destruct (z <? 0)%Z; [reflexivity|].
  destruct (chars_of_uint_head _ (to_uint_nonnil (Z.abs_N z))) as [c [tl [E Hc]]].
  rewrite E. simpl. unfold Char.minus.
  destruct (N.eqb_spec c 45); [lia|reflexivity].
Qed.

Lemma signed_magnitude z :
  (if (z <? 0)%Z then Z.opp (Z.of_N (Z.abs_N z)) else Z.of_N (Z.abs_N z)) = z.
Proof. destruct (Z.ltb_spec z 0); lia. Qed.

Lemma take_exponent_none rest : number_end rest -> take_exponent rest = Some (0%Z, rest).
Proof.
  destruct rest as [|c rest]; [reflexivity|]. intros [_ [_ [H1 H2]]]. simpl.
  destruct (N.eqb_spec c 101); [congruence|]. destruct (N.eqb_spec c 69); [congruence|].
  reflexivity.
Qed.

Lemma take_fraction_none rest : number_end rest -> take_fraction rest = Some (Decimal.Nil, rest).
Proof.
  destruct rest as [|c rest]; [reflexivity|]. intros [_ [H _]]. simpl.
  destruct (N.eqb_spec c Char.dot); [congruence|reflexivity].
Qed.

Lemma take_exponent_integer z rest :
  number_end rest ->
  take_exponent (101 :: integer_to_string z ++ rest) = Some (z, rest).
Proof.
  intros Hend. unfold take_exponent. simpl N.eqb. cbn [orb].
  unfold integer_to_string.
  destruct (chars_of_uint_head _ (to_uint_nonnil (Z.abs_N z))) as [c [tl [E Hc]]].
  assert (Hval : forall b : bool,
    (let (ds, rest2) := take_digits (chars_of_uint (N.to_uint (Z.abs_N z)) ++ rest) in
     if is_nil ds then None
     else Some (if b then Z.opp (Z.of_N (N.of_uint ds)) else Z.of_N (N.of_uint ds), rest2))
    = Some (if b then Z.opp (Z.of_N (Z.abs_N z)) else Z.of_N (Z.abs_N z), rest)).
  { intros b. rewrite take_unsigned by assumption.
    rewrite is_nil_false by apply to_uint_nonnil.
    now rewrite DecimalN.Unsigned.of_to. }
  destruct (Z.ltb_spec z 0) as [Hneg|Hpos].
  - simpl. rewrite (Hval true). f_equal. f_equal. lia.
  - simpl app. rewrite E. rewrite E in Hval.
    unfold Char.minus, Char.plus. cbn [app].
    destruct (N.eqb_spec c 45); [lia|]. destruct (N.eqb_spec c 43); [lia|].
    change (c :: tl ++ rest) with ((c :: tl) ++ rest).
    rewrite (Hval false). f_equal. f_equal. lia.
Qed.

Lemma parse_number_to_string n rest :
  number_end rest -> parse_number (number_to_string n ++ rest) = Some (n, rest).
Proof.
  intros Hend. destruct n as [m e]. unfold parse_number, number_to_string. cbn [mantissa exp10].
  rewrite <- app_assoc, take_minus_integer.
  destruct (Z.eqb_spec e 0) as [->|He].
  - simpl app. rewrite take_unsigned by assumption.
    rewrite to_uint_normal. destruct (Decimal.uint_eq_dec _ _) as [_|]; [|congruence].
    rewrite take_fraction_none, take_exponent_none by assumption.
    rewrite DecimalFacts.app_nil_r, DecimalN.Unsigned.of_to. simpl Decimal.nb_digits.
    rewrite signed_magnitude. reflexivity.
  - assert (Hmid : take_digits (chars_of_uint (N.to_uint (Z.abs_N m))
                                ++ (101 :: integer_to_string e) ++ rest)
                   = (N.to_uint (Z.abs_N m), (101 :: integer_to_string e) ++ rest)).
    { apply take_digits_chars. reflexivity. }
    rewrite Hmid. rewrite to_uint_normal.
    destruct (Decimal.uint_eq_dec _ _) as [_|]; [|congruence].
    simpl app. cbn [take_fraction]. change (101 =? Char.dot) with false. cbv iota.
    rewrite take_exponent_integer by assumption.
    rewrite DecimalFacts.app_nil_r, DecimalN.Unsigned.of_to. simpl Decimal.nb_digits.
    rewrite signed_magnitude. f_equal. f_equal. f_equal. lia.
Qed.

(** *** Facts: strings *)

Lemma hex_digit_char n : n < 16 -> hex_digit (hex_char n) = Some n.
Proof.
  intros H. unfold hex_char, hex_digit.
  destruct (N.ltb_spec n 10).
  - replace ((48 <=? 48 + n) && (48 + n <=? 57)) with true
      by (symmetry; apply andb_true_iff; split; apply N.leb_le; lia).
    f_equal. lia.
  - replace ((48 <=? 87 + n) && (87 + n <=? 57)) with false
      by (symmetry; apply andb_false_iff; right; apply N.leb_gt; lia).
    replace ((97 <=? 87 + n) && (87 + n <=? 102)) with true
      by (symmetry; apply andb_true_iff; split; apply N.leb_le; lia).
    f_equal. lia.
Qed.

Lemma hex4_escape c :
  c < 65536 ->
  hex4 (hex_char (c / 4096)) (hex_char ((c / 256) mod 16))
       (hex_char ((c / 16) mod 16)) (hex_char (c mod 16)) = Some c.
Proof.
  intros H. unfold hex4.
  rewrite !hex_digit_char.
  - f_equal. zify. Z.to_euclidean_division_equations. lia.
  - apply N.mod_lt. discriminate.
  - apply N.mod_lt. discriminate.
  - apply N.mod_lt. discriminate.
  - zify. Z.to_euclidean_division_equations. lia.
Qed.

Lemma parse_unicode_escape c tail :
  c < 65536 ->
  parse_string_body (unicode_escape c ++ tail) = prepend c (parse_string_body tail).
Proof.
  intros H. unfold unicode_escape. cbn [app parse_string_body].
  change (Char.backslash =? Char.quote) with false.
  change (Char.backslash =? Char.backslash) with true.
  change (117 =? 117) with true. cbv iota.
  now rewrite hex4_escape.
Qed.

Lemma parse_raw_char c tail :
  c <> Char.quote -> c <> Char.backslash -> 32 <= c ->
  parse_string_body (c :: tail) = prepend c (parse_string_body tail).
Proof.
  intros H1 H2 H3. cbn [parse_string_body].
  destruct (N.eqb_spec c Char.quote); [congruence|].
  destruct (N.eqb_spec c Char.backslash); [congruence|].
  destruct (N.ltb_spec c 32); [lia|reflexivity].
Qed.

Lemma parse_simple_escape e u tail :
  e <> 117 -> simple_escape e = Some u ->
  parse_string_body (Char.backslash :: e :: tail) = prepend u (parse_string_body tail).
Proof.
  intros H1 H2. cbn [parse_string_body].
  change (Char.backslash =? Char.quote) with false.
  change (Char.backslash =? Char.backslash) with true. cbv iota.
  destruct (N.eqb_spec e 117); [congruence|]. now rewrite H2.
Qed.

Lemma parse_quote_chars_bounded n : forall s rest,
  (length s <= n)%nat ->
  parse_string_body (quote_chars s ++ Char.quote :: rest) = Some (s, rest).
Proof.
  induction n as [|n IH]; intros s rest Hlen.
  - destruct s; [|simpl in Hlen; lia]. simpl. reflexivity.
  - destruct s as [|c s]; [reflexivity|]. simpl in Hlen.
    assert (Htail : parse_string_body (quote_chars s ++ Char.quote :: rest) = Some (s, rest))
      by (apply IH; lia).
    cbn [quote_chars].
    destruct (N.eqb_spec c 8) as [->|H8].
    { cbn [app]. rewrite (parse_simple_escape 98 8) by (discriminate || reflexivity).
      now rewrite Htail. }
    destruct (N.eqb_spec c Char.tab) as [->|H9].
    { cbn [app]. rewrite (parse_simple_escape 116 Char.tab) by (discriminate || reflexivity).
      now rewrite Htail. }
    destruct (N.eqb_spec c Char.newline) as [->|H10].
    { cbn [app]. rewrite (parse_simple_escape 110 Char.newline) by (discriminate || reflexivity).
      now rewrite Htail. }
    destruct (N.eqb_spec c 12) as [->|H12].
    { cbn [app]. rewrite (parse_simple_escape 102 12) by (discriminate || reflexivity).
      now rewrite Htail. }
    destruct (N.eqb_spec c Char.cr) as [->|H13].
    { cbn [app]. rewrite (parse_simple_escape 114 Char.cr) by (discriminate || reflexivity).
      now rewrite Htail. }
    destruct (N.eqb_spec c Char.quote) as [->|H34].
    { cbn [app]. rewrite (parse_simple_escape Char.quote Char.quote) by (discriminate || reflexivity).
      now rewrite Htail. }
    destruct (N.eqb_spec c Char.backslash) as [->|H92].
    { cbn [app]. rewrite (parse_simple_escape Char.backslash Char.backslash)
        by (discriminate || reflexivity).
      now rewrite Htail. }
    destruct (N.ltb_spec c 32) as [Hctl|Hge].
    { rewrite <- app_assoc, parse_unicode_escape by lia. now rewrite Htail. }
    unfold is_high_surrogate, is_low_surrogate.
    destruct ((55296 <=? c) && (c <=? 56319)) eqn:Hhi.
    { apply andb_true_iff in Hhi as [Hh1 Hh2]. apply N.leb_le in Hh1, Hh2.
      destruct s as [|d s].
      - rewrite parse_unicode_escape by lia. reflexivity.
      - destruct ((56320 <=? d) && (d <=? 57343)) eqn:Hlo.
        + apply andb_true_iff in Hlo as [Hl1 Hl2]. apply N.leb_le in Hl1, Hl2.
          cbn [app]. unfold Char.quote, Char.backslash in *.
          rewrite (parse_raw_char c), (parse_raw_char d) by (unfold Char.quote, Char.backslash; lia).
          rewrite IH by (simpl in Hlen; lia). reflexivity.
        + rewrite <- app_assoc, parse_unicode_escape by lia. now rewrite Htail. }
    destruct ((56320 <=? c) && (c <=? 57343)) eqn:Hlo.
    { apply andb_true_iff in Hlo as [Hl1 Hl2]. apply N.leb_le in Hl1, Hl2.
      rewrite <- app_assoc, parse_unicode_escape by lia. now rewrite Htail. }
    cbn [app]. rewrite parse_raw_char by assumption. now rewrite Htail.
Qed.

Lemma parse_quote_chars s rest :
  parse_string_body (quote_chars s ++ Char.quote :: rest) = Some (s, rest).
Proof. now apply (parse_quote_chars_bounded (length s)). Qed.

(** *** Facts: values *)

Lemma join_cons_cons sep (x y : jsstring) rest :
  join sep (x :: y :: rest) = x ++ sep ++ join sep (y :: rest).
Proof. reflexivity. Qed.

Lemma value_ind (P : value -> Prop)
  (Hnull : P JNull)
  (Hbool : forall b, P (JBool b))
  (Hnumber : forall n, P (JNumber n))
  (Hstring : forall s, P (JString s))
  (Harray : forall items, Forall P items -> P (JArray items))
  (Hobject : forall members, Forall (fun kv => P (snd kv)) members -> P (JObject members)) :
  forall v, P v.
Proof.
  fix IH 1. intros [| b | n | s | items | members].
  - exact Hnull.
  - apply Hbool.
  - apply Hnumber.
  - apply Hstring.
  - apply Harray. induction items as [|v items IHitems]; constructor; [apply IH | exact IHitems].
  - apply Hobject. induction members as [|kv members IHmembers]; constructor;
      [apply IH | exact IHmembers].
Qed.

Lemma parse_value_S fuel s :
  parse_value (S fuel) s =
  match skip_ws s with
  | [] => SyntaxError
  | c :: rest =>
      if c =? Char.quote then
        match parse_string_body rest with
        | Some (str, rest') => Parsed (JString str, rest')
        | None => SyntaxError
        end
      else if c =? Char.lbracket then
        match skip_ws rest with
        | d :: rest' =>
            if d =? Char.rbracket then Parsed (JArray [], rest')
            else match parse_elements fuel rest with
                 | Parsed (items, rest'') => Parsed (JArray items, rest'')
                 | SyntaxError => SyntaxError
                 | OutOfFuel => OutOfFuel
                 end
        | [] => SyntaxError
        end
      else if c =? Char.lbrace then
        match skip_ws rest with
        | d :: rest' =>
            if d =? Char.rbrace then Parsed (JObject [], rest')
            else match parse_members fuel rest with
                 | Parsed (members, rest'') => Parsed (JObject members, rest'')
                 | SyntaxError => SyntaxError
                 | OutOfFuel => OutOfFuel
                 end
        | [] => SyntaxError
        end
      else if c =? 116 then expect_literal "true" (JBool true) (c :: rest)
      else if c =? 102 then expect_literal "false" (JBool false) (c :: rest)
      else if c =? 110 then expect_literal "null" JNull (c :: rest)
      else match parse_number (c :: rest) with
           | Some (n, rest') => Parsed (JNumber n, rest')
           | None => SyntaxError
           end
  end.
Proof. reflexivity. Qed.

Lemma parse_elements_S fuel s :
  parse_elements (S fuel) s =
  match parse_value fuel s with
  | Parsed (v, rest) =>
      match skip_ws rest with
      | c :: rest' =>
          if c =? Char.comma then
            match parse_elements fuel rest' with
            | Parsed (vs, rest'') => Parsed (v :: vs, rest'')
            | SyntaxError => SyntaxError
            | OutOfFuel => OutOfFuel
            end
          else if c =? Char.rbracket then Parsed ([v], rest')
          else SyntaxError
      | [] => SyntaxError
      end
  | SyntaxError => SyntaxError
  | OutOfFuel => OutOfFuel
  end.
Proof. reflexivity. Qed.

Lemma parse_members_S fuel s :
  parse_members (S fuel) s =
  match skip_ws s with
  | q :: after_quote =>
      if q =? Char.quote then
        match parse_string_body after_quote with
        | Some (key, after_key) =>
            match skip_ws after_key with
            | colon :: after_colon =>
                if colon =? Char.colon then
                  match parse_value fuel after_colon with
                  | Parsed (v, rest) =>
                      match skip_ws rest with
                      | c :: rest' =>
                          if c =? Char.comma then
                            match parse_members fuel rest' with
                            | Parsed (ms, rest'') => Parsed ((key, v) :: ms, rest'')
                            | SyntaxError => SyntaxError
                            | OutOfFuel => OutOfFuel
                            end
                          else if c =? Char.rbrace then Parsed ([(key, v)], rest')
                          else SyntaxError
                      | [] => SyntaxError
                      end
                  | SyntaxError => SyntaxError
                  | OutOfFuel => OutOfFuel
                  end
                else SyntaxError
            | [] => SyntaxError
            end
        | None => SyntaxError
        end
      else SyntaxError
  | [] => SyntaxError
  end.
Proof. reflexivity. Qed.

Lemma skip_ws_idem s : skip_ws (skip_ws s) = skip_ws s.
Proof.
  induction s as [|c s IH]; [reflexivity|]. simpl.
  destruct (is_ws c) eqn:E; [exact IH|]. simpl. now rewrite E.
Qed.

(** Leading white space does not matter to [parse_value]. *)
Lemma parse_value_skip_ws fuel s : parse_value fuel (skip_ws s) = parse_value fuel s.
Proof.
  destruct fuel; [reflexivity|]. now rewrite !parse_value_S, skip_ws_idem.
Qed.

Lemma parse_value_newline_indent fuel depth s :
  parse_value fuel (newline_indent depth ++ s) = parse_value fuel s.
Proof.
  rewrite <- parse_value_skip_ws, skip_ws_newline_indent. apply parse_value_skip_ws.
Qed.

Lemma parse_value_space fuel s : parse_value fuel (Char.space :: s) = parse_value fuel s.
Proof. rewrite <- parse_value_skip_ws. simpl skip_ws. apply parse_value_skip_ws. Qed.

Lemma number_to_string_head n :
  exists c tl, number_to_string n = c :: tl /\ (c = Char.minus \/ 48 <= c <= 57).
Proof.
  unfold number_to_string, integer_to_string.
  destruct (chars_of_uint_head _ (to_uint_nonnil (Z.abs_N (mantissa n)))) as [c [tl [E Hc]]].
  rewrite E. destruct (mantissa n <? 0)%Z; simpl; eexists _, _; split; eauto.
Qed.

Lemma serialize_head depth v :
  exists c tl, serialize depth v = c :: tl /\ opens_value c.
Proof.
  unfold opens_value. destruct v as [| [|] | n | s | [|item items] | [|member members]];
    try (eexists _, _; split; [reflexivity | repeat split; discriminate]).
  destruct (number_to_string_head n) as [c [tl [E Hc]]].
  exists c, tl. split; [exact E|].
  unfold is_ws, Char.space, Char.tab, Char.newline, Char.cr, Char.rbracket, Char.rbrace, Char.minus in *.
  repeat split; try lia.
  destruct (N.eqb_spec c 32); [lia|]. destruct (N.eqb_spec c 9); [lia|].
  destruct (N.eqb_spec c 10); [lia|]. destruct (N.eqb_spec c 13); [lia|]. reflexivity.
Qed.

Lemma number_end_newline_indent depth s : number_end (newline_indent depth ++ s).
Proof. simpl. repeat split; discriminate. Qed.

Lemma number_end_comma s : number_end (Char.comma :: s).
Proof. simpl. repeat split; discriminate. Qed.

Lemma parse_number_value fuel n rest :
  number_end rest ->
  parse_value (S fuel) (number_to_string n ++ rest) = Parsed (JNumber n, rest).
Proof.
  intros Hend. rewrite parse_value_S.
  destruct (number_to_string_head n) as [c [tl [E Hc]]].
  pose proof (parse_number_to_string n rest Hend) as Hnum.
  rewrite E in *. cbn [app] in *.
  assert (Hws : is_ws c = false).
  { unfold is_ws, Char.space, Char.tab, Char.newline, Char.cr, Char.minus in *.
    destruct (N.eqb_spec c 32); [lia|]. destruct (N.eqb_spec c 9); [lia|].
    destruct (N.eqb_spec c 10); [lia|]. destruct (N.eqb_spec c 13); [lia|]. reflexivity. }
  rewrite skip_ws_head by exact Hws.
  unfold Char.quote, Char.lbracket, Char.lbrace, Char.minus in *.
  destruct (N.eqb_spec c 34); [lia|]. destruct (N.eqb_spec c 91); [lia|].
  destruct (N.eqb_spec c 123); [lia|]. destruct (N.eqb_spec c 116); [lia|].
  destruct (N.eqb_spec c 102); [lia|]. destruct (N.eqb_spec c 110); [lia|].
  now rewrite Hnum.
Qed.

Lemma skip_ws_serialize depth v tail :
  exists c tl, skip_ws (serialize depth v ++ tail) = c :: tl /\ opens_value c.
Proof.
  destruct (serialize_head depth v) as [c [tl [E Hc]]].
  exists c, (tl ++ tail). rewrite E. split; [|exact Hc].
  apply skip_ws_head. apply Hc.
Qed.

Lemma parse_elements_join items : forall depth fuel rest,
  items <> [] -> Forall roundtrips items ->
  (list_sum (List.map (fun item => S (need item)) items) <= fuel)%nat ->
  parse_elements fuel
    (newline_indent (S depth)
     ++ join (Char.comma :: newline_indent (S depth)) (List.map (serialize (S depth)) items)
     ++ newline_indent depth ++ Char.rbracket :: rest)
  = Parsed (items, rest).
Proof.
  induction items as [|v items IH]; intros depth fuel rest Hne Hall Hfuel; [congruence|].
  apply Forall_cons_iff in Hall as [Hv Hall].
  cbn [List.map list_sum] in Hfuel.
  destruct fuel as [|fuel]; [simpl in Hfuel; lia|].
  rewrite parse_elements_S, parse_value_newline_indent.
  destruct items as [|w items].
  - cbn [List.map join]. rewrite Hv by (try apply number_end_newline_indent; simpl in Hfuel; lia).
    rewrite skip_ws_newline_indent. simpl. reflexivity.
  - cbn [List.map join]. rewrite <- !app_assoc.
    rewrite Hv by (try apply number_end_comma; simpl in Hfuel; lia).
    cbn [app]. rewrite skip_ws_head by reflexivity.
    change (Char.comma =? Char.comma) with true. cbv iota.
    change (serialize (S depth) w :: List.map (serialize (S depth)) items)
      with (List.map (serialize (S depth)) (w :: items)).
    rewrite IH; [reflexivity | discriminate | exact Hall | simpl in *; lia].
Qed.

Lemma parse_members_join members : forall depth fuel rest,
  members <> [] -> Forall (fun kv => roundtrips (snd kv)) members ->
  (list_sum (List.map (fun kv => S (need (snd kv))) members) <= fuel)%nat ->
  parse_members fuel
    (newline_indent (S depth)
     ++ join (Char.comma :: newline_indent (S depth))
          (List.map (fun kv => quote_string (fst kv)
                               ++ Char.colon :: Char.space :: serialize (S depth) (snd kv))
                    members)
     ++ newline_indent depth ++ Char.rbrace :: rest)
  = Parsed (members, rest).
Proof.
  induction members as [|[k v] members IH]; intros depth fuel rest Hne Hall Hfuel; [congruence|].
  apply Forall_cons_iff in Hall as [Hv Hall]. cbn [snd fst] in Hv.
  cbn [List.map list_sum snd] in Hfuel.
  destruct fuel as [|fuel]; [simpl in Hfuel; lia|].
  rewrite parse_members_S, skip_ws_newline_indent.
  destruct members as [|m members].
  - cbn [List.map join fst snd]. unfold quote_string. cbn [app].
    rewrite skip_ws_head by reflexivity.
    change (Char.quote =? Char.quote) with true. cbv iota.
    rewrite <- !app_assoc. cbn [app]. rewrite parse_quote_chars.
    rewrite skip_ws_head by reflexivity.
    change (Char.colon =? Char.colon) with true. cbv iota.
    rewrite parse_value_space.
    rewrite Hv by (try apply number_end_newline_indent; simpl in Hfuel; lia).
    rewrite skip_ws_newline_indent. simpl. reflexivity.
  - change (List.map ?f ((k, v) :: m :: members))
      with (f (k, v) :: List.map f (m :: members)).
    change (join ?sep (?x :: List.map ?f (m :: members)))
      with (x ++ sep ++ join sep (List.map f (m :: members))).
    cbn [fst snd]. unfold quote_string at 1. cbn [app].
    rewrite skip_ws_head by reflexivity.
    change (Char.quote =? Char.quote) with true. cbv iota.
    rewrite <- !app_assoc. cbn [app]. rewrite parse_quote_chars.
    rewrite skip_ws_head by reflexivity.
    change (Char.colon =? Char.colon) with true. cbv iota.
    rewrite parse_value_space.
    rewrite Hv by (try apply number_end_comma; simpl in Hfuel; lia).
    rewrite skip_ws_head by reflexivity.
    change (Char.comma =? Char.comma) with true. cbv iota.
    rewrite <- !app_assoc.
    rewrite IH; [reflexivity | discriminate | exact Hall | simpl in *; lia].
Qed.

(** Every value reads back from its own text. *)
Lemma serialize_roundtrips v : roundtrips v.
Proof.
  induction v as [| b | n | s | items IH | members IH] using value_ind;
    intros depth fuel rest Hfuel Hend;
    (destruct fuel as [|fuel]; [simpl in Hfuel; lia|]).
  - reflexivity.
  - destruct b; reflexivity.
  - now apply parse_number_value.
  - rewrite parse_value_S. cbn [serialize]. unfold quote_string. cbn [app].
    rewrite skip_ws_head by reflexivity.
    change (Char.quote =? Char.quote) with true. cbv iota.
    rewrite <- app_assoc. cbn [app]. now rewrite parse_quote_chars.
  - destruct items as [|item items]; [reflexivity|].
    rewrite parse_value_S. cbn [serialize app].
    rewrite skip_ws_head by reflexivity.
    change (Char.lbracket =? Char.quote) with false.
    change (Char.lbracket =? Char.lbracket) with true. cbv iota.
    rewrite <- !app_assoc. cbn [app].
    rewrite parse_elements_join by (try discriminate; try assumption; simpl in *; lia).
    rewrite skip_ws_newline_indent.
    assert (Hopen : exists c tl,
      skip_ws (join (Char.comma :: newline_indent (S depth))
                 (List.map (serialize (S depth)) (item :: items))
               ++ newline_indent depth ++ Char.rbracket :: rest) = c :: tl /\ opens_value c).
    { destruct items as [|w items].
      - apply skip_ws_serialize.
      - cbn [List.map]. rewrite join_cons_cons, <- app_assoc. apply skip_ws_serialize. }
    destruct Hopen as [c [tl [-> [_ [Hc _]]]]].
    destruct (N.eqb_spec c Char.rbracket); [congruence|reflexivity].
  - destruct members as [|member members]; [reflexivity|].
    rewrite parse_value_S. cbn [serialize app].
    rewrite skip_ws_head by reflexivity.
    change (Char.lbrace =? Char.quote) with false.
    change (Char.lbrace =? Char.lbracket) with false.
    change (Char.lbrace =? Char.lbrace) with true. cbv iota.
    rewrite <- !app_assoc. cbn [app].
    rewrite parse_members_join by (try discriminate; try assumption; simpl in *; lia).
    rewrite skip_ws_newline_indent.
    assert (Hopen : exists tl,
      skip_ws (join (Char.comma :: newline_indent (S depth))
                 (List.map (fun kv => quote_string (fst kv)
                              ++ Char.colon :: Char.space :: serialize (S depth) (snd kv))
                    (member :: members))
               ++ newline_indent depth ++ Char.rbrace :: rest) = Char.quote :: tl).
    { destruct members as [|w members]; cbn [List.map]; rewrite ?join_cons_cons;
        unfold quote_string at 1; cbn [join app]; rewrite skip_ws_head by reflexivity; eauto. }
    destruct Hopen as [tl ->]. reflexivity.
Qed.

Lemma list_sum_cons x l : list_sum (x :: l) = (x + list_sum l)%nat.
Proof. reflexivity. Qed.

Lemma length_join_cons sep (p : jsstring) ps :
  length (join sep (p :: ps))
  = (length p + list_sum (List.map (fun q => length sep + length q) ps))%nat.
Proof.
  revert p. induction ps as [|q ps IH]; intros p; [simpl; lia|].
  rewrite join_cons_cons, !length_app, IH. simpl. lia.
Qed.

Lemma length_newline_indent depth : (1 <= length (newline_indent depth))%nat.
Proof. unfold newline_indent. simpl. lia. Qed.

(** The fuel a value takes is at most the length of its text. *)
Lemma need_le_length v : forall depth, (need v <= length (serialize depth v))%nat.
Proof.
  induction v as [| b | n | s | items IH | members IH] using value_ind; intros depth.
  - cbv. lia.
  - destruct b; cbv; lia.
  - destruct (number_to_string_head n) as [c [tl [E _]]]. cbn [need serialize].
    rewrite E. simpl. lia.
  - simpl. lia.
  - destruct items as [|item items]; [cbv; lia|].
    cbn [need serialize List.map]. cbn [length]. rewrite !length_app, length_join_cons.
    pose proof (length_newline_indent (S depth)) as H1.
    pose proof (length_newline_indent depth) as H2.
    apply Forall_cons_iff in IH as [Hitem IH]. specialize (Hitem (S depth)).
    assert (Hsum : (list_sum (List.map (fun v => S (need v)) items)
                    <= list_sum (List.map
                         (fun q => length (Char.comma :: newline_indent (S depth)) + length q)
                         (List.map (serialize (S depth)) items)))%nat).
    { induction IH as [|v vs Hv _ IHvs]; [simpl; lia|].
      specialize (Hv (S depth)). cbn [List.map length] in *.
      rewrite !list_sum_cons. lia. }
    cbn [length] in *. rewrite !list_sum_cons. lia.
  - destruct members as [|[k item] members]; [cbv; lia|].
    cbn [need serialize List.map fst snd]. cbn [length]. rewrite !length_app, length_join_cons.
    pose proof (length_newline_indent (S depth)) as H1.
    pose proof (length_newline_indent depth) as H2.
    apply Forall_cons_iff in IH as [Hitem IH]. cbn [snd] in Hitem. specialize (Hitem (S depth)).
    assert (Hsum : (list_sum (List.map (fun kv => S (need (snd kv))) members)
                    <= list_sum (List.map
                         (fun q => length (Char.comma :: newline_indent (S depth)) + length q)
                         (List.map (fun kv => quote_string (fst kv)
                                      ++ Char.colon :: Char.space :: serialize (S depth) (snd kv))
                            members)))%nat).
    { induction IH as [|kv kvs Hv _ IHvs]; [simpl; lia|].
      specialize (Hv (S depth)). cbn [List.map length] in *.
      rewrite !list_sum_cons, length_app. cbn [length]. lia. }
    rewrite length_app. cbn [length] in *. rewrite !list_sum_cons. lia.
Qed.

(** [JSON.parse] undoes [JSON.stringify]. *)
Lemma parse_stringify v : parse (stringify v) = Some v.
Proof.
  unfold parse, stringify.
  pose proof (serialize_roundtrips v 0%nat (2 * length (serialize 0 v) + 1)%nat []) as H.
  rewrite app_nil_r in H. rewrite H; [reflexivity | | exact I].
  pose proof (need_le_length v 0%nat). lia.
Qed.

(** *** Facts: the fuel of [parse] is never used up *)

Lemma skip_ws_length s : (length (skip_ws s) <= length s)%nat.
Proof.
  induction s as [|c s IH]; [reflexivity|]. simpl.
  destruct (is_ws c); simpl; lia.
Qed.

Lemma skip_ws_cons_length s c rest :
  skip_ws s = c :: rest -> (S (length rest) <= length s)%nat.
Proof. intros H. pose proof (skip_ws_length s) as L. rewrite H in L. exact L. Qed.

Lemma prepend_some c r str rest :
  prepend c r = Some (str, rest) -> exists str', r = Some (str', rest).
Proof. destruct r as [[str' rest']|]; [|discriminate]. intros [= _ ->]. eauto. Qed.

Lemma parse_string_body_length_bounded n : forall s str rest,
  (length s <= n)%nat ->
  parse_string_body s = Some (str, rest) -> (S (length rest) <= length s)%nat.
Proof.
  induction n as [|n IH]; intros s str rest Hn H.
  - destruct s; [discriminate | simpl in Hn; lia].
  - destruct s as [|c s]; [discriminate|]. cbn [parse_string_body] in H. simpl in Hn.
    destruct (c =? Char.quote); [injection H as _ ->; simpl; lia|].
    destruct (c =? Char.backslash).
    + destruct s as [|e s]; [discriminate|]. simpl in Hn.
      destruct (e =? 117).
      * destruct s as [|h1 [|h2 [|h3 [|h4 s]]]]; try discriminate.
        destruct (hex4 h1 h2 h3 h4); [|discriminate].
        apply prepend_some in H as [str' H]. apply IH in H; simpl in *; lia.
      * destruct (simple_escape e); [|discriminate].
        apply prepend_some in H as [str' H]. apply IH in H; simpl in *; lia.
    + destruct (c <? 32); [discriminate|].
      apply prepend_some in H as [str' H]. apply IH in H; simpl in *; lia.
Qed.

Lemma parse_string_body_length s str rest :
  parse_string_body s = Some (str, rest) -> (S (length rest) <= length s)%nat.
Proof. now apply (parse_string_body_length_bounded (length s)). Qed.

Lemma take_digits_length s d rest :
  take_digits s = (d, rest) -> (length rest + Decimal.nb_digits d = length s)%nat.
Proof.
  revert d rest. induction s as [|c s IH]; intros d rest H.
  - injection H as <- <-. reflexivity.
  - simpl in H. destruct (digit_char c) as [mk|] eqn:E.
    + destruct (take_digits s) as [ds rest'] eqn:T. injection H as <- <-.
      specialize (IH _ _ eq_refl).
      assert (Decimal.nb_digits (mk ds) = S (Decimal.nb_digits ds)).
      { unfold digit_char in E.
        repeat match type of E with
               | match ?x with _ => _ end = _ => destruct x; try discriminate
               end; injection E as <-; reflexivity. }
      simpl. lia.
    + injection H as <- <-. simpl. lia.
Qed.

Lemma take_fraction_length s frac rest :
  take_fraction s = Some (frac, rest) -> (length rest <= length s)%nat.
Proof.
  unfold take_fraction. destruct s as [|c s]; [intros [= _ <-]; lia|].
  destruct (c =? Char.dot).
  - destruct (take_digits s) as [f r] eqn:T. apply take_digits_length in T.
    destruct (is_nil f); [discriminate|]. intros [= _ <-]. simpl. lia.
  - intros [= _ <-]. lia.
Qed.

Lemma take_exponent_length s e rest :
  take_exponent s = Some (e, rest) -> (length rest <= length s)%nat.
Proof.
  unfold take_exponent. destruct s as [|c s]; [intros [= _ <-]; lia|].
  destruct ((c =? 101) || (c =? 69)); [|intros [= _ <-]; lia].
  destruct s as [|sgn s'].
  - simpl. discriminate.
  - destruct (sgn =? Char.minus); [|destruct (sgn =? Char.plus)];
      match goal with
      | |- context [take_digits ?x] =>
          destruct (take_digits x) as [ds r] eqn:T; apply take_digits_length in T
      end;
      (destruct (is_nil ds); [discriminate|]); intros [= _ <-]; simpl in *; lia.
Qed.

Lemma parse_number_length s n rest :
  parse_number s = Some (n, rest) -> (S (length rest) <= length s)%nat.
Proof.
  unfold parse_number.
  destruct (take_minus s) as [neg s1] eqn:M.
  assert (L1 : (length s1 <= length s)%nat).
  { unfold take_minus in M. destruct s as [|c s]; [injection M as _ <-; lia|].
    destruct (c =? Char.minus); injection M as _ <-; simpl; lia. }
  destruct (take_digits s1) as [d s2] eqn:T. apply take_digits_length in T.
  destruct (Decimal.uint_eq_dec (Decimal.unorm d) d) as [Hnorm|]; [|discriminate].
  assert (Decimal.nb_digits d <> 0)%nat.
  { intros H0. apply DecimalFacts.nb_digits_0 in H0. subst d. discriminate. }
  destruct (take_fraction s2) as [[frac s3]|] eqn:F; [|discriminate].
  apply take_fraction_length in F.
  destruct (take_exponent s3) as [[e s4]|] eqn:X; [|discriminate].
  apply take_exponent_length in X. intros [= _ <-]. lia.
Qed.

Lemma expect_literal_length lit v s v' rest :
  expect_literal lit v s = Parsed (v', rest) -> js lit <> [] ->
  (S (length rest) <= length s)%nat.
Proof.
  unfold expect_literal. destruct (startsWith s (js lit)) eqn:E; [|discriminate].
  intros [= _ <-] Hlit. rewrite length_drop.
  destruct (js lit) as [|a l]; [congruence|]. destruct s; [discriminate|]. simpl. lia.
Qed.

Ltac length_facts :=
  repeat match goal with
         | H : skip_ws _ = _ :: _ |- _ => apply skip_ws_cons_length in H
         | H : parse_string_body _ = Some _ |- _ => apply parse_string_body_length in H
         | H : parse_number _ = Some _ |- _ => apply parse_number_length in H
         | H : expect_literal _ _ _ = Parsed _ |- _ =>
             apply expect_literal_length in H; [|discriminate]
         end.

(** A successful parse consumes at least one character. *)
Lemma parse_consumes fuel :
  (forall s v rest, parse_value fuel s = Parsed (v, rest) -> (S (length rest) <= length s)%nat)
  /\ (forall s vs rest, parse_elements fuel s = Parsed (vs, rest) ->
        (S (length rest) <= length s)%nat)
  /\ (forall s ms rest, parse_members fuel s = Parsed (ms, rest) ->
        (S (length rest) <= length s)%nat).
Proof.
  induction fuel as [|fuel [IHv [IHe IHm]]]; [repeat split; discriminate|].
  repeat split; intros s.
  - intros v rest. rewrite parse_value_S.
    destruct (skip_ws s) as [|c tl] eqn:Hs; [discriminate|].
    destruct (c =? Char.quote).
    { destruct (parse_string_body tl) as [[str r]|] eqn:Hstr; [|discriminate].
      intros [= _ <-]. length_facts. simpl in *. lia. }
    destruct (c =? Char.lbracket).
    { destruct (skip_ws tl) as [|d tl'] eqn:Htl; [discriminate|].
      destruct (d =? Char.rbracket); [intros [= _ <-]; length_facts; simpl in *; lia|].
      destruct (parse_elements fuel tl) as [[items r]| |] eqn:He; try discriminate.
      intros [= _ <-]. apply IHe in He. length_facts. simpl in *. lia. }
    destruct (c =? Char.lbrace).
    { destruct (skip_ws tl) as [|d tl'] eqn:Htl; [discriminate|].
      destruct (d =? Char.rbrace); [intros [= _ <-]; length_facts; simpl in *; lia|].
      destruct (parse_members fuel tl) as [[members r]| |] eqn:Hm; try discriminate.
      intros [= _ <-]. apply IHm in Hm. length_facts. simpl in *. lia. }
    destruct (c =? 116); [intros H; length_facts; simpl in *; lia|].
    destruct (c =? 102); [intros H; length_facts; simpl in *; lia|].
    destruct (c =? 110); [intros H; length_facts; simpl in *; lia|].
    destruct (parse_number (c :: tl)) as [[n r]|] eqn:Hn; [|discriminate].
    intros [= _ <-]. length_facts. simpl in *. lia.
  - intros vs rest. rewrite parse_elements_S.
    destruct (parse_value fuel s) as [[v r]| |] eqn:Hv; try discriminate.
    apply IHv in Hv.
    destruct (skip_ws r) as [|c tl] eqn:Hr; [discriminate|].
    destruct (c =? Char.comma).
    { destruct (parse_elements fuel tl) as [[items r']| |] eqn:He; try discriminate.
      intros [= _ <-]. apply IHe in He. length_facts. simpl in *. lia. }
    destruct (c =? Char.rbracket); [|discriminate].
    intros [= _ <-]. length_facts. simpl in *. lia.
  - intros ms rest. rewrite parse_members_S.
    destruct (skip_ws s) as [|q tl] eqn:Hs; [discriminate|].
    destruct (q =? Char.quote); [|discriminate].
    destruct (parse_string_body tl) as [[key r]|] eqn:Hk; [|discriminate].
    destruct (skip_ws r) as [|colon r1] eqn:Hr; [discriminate|].
    destruct (colon =? Char.colon); [|discriminate].
    destruct (parse_value fuel r1) as [[v r2]| |] eqn:Hv; try discriminate.
    apply IHv in Hv.
    destruct (skip_ws r2) as [|c r3] eqn:Hr2; [discriminate|].
    destruct (c =? Char.comma).
    { destruct (parse_members fuel r3) as [[members r']| |] eqn:Hm; try discriminate.
      intros [= _ <-]. apply IHm in Hm. length_facts. simpl in *. lia. }
    destruct (c =? Char.rbrace); [|discriminate].
    intros [= _ <-]. length_facts. simpl in *. lia.
Qed.

Lemma parse_fuel_suffices fuel :
  (forall s, (2 * length s + 1 <= fuel)%nat -> parse_value fuel s <> OutOfFuel)
  /\ (forall s, (2 * length s + 2 <= fuel)%nat -> parse_elements fuel s <> OutOfFuel)
  /\ (forall s, (2 * length s + 2 <= fuel)%nat -> parse_members fuel s <> OutOfFuel).
Proof.
  induction fuel as [|fuel [IHv [IHe IHm]]]; [repeat split; intros s H; lia|].
  destruct (parse_consumes fuel) as [Cv [Ce Cm]].
  repeat split; intros s Hfuel.
  - rewrite parse_value_S.
    destruct (skip_ws s) as [|c tl] eqn:Hs; [discriminate|].
    destruct (c =? Char.quote).
    { destruct (parse_string_body tl) as [[str r]|]; discriminate. }
    destruct (c =? Char.lbracket).
    { destruct (skip_ws tl) as [|d tl'] eqn:Htl; [discriminate|].
      destruct (d =? Char.rbracket); [discriminate|].
      destruct (parse_elements fuel tl) as [[items r]| |] eqn:He; try discriminate.
      exfalso. apply (IHe tl); [|exact He]. length_facts. simpl in *. lia. }
    destruct (c =? Char.lbrace).
    { destruct (skip_ws tl) as [|d tl'] eqn:Htl; [discriminate|].
      destruct (d =? Char.rbrace); [discriminate|].
      destruct (parse_members fuel tl) as [[members r]| |] eqn:Hm; try discriminate.
      exfalso. apply (IHm tl); [|exact Hm]. length_facts. simpl in *. lia. }
    unfold expect_literal.
    destruct (c =? 116); [destruct (startsWith _ _); discriminate|].
    destruct (c =? 102); [destruct (startsWith _ _); discriminate|].
    destruct (c =? 110); [destruct (startsWith _ _); discriminate|].
    destruct (parse_number (c :: tl)) as [[n r]|]; discriminate.
  - rewrite parse_elements_S.
    destruct (parse_value fuel s) as [[v r]| |] eqn:Hv; try discriminate.
    + apply Cv in Hv.
      destruct (skip_ws r) as [|c tl] eqn:Hr; [discriminate|].
      destruct (c =? Char.comma).
      { destruct (parse_elements fuel tl) as [[items r']| |] eqn:He; try discriminate.
        exfalso. apply (IHe tl); [|exact He]. length_facts. simpl in *. lia. }
      destruct (c =? Char.rbracket); discriminate.
    + exfalso. apply (IHv s); [lia|exact Hv].
  - rewrite parse_members_S.
    destruct (skip_ws s) as [|q tl] eqn:Hs; [discriminate|].
    destruct (q =? Char.quote); [|discriminate].
    destruct (parse_string_body tl) as [[key r]|] eqn:Hk; [|discriminate].
    destruct (skip_ws r) as [|colon r1] eqn:Hr; [discriminate|].
    destruct (colon =? Char.colon); [|discriminate].
    destruct (parse_value fuel r1) as [[v r2]| |] eqn:Hv; try discriminate.
    + apply Cv in Hv.
      destruct (skip_ws r2) as [|c r3] eqn:Hr2; [discriminate|].
      destruct (c =? Char.comma).
      { destruct (parse_members fuel r3) as [[members r']| |] eqn:Hm; try discriminate.
        exfalso. apply (IHm r3); [|exact Hm]. length_facts. simpl in *. lia. }
      destruct (c =? Char.rbrace); discriminate.
    + exfalso. apply (IHv r1); [|exact Hv]. length_facts. simpl in *. lia.
Qed.

(** [parse] fails only on a syntax error, never for lack of fuel. *)
Lemma parse_never_out_of_fuel text :
  parse_value (2 * length text + 1) text <> OutOfFuel.
Proof. apply parse_fuel_suffices. lia. Qed.

(** *** Facts: writing without indentation *)

Lemma number_end_rbracket s : number_end (Char.rbracket :: s).
Proof. simpl. repeat split; discriminate. Qed.

Lemma number_end_rbrace s : number_end (Char.rbrace :: s).
Proof. simpl. repeat split; discriminate. Qed.

Lemma serialize_compact_head v :
  exists c tl, serialize_compact v = c :: tl /\ opens_value c.
Proof.
  unfold opens_value. destruct v as [| [|] | n | s | items | members];
    try (eexists _, _; split; [reflexivity | repeat split; discriminate]).
  destruct (number_to_string_head n) as [c [tl [E Hc]]].
  exists c, tl. split; [exact E|].
  unfold is_ws, Char.space, Char.tab, Char.newline, Char.cr, Char.rbracket, Char.rbrace, Char.minus in *.
  repeat split; try lia.
  destruct (N.eqb_spec c 32); [lia|]. destruct (N.eqb_spec c 9); [lia|].
  destruct (N.eqb_spec c 10); [lia|]. destruct (N.eqb_spec c 13); [lia|]. reflexivity.
Qed.

Lemma skip_ws_serialize_compact v tail :
  exists c tl, skip_ws (serialize_compact v ++ tail) = c :: tl /\ opens_value c.
Proof.
  destruct (serialize_compact_head v) as [c [tl [E Hc]]].
  exists c, (tl ++ tail). rewrite E. split; [|exact Hc].
  apply skip_ws_head. apply Hc.
Qed.

Lemma parse_elements_join_compact items : forall fuel rest,
  items <> [] -> Forall roundtrips_compact items ->
  (list_sum (List.map (fun item => S (need item)) items) <= fuel)%nat ->
  parse_elements fuel
    (join [Char.comma] (List.map serialize_compact items) ++ Char.rbracket :: rest)
  = Parsed (items, rest).
Proof.
  induction items as [|v items IH]; intros fuel rest Hne Hall Hfuel; [congruence|].
  apply Forall_cons_iff in Hall as [Hv Hall].
  cbn [List.map] in Hfuel. rewrite list_sum_cons in Hfuel.
  destruct fuel as [|fuel]; [lia|].
  rewrite parse_elements_S.
  destruct items as [|w items].
  - cbn [List.map join].
    rewrite Hv by (try apply number_end_rbracket; simpl in Hfuel; lia).
    rewrite skip_ws_head by reflexivity. reflexivity.
  - change (List.map serialize_compact (v :: w :: items))
      with (serialize_compact v :: List.map serialize_compact (w :: items)).
    change (join ?sep (?x :: List.map ?f (w :: items)))
      with (x ++ sep ++ join sep (List.map f (w :: items))).
    rewrite <- !app_assoc. cbn [app].
    rewrite Hv by (try apply number_end_comma; lia).
    rewrite skip_ws_head by reflexivity.
    change (Char.comma =? Char.comma) with true. cbv iota.
    rewrite IH; [reflexivity | discriminate | exact Hall | lia].
Qed.

Lemma parse_members_join_compact members : forall fuel rest,
  members <> [] -> Forall (fun kv => roundtrips_compact (snd kv)) members ->
  (list_sum (List.map (fun kv => S (need (snd kv))) members) <= fuel)%nat ->
  parse_members fuel
    (join [Char.comma]
       (List.map (fun kv => quote_string (fst kv) ++ Char.colon :: serialize_compact (snd kv))
          members)
     ++ Char.rbrace :: rest)
  = Parsed (members, rest).
Proof.
  induction members as [|[k v] members IH]; intros fuel rest Hne Hall Hfuel; [congruence|].
  apply Forall_cons_iff in Hall as [Hv Hall]. cbn [snd fst] in Hv.
  cbn [List.map snd] in Hfuel. rewrite list_sum_cons in Hfuel.
  destruct fuel as [|fuel]; [lia|].
  rewrite parse_members_S.
  destruct members as [|m members].
  - cbn [List.map join fst snd]. unfold quote_string. cbn [app].
    rewrite skip_ws_head by reflexivity.
    change (Char.quote =? Char.quote) with true. cbv iota.
    rewrite <- !app_assoc. cbn [app]. rewrite parse_quote_chars.
    rewrite skip_ws_head by reflexivity.
    change (Char.colon =? Char.colon) with true. cbv iota.
    rewrite Hv by (try apply number_end_rbrace; simpl in Hfuel; lia).
    rewrite skip_ws_head by reflexivity. reflexivity.
  - change (List.map ?f ((k, v) :: m :: members))
      with (f (k, v) :: List.map f (m :: members)).
    change (join ?sep (?x :: List.map ?f (m :: members)))
      with (x ++ sep ++ join sep (List.map f (m :: members))).
    cbn [fst snd]. unfold quote_string at 1. cbn [app].
    rewrite skip_ws_head by reflexivity.
    change (Char.quote =? Char.quote) with true. cbv iota.
    rewrite <- !app_assoc. cbn [app]. rewrite parse_quote_chars.
    rewrite skip_ws_head by reflexivity.
    change (Char.colon =? Char.colon) with true. cbv iota.
    rewrite Hv by (try apply number_end_comma; lia).
    rewrite skip_ws_head by reflexivity.
    change (Char.comma =? Char.comma) with true. cbv iota.
    rewrite IH; [reflexivity | discriminate | exact Hall | lia].
Qed.

Lemma serialize_compact_roundtrips v : roundtrips_compact v.
Proof.
  induction v as [| b | n | s | items IH | members IH] using value_ind;
    intros fuel rest Hfuel Hend;
    (destruct fuel as [|fuel]; [simpl in Hfuel; lia|]).
  - reflexivity.
  - destruct b; reflexivity.
  - now apply parse_number_value.
  - rewrite parse_value_S. cbn [serialize_compact]. unfold quote_string. cbn [app].
    rewrite skip_ws_head by reflexivity.
    change (Char.quote =? Char.quote) with true. cbv iota.
    rewrite <- app_assoc. cbn [app]. now rewrite parse_quote_chars.
  - destruct items as [|item items]; [reflexivity|].
    rewrite parse_value_S. cbn [serialize_compact app].
    rewrite skip_ws_head by reflexivity.
    change (Char.lbracket =? Char.quote) with false.
    change (Char.lbracket =? Char.lbracket) with true. cbv iota.
    rewrite <- !app_assoc. cbn [app].
    rewrite parse_elements_join_compact by (try discriminate; try assumption; simpl in *; lia).
    assert (Hopen : exists c tl,
      skip_ws (join [Char.comma] (List.map serialize_compact (item :: items))
               ++ Char.rbracket :: rest) = c :: tl /\ opens_value c).
    { destruct items as [|w items].
      - apply skip_ws_serialize_compact.
      - cbn [List.map]. rewrite join_cons_cons, <- app_assoc. apply skip_ws_serialize_compact. }
    destruct Hopen as [c [tl [-> [_ [Hc _]]]]].
    destruct (N.eqb_spec c Char.rbracket); [congruence|reflexivity].
  - destruct members as [|member members]; [reflexivity|].
    rewrite parse_value_S. cbn [serialize_compact app].
    rewrite skip_ws_head by reflexivity.
    change (Char.lbrace =? Char.quote) with false.
    change (Char.lbrace =? Char.lbracket) with false.
    change (Char.lbrace =? Char.lbrace) with true. cbv iota.
    rewrite <- !app_assoc. cbn [app].
    rewrite parse_members_join_compact by (try discriminate; try assumption; simpl in *; lia).
    assert (Hopen : exists tl,
      skip_ws (join [Char.comma]
                 (List.map (fun kv => quote_string (fst kv)
                              ++ Char.colon :: serialize_compact (snd kv))
                    (member :: members))
               ++ Char.rbrace :: rest) = Char.quote :: tl).
    { destruct members as [|w members]; cbn [List.map]; rewrite ?join_cons_cons;
        unfold quote_string at 1; cbn [join app]; rewrite skip_ws_head by reflexivity; eauto. }
    destruct Hopen as [tl ->]. reflexivity.
Qed.

Lemma need_le_length_compact v : (need v <= length (serialize_compact v))%nat.
Proof.
  induction v as [| b | n | s | items IH | members IH] using value_ind.
  - cbv. lia.
  - destruct b; cbv; lia.
  - destruct (number_to_string_head n) as [c [tl [E _]]]. cbn [need serialize_compact].
    rewrite E. simpl. lia.
  - simpl. lia.
  - destruct items as [|item items]; [cbv; lia|].
    cbn [need serialize_compact List.map]. cbn [length]. rewrite !length_app, length_join_cons.
    apply Forall_cons_iff in IH as [Hitem IH].
    assert (Hsum : (list_sum (List.map (fun v => S (need v)) items)
                    <= list_sum (List.map (fun q => length [Char.comma] + length q)
                                   (List.map serialize_compact items)))%nat).
    { induction IH as [|v vs Hv _ IHvs]; [simpl; lia|].
      cbn [List.map length] in *. rewrite !list_sum_cons. lia. }
    cbn [length] in *. rewrite !list_sum_cons. lia.
  - destruct members as [|[k item] members]; [cbv; lia|].
    cbn [need serialize_compact List.map fst snd]. cbn [length].
    rewrite !length_app, length_join_cons.
    apply Forall_cons_iff in IH as [Hitem IH]. cbn [snd] in Hitem.
    assert (Hsum : (list_sum (List.map (fun kv => S (need (snd kv))) members)
                    <= list_sum (List.map (fun q => length [Char.comma] + length q)
                         (List.map (fun kv => quote_string (fst kv)
                                      ++ Char.colon :: serialize_compact (snd kv))
                            members)))%nat).
    { induction IH as [|kv kvs Hv _ IHvs]; [simpl; lia|].
      cbn [List.map length] in *.
      rewrite !list_sum_cons, length_app. cbn [length]. lia. }
    rewrite length_app. cbn [length] in *. rewrite !list_sum_cons. lia.
Qed.

(** [JSON.parse] undoes [JSON.stringify] without indentation too. *)
Lemma parse_stringify_compact v : parse (stringify_compact v) = Some v.
Proof.
  unfold parse, stringify_compact.
  pose proof (serialize_compact_roundtrips v (2 * length (serialize_compact v) + 1)%nat []) as H.
  rewrite app_nil_r in H. rewrite H; [reflexivity | | exact I].
  pose proof (need_le_length_compact v). lia.
Qed.

(** *** Facts: written text survives the encoding of a file *)

Lemma stable_nil : stable [].
Proof. intros b. reflexivity. Qed.

Lemma stable_app a b : stable a -> stable b -> stable (a ++ b).
Proof. intros Ha Hb c. now rewrite <- !app_assoc, Ha, Hb. Qed.

Lemma not_surrogate c :
  c < 55296 -> is_high_surrogate c = false /\ is_low_surrogate c = false.
Proof.
  intros H. unfold is_high_surrogate, is_low_surrogate.
  destruct (N.leb_spec 55296 c); [lia|]. destruct (N.leb_spec 56320 c); [lia|]. now split.
Qed.

Lemma stable_cons c a :
  is_high_surrogate c = false -> is_low_surrogate c = false -> stable a -> stable (c :: a).
Proof. intros H1 H2 Ha b. cbn [app toWellFormed]. now rewrite H1, H2, Ha. Qed.

Lemma stable_pair c d a :
  is_high_surrogate c = true -> is_low_surrogate d = true -> stable a ->
  stable (c :: d :: a).
Proof. intros H1 H2 Ha b. cbn [app toWellFormed]. now rewrite H1, H2, Ha. Qed.

Lemma stable_plain a : Forall (fun c => c < 55296) a -> stable a.
Proof.
  induction 1 as [|c a Hc _ IH]; [apply stable_nil|].
  destruct (not_surrogate c Hc). now apply stable_cons.
Qed.

Lemma hex_char_small n : n < 16 -> hex_char n < 55296.
Proof. intros H. unfold hex_char. destruct (n <? 10); lia. Qed.

Lemma stable_unicode_escape c : c < 65536 -> stable (unicode_escape c).
Proof.
  intros H. apply stable_plain. unfold unicode_escape, Char.backslash.
  repeat constructor; try lia; apply hex_char_small;
    zify; Z.to_euclidean_division_equations; lia.
Qed.

Lemma stable_escape e a : e < 55296 -> stable a -> stable (Char.backslash :: e :: a).
Proof.
  intros He Ha. destruct (not_surrogate e He).
  apply stable_cons; [reflexivity..|]. now apply stable_cons.
Qed.

Lemma stable_quote_chars_bounded n : forall s, (length s <= n)%nat -> stable (quote_chars s).
Proof.
  induction n as [|n IH]; intros s Hlen.
  - destruct s; [apply stable_nil | simpl in Hlen; lia].
  - destruct s as [|c s]; [apply stable_nil|]. simpl in Hlen.
    assert (Htail : stable (quote_chars s)) by (apply IH; lia).
    cbn [quote_chars].
    destruct (c =? 8); [apply stable_escape; [reflexivity|exact Htail]|].
    destruct (c =? Char.tab); [apply stable_escape; [reflexivity|exact Htail]|].
    destruct (c =? Char.newline); [apply stable_escape; [reflexivity|exact Htail]|].
    destruct (c =? 12); [apply stable_escape; [reflexivity|exact Htail]|].
    destruct (c =? Char.cr); [apply stable_escape; [reflexivity|exact Htail]|].
    destruct (c =? Char.quote); [apply stable_escape; [reflexivity|exact Htail]|].
    destruct (c =? Char.backslash); [apply stable_escape; [reflexivity|exact Htail]|].
    destruct (N.ltb_spec c 32) as [Hctl|Hge].
    { apply stable_app; [apply stable_unicode_escape; lia | exact Htail]. }
    destruct (is_high_surrogate c) eqn:Hhi.
    { assert (c < 65536).
      { unfold is_high_surrogate in Hhi. apply andb_true_iff in Hhi as [_ H].
        apply N.leb_le in H. lia. }
      destruct s as [|d s]; [now apply stable_unicode_escape|].
      destruct (is_low_surrogate d) eqn:Hlo.
      - apply stable_pair; [assumption..|]. apply IH. simpl in Hlen. lia.
      - apply stable_app; [now apply stable_unicode_escape | exact Htail]. }
    destruct (is_low_surrogate c) eqn:Hlo.
    { assert (c < 65536).
      { unfold is_low_surrogate in Hlo. apply andb_true_iff in Hlo as [_ H].
        apply N.leb_le in H. lia. }
      apply stable_app; [now apply stable_unicode_escape | exact Htail]. }
    now apply stable_cons.
Qed.

Lemma stable_quote_string s : stable (quote_string s).
Proof.
  unfold quote_string. apply stable_cons; [reflexivity..|].
  apply stable_app; [apply (stable_quote_chars_bounded (length s)); lia|].
  apply stable_plain. repeat constructor.
Qed.

Lemma chars_of_uint_plain d : Forall (fun c => c < 55296) (chars_of_uint d).
Proof. induction d; simpl; constructor; try lia; assumption. Qed.

Lemma stable_integer z : stable (integer_to_string z).
Proof.
  unfold integer_to_string. apply stable_app.
  - destruct (z <? 0)%Z; apply stable_plain; repeat constructor.
  - apply stable_plain, chars_of_uint_plain.
Qed.

Lemma stable_number n : stable (number_to_string n).
Proof.
  unfold number_to_string. apply stable_app; [apply stable_integer|].
  destruct (exp10 n =? 0)%Z; [apply stable_nil|].
  apply stable_cons; [reflexivity..|]. apply stable_integer.
Qed.

Lemma stable_newline_indent depth : stable (newline_indent depth).
Proof.
  apply stable_plain. unfold newline_indent. constructor; [reflexivity|].
  induction (2 * depth)%nat; simpl; constructor; [reflexivity | assumption].
Qed.

Lemma stable_join sep pieces :
  stable sep -> Forall stable pieces -> stable (join sep pieces).
Proof.
  intros Hsep. induction 1 as [|p ps Hp Hps IH]; [apply stable_nil|].
  destruct ps as [|q ps]; [exact Hp|].
  rewrite join_cons_cons. apply stable_app; [exact Hp|]. now apply stable_app.
Qed.

Lemma stable_serialize v : forall depth, stable (serialize depth v).
Proof.
  induction v as [| b | n | s | items IH | members IH] using value_ind; intros depth.
  - apply stable_plain. repeat constructor.
  - destruct b; apply stable_plain; repeat constructor.
  - apply stable_number.
  - apply stable_quote_string.
  - destruct items as [|item items]; [apply stable_plain; repeat constructor|].
    cbn [serialize]. apply stable_cons; [reflexivity..|].
    apply stable_app; [apply stable_newline_indent|].
    apply stable_app; [|apply stable_app;
      [apply stable_newline_indent | apply stable_plain; repeat constructor]].
    apply stable_join.
    + apply stable_cons; [reflexivity..|]. apply stable_newline_indent.
    + apply Forall_map. eapply Forall_impl; [exact IH|]. intros v Hv. apply Hv.
  - destruct members as [|member members]; [apply stable_plain; repeat constructor|].
    cbn [serialize]. apply stable_cons; [reflexivity..|].
    apply stable_app; [apply stable_newline_indent|].
    apply stable_app; [|apply stable_app;
      [apply stable_newline_indent | apply stable_plain; repeat constructor]].
    apply stable_join.
    + apply stable_cons; [reflexivity..|]. apply stable_newline_indent.
    + apply Forall_map. eapply Forall_impl; [exact IH|]. intros kv Hkv. cbn beta.
      apply stable_app; [apply stable_quote_string|].
      apply stable_cons; [reflexivity..|]. apply stable_cons; [reflexivity..|]. apply Hkv.
Qed.

(** What [JSON.stringify] writes has no surrogate outside a pair. *)
Lemma toWellFormed_stringify v : toWellFormed (stringify v) = stringify v.
Proof.
  unfold stringify. pose proof (stable_serialize v 0%nat []) as H.
  rewrite !app_nil_r in H. exact H.
Qed.

End JSONFacts.

Module StorageFacts.
Import JSON JSONFacts Storage.

Lemma differs_from_RULES_VERSION_false parsed :
  differs_from_RULES_VERSION (get_field parsed (js "version")) = false <->
  has_current_version parsed.
Proof.
  unfold differs_from_RULES_VERSION, has_current_version.
  destruct (get_field parsed (js "version")) as [[| | n | | |]|]; split;
    try discriminate; try (intros [m [[=] _]]; fail).
  - intros H. exists n. split; [reflexivity|]. now apply negb_false_iff.
  - intros [m [[= <-] H]]. now apply negb_false_iff.
Qed.

Lemma rules_of_some parsed rules :
  rules_of parsed = Some rules <-> has_rules_array parsed rules.
Proof.
  unfold rules_of, has_rules_array.
  destruct (get_field parsed (js "rules")) as [[| | | | items |]|]; split;
    try discriminate; intros [= ->]; reflexivity.
Qed.

Lemma get_field_object parsed key v :
  get_field parsed key = Some v -> exists members, parsed = JObject members.
Proof. destruct parsed; try discriminate. eauto. Qed.

Lemma accepted_payload parsed rules :
  (if falsy parsed
      || differs_from_RULES_VERSION (get_field parsed (js "version"))
      || negb (isArray (get_field parsed (js "rules")))
   then None else rules_of parsed) = Some rules <->
  has_current_version parsed /\ has_rules_array parsed rules.
Proof.
  split.
  - destruct (falsy parsed); [discriminate|].
    destruct (differs_from_RULES_VERSION _) eqn:V; [discriminate|].
    destruct (isArray _); [|discriminate]. simpl.
    intros H. split; [now apply differs_from_RULES_VERSION_false | now apply rules_of_some].
  - intros [Hv Hr].
    destruct (get_field_object _ _ _ Hr) as [members ->]. cbn [falsy orb].
    apply differs_from_RULES_VERSION_false in Hv. rewrite Hv.
    pose proof Hr as Hr'. unfold has_rules_array in Hr'. rewrite Hr'. simpl.
    now apply rules_of_some.
Qed.

Lemma parseRulesFile_some text rules :
  parseRulesFile text = Some rules <-> usable text rules.
Proof.
  unfold parseRulesFile, usable. destruct (JSON.parse text) as [parsed|].
  - rewrite accepted_payload. split.
    + intros H. now exists parsed.
    + intros [p [[= <-] H]]. exact H.
  - split; [discriminate | intros [p [[=] _]]].
Qed.

Lemma parse_empty : JSON.parse [] = None.
Proof. reflexivity. Qed.

Lemma loadRulesFromStorage_some localStorage rules :
  loadRulesFromStorage localStorage = Some rules <->
  exists text, localStorage !! STORAGE_KEY = Some text /\ usable text rules.
Proof.
  unfold loadRulesFromStorage. destruct (localStorage !! STORAGE_KEY) as [raw|].
  2: { split; [discriminate | intros [t [[=] _]]]. }
  destruct raw as [|c raw].
  { split; [discriminate|]. intros [t [[= <-] [p [Hp _]]]]. rewrite parse_empty in Hp.
    discriminate. }
  unfold usable. destruct (JSON.parse (c :: raw)) as [parsed|] eqn:P.
  2: { split; [discriminate|]. intros [t [[= <-] [p [Hp _]]]]. congruence. }
  assert (Hcore : (if typeof_not_object parsed
                      || match parsed with JNull => true | _ => false end
                   then None
                   else if differs_from_RULES_VERSION (get_field parsed (js "version")) then None
                   else if negb (isArray (get_field parsed (js "rules"))) then None
                   else rules_of parsed) = Some rules <->
                  has_current_version parsed /\ has_rules_array parsed rules).
  { rewrite <- accepted_payload.
    destruct parsed as [| [|] | n | [|] | |]; cbn [typeof_not_object falsy orb get_field
      differs_from_RULES_VERSION isArray negb]; try tauto.
    - rewrite !orb_true_r. tauto.
    - destruct (differs_from_RULES_VERSION _); [tauto|].
      destruct (isArray _); simpl; tauto. }
  rewrite Hcore. split.
  - intros H. exists (c :: raw). split; [reflexivity|]. exists parsed. now split.
  - intros [t [[= <-] [p [Hp H]]]]. rewrite P in Hp. injection Hp as <-. exact H.
Qed.

Lemma unusable_not_usable text rules : unusable text -> ~ usable text rules.
Proof.
  intros [Hnone | [parsed [Hp [Hv | Hr]]]] [p [Hp' [Hv' Hr']]].
  - congruence.
  - rewrite Hp in Hp'. injection Hp' as <-. contradiction.
  - rewrite Hp in Hp'. injection Hp' as <-. apply Hr. eauto.
Qed.

(** C5. A stored payload that is not valid JSON, or whose version is not the
    current one, or whose rules field is not an array, gives [null] from both
    [parseRulesFile] and [loadRulesFromStorage]; and whatever either of them
    returns is exactly the rules array of a payload of the current version. *)
Theorem unusable_payload_gives_null text localStorage :
  localStorage !! STORAGE_KEY = Some text ->
  (unusable text ->
     parseRulesFile text = None /\ loadRulesFromStorage localStorage = None)
  /\ (forall rules,
        parseRulesFile text = Some rules \/ loadRulesFromStorage localStorage = Some rules ->
        usable text rules).
Proof.
  intros Hstored. split.
  - intros Hbad. split.
    + destruct (parseRulesFile text) as [rules|] eqn:E; [|reflexivity].
      apply parseRulesFile_some in E. now apply unusable_not_usable in E.
    + destruct (loadRulesFromStorage localStorage) as [rules|] eqn:E; [|reflexivity].
      apply loadRulesFromStorage_some in E as [t [Ht E]].
      rewrite Hstored in Ht. injection Ht as <-. now apply unusable_not_usable in E.
  - intros rules [H | H].
    + now apply parseRulesFile_some.
    + apply loadRulesFromStorage_some in H as [t [Ht H]].
      rewrite Hstored in Ht. now injection Ht as <-.
Qed.

(** *** Round trip of the rules file *)

Lemma rule_of_value_of_rule r : rule_of_value (value_of_rule r) = Some r.
Proof. destruct r. reflexivity. Qed.

Lemma payload_has_current_version rules : has_current_version (rules_payload rules).
Proof. exists RULES_VERSION. split; reflexivity. Qed.

Lemma payload_has_rules_array rules :
  has_rules_array (rules_payload rules) (List.map value_of_rule rules).
Proof. reflexivity. Qed.

(** C9. Parsing with [parseRulesFile] the text that [serializeRules] writes
    for a list of rules returns that list: the same rule objects, each
    reading back as the rule it was written from. *)
Theorem parse_serialize_rules rules :
  parseRulesFile (serializeRules rules) = Some (List.map value_of_rule rules)
  /\ List.map rule_of_value (List.map value_of_rule rules) = List.map Some rules.
Proof.
  split.
  - apply parseRulesFile_some. exists (rules_payload rules). split; [|split].
    + apply parse_stringify.
    + apply payload_has_current_version.
    + apply payload_has_rules_array.
  - rewrite List.map_map. apply List.map_ext. apply rule_of_value_of_rule.
Qed.

(** A payload without a version: both readers give [null]. *)
Lemma unusable_payload_witness :
  parseRulesFile (js "{}") = None
  /\ loadRulesFromStorage {[ STORAGE_KEY := js "{}" ]} = None.
Proof.
  apply (proj1 (unusable_payload_gives_null (js "{}") {[ STORAGE_KEY := js "{}" ]}
                  (lookup_singleton_eq STORAGE_KEY (js "{}")))).
  right. exists (JObject []). split; [vm_compute; reflexivity|].
  left. intros [n [H _]]. vm_compute in H. discriminate.
Defined.

Example truncated_text_is_no_rules : parseRulesFile (js "[1, 2") = None.
Proof. vm_compute. reflexivity. Qed.

Example other_version_is_no_rules :
  parseRulesFile
    (JSON.stringify (JObject [(js "version", JNumber {| mantissa := 2; exp10 := 0 |});
                              (js "rules", JArray [])])) = None.
Proof. vm_compute. reflexivity. Qed.

Example rules_not_an_array :
  parseRulesFile
    (JSON.stringify (JObject [(js "version", JNumber RULES_VERSION);
                              (js "rules", JString (js "none"))])) = None.
Proof. vm_compute. reflexivity. Qed.

Example one_rule_round_trip :
  let rule := {| id := js "a1"; command := js ".sig";
                 replacementText := js "Best," ++ [Char.newline] ++ js "Name";
                 createdAt := js "2025-08-09"; updatedAt := js "2025-08-13" |} in
  option_map (List.map rule_of_value) (parseRulesFile (serializeRules [rule]))
  = Some [Some rule].
Proof. vm_compute. reflexivity. Qed.

(** *** The other readers and writers *)

Lemma parseRulesFile_payload text (rules : list ExpansionRule) :
  JSON.parse text = Some (rules_payload rules) ->
  parseRulesFile text = Some (List.map value_of_rule rules).
Proof.
  intros H. apply parseRulesFile_some. exists (rules_payload rules).
  split; [exact H|]. split; [apply payload_has_current_version | apply payload_has_rules_array].
Qed.

Lemma option_ext {A} (a b : option A) :
  (forall x, a = Some x <-> b = Some x) -> a = b.
Proof.
  intros H. destruct a as [x|], b as [y|]; try reflexivity.
  - now apply H.
  - symmetry. now apply H.
  - now apply H.
Qed.

Lemma loadRulesFromDisk_text disk text :
  disk !! RULES_PATH = Some (TextFile text) ->
  loadRulesFromDisk disk = parseRulesFile text.
Proof.
  intros H. unfold loadRulesFromDisk, parseRulesFile. rewrite H.
  destruct (JSON.parse text) as [parsed|]; [|reflexivity].
  destruct parsed as [| [|] | n | [|] | |]; cbn [falsy get_field differs_from_RULES_VERSION orb];
    try reflexivity.
  now rewrite orb_true_r.
Qed.

(** The three readers of storage.ts accept the same payloads and return the
    same rules: [loadRulesFromStorage] and [loadRulesFromDisk], whose guards
    are written differently, give what [parseRulesFile] gives on the stored
    text, and [null] when nothing is stored or the file cannot be read. *)
Theorem readers_agree (localStorage : gmap jsstring jsstring) (disk : gmap jsstring file) :
  loadRulesFromStorage localStorage
  = match localStorage !! STORAGE_KEY with
    | Some text => parseRulesFile text
    | None => None
    end
  /\ loadRulesFromDisk disk
     = match disk !! RULES_PATH with
       | Some (TextFile text) => parseRulesFile text
       | Some Unreadable => None
       | None => None
       end.
Proof.
  split.
  - apply option_ext. intros rules. rewrite loadRulesFromStorage_some.
    destruct (localStorage !! STORAGE_KEY) as [text|].
    + rewrite parseRulesFile_some. split.
      * now intros [t [[= <-] H]].
      * intros H. now exists text.
    + split; [intros [t [[=] _]] | discriminate].
  - destruct (disk !! RULES_PATH) as [[text|]|] eqn:E.
    + now apply loadRulesFromDisk_text.
    + unfold loadRulesFromDisk. now rewrite E.
    + unfold loadRulesFromDisk. now rewrite E.
Qed.

(** What [saveRulesToStorage] stores, [loadRulesFromStorage] reads back as
    the same rules, whatever else the storage holds. *)
Theorem storage_round_trip (rules : list ExpansionRule) (localStorage : gmap jsstring jsstring) :
  loadRulesFromStorage (saveRulesToStorage rules localStorage)
  = Some (List.map value_of_rule rules)
  /\ List.map rule_of_value (List.map value_of_rule rules) = List.map Some rules.
Proof.
  split.
  - apply loadRulesFromStorage_some. unfold saveRulesToStorage.
    eexists. split; [apply lookup_insert_eq|].
    apply parseRulesFile_some. apply parseRulesFile_payload. apply parse_stringify_compact.
  - rewrite List.map_map. apply List.map_ext. apply rule_of_value_of_rule.
Qed.

(** What [saveRulesToDisk] writes, [loadRulesFromDisk] reads back as the
    same rules: the text survives the encoding of the file. *)
Theorem disk_round_trip (rules : list ExpansionRule) (disk : gmap jsstring file) :
  loadRulesFromDisk (saveRulesToDisk rules disk) = Some (List.map value_of_rule rules)
  /\ List.map rule_of_value (List.map value_of_rule rules) = List.map Some rules.
Proof.
  split.
  - unfold saveRulesToDisk. erewrite loadRulesFromDisk_text by apply lookup_insert_eq.
    rewrite toWellFormed_stringify. apply parseRulesFile_payload. apply parse_stringify.
  - rewrite List.map_map. apply List.map_ext. apply rule_of_value_of_rule.
Qed.

Section ConflictScan.
Variable toLowerCase : jsstring -> jsstring.

Lemma in_existing_set existingRules c :
  toLowerCase c ∈ (list_to_set (List.map (fun r => toLowerCase (command r)) existingRules)
                     : gset jsstring)
  <-> exists r, In r existingRules /\ toLowerCase (command r) = toLowerCase c.
Proof.
  rewrite elem_of_list_to_set, list_elem_of_In, List.in_map_iff.
  split; intros [r [H1 H2]]; exists r; now split.
Qed.

Lemma some_conflict_true existingRules rules :
  some_conflict toLowerCase
    (list_to_set (List.map (fun r => toLowerCase (command r)) existingRules)) rules = Some true ->
  Exists (clashes toLowerCase existingRules) rules.
Proof.
  induction rules as [|rule rules IH]; [discriminate|]. cbn [some_conflict].
  destruct (command_string rule) as [c|] eqn:E; [|discriminate].
  destruct (bool_decide _) eqn:B.
  - intros _. apply Exists_cons_hd. apply bool_decide_eq_true in B.
    apply in_existing_set in B as [r [Hr Heq]]. now exists c, r.
  - intros H. apply Exists_cons_tl. now apply IH.
Qed.

Lemma some_conflict_false existingRules rules :
  some_conflict toLowerCase
    (list_to_set (List.map (fun r => toLowerCase (command r)) existingRules)) rules = Some false ->
  Forall (fun rule => command_string rule <> None /\ ~ clashes toLowerCase existingRules rule) rules.
Proof.
  induction rules as [|rule rules IH]; [constructor|]. cbn [some_conflict].
  destruct (command_string rule) as [c|] eqn:E; [|discriminate].
  destruct (bool_decide _) eqn:B; [discriminate|].
  intros H. constructor; [|now apply IH]. split; [now rewrite E|].
  intros [c' [r [Hc [Hr Heq]]]]. rewrite E in Hc. injection Hc as <-.
  apply bool_decide_eq_false in B. apply B. apply in_existing_set. eauto.
Qed.

Lemma some_conflict_none existingRules before rule after :
  Forall (fun v => command_string v <> None /\ ~ clashes toLowerCase existingRules v) before ->
  command_string rule = None ->
  some_conflict toLowerCase
    (list_to_set (List.map (fun r => toLowerCase (command r)) existingRules))
    (before ++ rule :: after) = None.
Proof.
  intros Hbefore Hrule. induction Hbefore as [|v before [Hv Hclash] _ IH].
  - cbn. now rewrite Hrule.
  - cbn [app some_conflict]. destruct (command_string v) as [c|] eqn:E; [|congruence].
    destruct (bool_decide _) eqn:B; [|exact IH].
    exfalso. apply Hclash. apply bool_decide_eq_true in B.
    apply in_existing_set in B as [r [Hr Heq]]. now exists c, r.
Qed.

(** Whenever [parseRulesFileWithConflicts] returns a result, its rules are
    exactly what [parseRulesFile] returns for the text, and [hasConflicts]
    says whether one of them has a command that equals, without regard to
    case, the command of an existing rule; when it does not, every rule of
    the file has a string as its command. *)
Theorem parseRulesFileWithConflicts_result text existingRules result :
  parseRulesFileWithConflicts toLowerCase text existingRules = Some result ->
  parseRulesFile text = Some (importedRules result)
  /\ (hasConflicts result = true <-> Exists (clashes toLowerCase existingRules) (importedRules result))
  /\ (hasConflicts result = false ->
        Forall (fun rule => command_string rule <> None) (importedRules result)).
Proof.
  unfold parseRulesFileWithConflicts, parseRulesFile.
  destruct (JSON.parse text) as [parsed|]; [|discriminate].
  destruct (_ || _); [discriminate|].
  destruct (rules_of parsed) as [rules|]; [|discriminate].
  destruct (some_conflict _ _ rules) as [[|]|] eqn:S; [| |discriminate];
    intros [= <-]; cbn [importedRules hasConflicts].
  - split; [reflexivity|]. split; [|discriminate].
    split; [intros _; now apply some_conflict_true | reflexivity].
  - apply some_conflict_false in S. split; [reflexivity|]. split.
    + split; [discriminate|]. intros Hex. exfalso.
      apply List.Exists_exists in Hex as [rule [Hin Hclash]].
      rewrite List.Forall_forall in S. now apply (S rule Hin).
    + intros _. eapply Forall_impl; [exact S|]. now intros rule [H _].
Qed.

(** [parseRulesFileWithConflicts] returns [null] wherever [parseRulesFile]
    does, and also for a file that [parseRulesFile] accepts when a rule
    without a string command comes before any clash. *)
Theorem parseRulesFileWithConflicts_null text existingRules :
  (parseRulesFile text = None ->
     parseRulesFileWithConflicts toLowerCase text existingRules = None)
  /\ (forall before rule after,
        parseRulesFile text = Some (before ++ rule :: after) ->
        Forall (fun v => command_string v <> None /\ ~ clashes toLowerCase existingRules v) before ->
        command_string rule = None ->
        parseRulesFileWithConflicts toLowerCase text existingRules = None).
Proof.
  unfold parseRulesFileWithConflicts, parseRulesFile.
  destruct (JSON.parse text) as [parsed|]; [|split; [reflexivity | discriminate]].
  destruct (_ || _); [split; [reflexivity | discriminate]|].
  destruct (rules_of parsed) as [rules|]; [|split; [reflexivity | discriminate]].
  split; [discriminate|].
  intros before rule after [= ->] Hbefore Hrule.
  now rewrite some_conflict_none.
Qed.

End ConflictScan.

Lemma parseRulesFileWithConflicts_null_witness :
  parseRulesFile null_rule_file = Some [JNull]
  /\ parseRulesFileWithConflicts ascii_toLowerCase null_rule_file [] = None.
Proof.
  split; [vm_compute; reflexivity|].
  apply (proj2 (parseRulesFileWithConflicts_null ascii_toLowerCase null_rule_file [])
           [] JNull []).
  - vm_compute. reflexivity.
  - constructor.
  - reflexivity.
Defined.

Lemma parseRulesFileWithConflicts_result_witness :
  parseRulesFile (serializeRules [sig_rule]) = Some [value_of_rule sig_rule]
  /\ Exists (clashes ascii_toLowerCase [SIG_rule]) [value_of_rule sig_rule].
Proof.
  pose proof (parseRulesFileWithConflicts_result ascii_toLowerCase
                (serializeRules [sig_rule]) [SIG_rule]
                {| importedRules := [value_of_rule sig_rule]; hasConflicts := true |}) as H.
  destruct H as [H1 [H2 _]]; [vm_compute; reflexivity|].
  split; [exact H1|]. apply H2. reflexivity.
Defined.

End StorageFacts.

Module ConflictUtilsFacts.
Import ConflictUtils.

(** *** Facts about the suggestions *)

Lemma elem_of_insert_sorted x s sorted :
  x ∈ insert_sorted s sorted <-> x = s \/ x ∈ sorted.
Proof.
  induction sorted as [|h t IH]; simpl.
  - rewrite list_elem_of_singleton. split; [now left|].
    intros [H | H]; [exact H | inversion H].
  - destruct (string_ltb s h).
    + rewrite elem_of_cons. reflexivity.
    + rewrite !elem_of_cons, IH. tauto.
Qed.

(** Sorting keeps the elements. *)
Lemma elem_of_sort x xs : x ∈ sort xs <-> x ∈ xs.
Proof.
  unfold sort. induction xs as [|y ys IH]; simpl; [reflexivity|].
  rewrite elem_of_insert_sorted, elem_of_cons, IH. reflexivity.
Qed.

(** *** Facts about sorting *)

Lemma string_ltb_irrefl a : string_ltb a a = false.
Proof.
  induction a as [|x a IH]; [reflexivity|]. cbn [string_ltb].
  now rewrite N.ltb_irrefl, N.eqb_refl, IH.
Qed.

Lemma string_ltb_cons x a y b :
  string_ltb (x :: a) (y :: b) = true <-> x < y \/ (x = y /\ string_ltb a b = true).
Proof.
  cbn [string_ltb]. rewrite orb_true_iff, andb_true_iff, N.ltb_lt, N.eqb_eq. reflexivity.
Qed.

Lemma string_ltb_trans a : forall b c,
  string_ltb a b = true -> string_ltb b c = true -> string_ltb a c = true.
Proof.
  induction a as [|x a IH]; intros [|y b] [|z c]; try discriminate; try reflexivity.
  rewrite !string_ltb_cons. intros [H1 | [-> H1]] [H2 | [-> H2]].
  - left. lia.
  - now left.
  - now left.
  - right. split; [reflexivity|]. now apply (IH b c).
Qed.

Lemma string_ltb_asym a : forall b, string_ltb a b = true -> string_ltb b a = false.
Proof.
  intros b H. destruct (string_ltb b a) eqn:E; [|reflexivity].
  pose proof (string_ltb_trans _ _ _ H E) as Haa. now rewrite string_ltb_irrefl in Haa.
Qed.

Lemma string_ltb_total a : forall b,
  string_ltb a b = false -> string_ltb b a = false -> a = b.
Proof.
  induction a as [|x a IH]; intros [|y b]; try discriminate; [reflexivity|].
  intros H1 H2. apply not_true_iff_false in H1, H2. rewrite string_ltb_cons in H1, H2.
  assert (x = y) as -> by lia. f_equal. apply IH; apply not_true_iff_false; intros H.
  - apply H1. now right.
  - apply H2. now right.
Qed.

Lemma string_ltb_le_trans a b c :
  string_ltb a b = true -> string_le b c -> string_ltb a c = true.
Proof.
  unfold string_le. intros H1 H2. destruct (string_ltb b c) eqn:E.
  - now apply (string_ltb_trans a b c).
  - now rewrite <- (string_ltb_total b c E H2).
Qed.

#[local] Instance string_le_trans : Transitive string_le.
Proof.
  intros a b c Hab Hbc. unfold string_le in *.
  destruct (string_ltb c a) eqn:E; [|reflexivity].
  pose proof (string_ltb_le_trans c a b E Hab) as H. congruence.
Qed.

#[local] Instance string_le_antisym : AntiSymm (=) string_le.
Proof. intros a b Hab Hba. now apply string_ltb_total. Qed.

Lemma HdRel_insert_sorted h s t :
  HdRel string_le h t -> string_le h s -> HdRel string_le h (insert_sorted s t).
Proof.
  intros Ht Hs. destruct t as [|x t]; cbn [insert_sorted]; [now constructor|].
  destruct (string_ltb s x); constructor; [exact Hs|]. now inversion Ht.
Qed.

Lemma insert_sorted_Sorted s sorted :
  Sorted string_le sorted -> Sorted string_le (insert_sorted s sorted).
Proof.
  induction 1 as [|h t Hsorted IH Hhd]; cbn [insert_sorted]; [repeat constructor|].
  destruct (string_ltb s h) eqn:E.
  - constructor; [now constructor|]. constructor. now apply string_ltb_asym.
  - constructor; [exact IH|]. now apply HdRel_insert_sorted.
Qed.

Lemma sort_Sorted xs : Sorted string_le (sort xs).
Proof.
  unfold sort. induction xs as [|x xs IH]; cbn [fold_right]; [constructor|].
  now apply insert_sorted_Sorted.
Qed.

Lemma insert_sorted_Permutation s sorted : insert_sorted s sorted ≡ₚ s :: sorted.
Proof.
  induction sorted as [|h t IH]; cbn [insert_sorted]; [reflexivity|].
  destruct (string_ltb s h); [reflexivity|]. rewrite IH. apply perm_swap.
Qed.

Lemma sort_Permutation xs : sort xs ≡ₚ xs.
Proof.
  unfold sort. induction xs as [|x xs IH]; cbn [fold_right]; [reflexivity|].
  now rewrite insert_sorted_Permutation, IH.
Qed.

(** The sorted array depends on the commands only, not on their order. *)
Lemma sort_of_Permutation xs ys : xs ≡ₚ ys -> sort xs = sort ys.
Proof.
  intros H. apply (Sorted_unique string_le); [apply sort_Sorted | apply sort_Sorted |].
  now rewrite !sort_Permutation.
Qed.

Section SuggestionFacts.
Variable toLowerCase : jsstring -> jsstring.

Lemma collected_nil existingSet : collected toLowerCase existingSet [].
Proof.
  constructor; [simpl; lia | constructor | |]; intros s H; inversion H.
Qed.

Lemma addSuggestion_collected existingSet rest suggestions :
  collected toLowerCase existingSet suggestions ->
  collected toLowerCase existingSet (addSuggestion toLowerCase existingSet (Char.dot :: rest) suggestions).
Proof.
  intros [Hlen Hnodup Hdot Hunused]. unfold addSuggestion.
  destruct (bool_decide (toLowerCase (Char.dot :: rest) ∈ existingSet)) eqn:E1;
    [now constructor|].
  destruct (N.ltb_spec (N.of_nat (length suggestions)) 5); [|now constructor].
  destruct (bool_decide (Char.dot :: rest ∈ suggestions)) eqn:E3; [now constructor|].
  apply bool_decide_eq_false in E1, E3. cbn [negb andb]. constructor.
  - rewrite length_app. simpl. lia.
  - apply NoDup_app. repeat split; [assumption | | apply NoDup_singleton].
    intros x Hx Hx'. apply list_elem_of_singleton in Hx'. now subst.
  - intros s Hs. apply elem_of_app in Hs as [Hs | Hs]; [now apply Hdot|].
    apply list_elem_of_singleton in Hs. eauto.
  - intros s Hs. apply elem_of_app in Hs as [Hs | Hs]; [now apply Hunused|].
    apply list_elem_of_singleton in Hs. now subst.
Qed.

Lemma add_long_enough_collected existingSet rest suggestions :
  collected toLowerCase existingSet suggestions ->
  collected toLowerCase existingSet
    (add_long_enough toLowerCase existingSet suggestions (Char.dot :: rest)).
Proof.
  intros H. unfold add_long_enough. destruct (4 <=? _); [|exact H].
  now apply addSuggestion_collected.
Qed.

Lemma numeric_suffixes_collected existingSet base counters : forall suggestions,
  collected toLowerCase existingSet suggestions ->
  collected toLowerCase existingSet
    (numeric_suffixes toLowerCase existingSet base counters suggestions).
Proof.
  induction counters as [|i counters IH]; intros suggestions H; [exact H|].
  cbn [numeric_suffixes]. destruct (_ <? 5); [|exact H].
  apply IH. now apply addSuggestion_collected.
Qed.

Lemma fold_collected {A} existingSet (f : list jsstring -> A -> list jsstring) (xs : list A) :
  (forall acc x, collected toLowerCase existingSet acc -> collected toLowerCase existingSet (f acc x)) ->
  forall acc, collected toLowerCase existingSet acc -> collected toLowerCase existingSet (fold_left f xs acc).
Proof.
  intros Hf. induction xs as [|x xs IH]; intros acc H; [exact H|].
  cbn [fold_left]. apply IH. now apply Hf.
Qed.

Lemma take_collected existingSet n suggestions :
  collected toLowerCase existingSet suggestions -> collected toLowerCase existingSet (take n suggestions).
Proof.
  intros [Hlen Hnodup Hdot Hunused]. constructor.
  - rewrite length_take. lia.
  - rewrite <- (take_drop n suggestions) in Hnodup. now apply NoDup_app in Hnodup as [H _].
  - intros s Hs. apply Hdot. rewrite <- (take_drop n suggestions).
    apply elem_of_app. now left.
  - intros s Hs. apply Hunused. rewrite <- (take_drop n suggestions).
    apply elem_of_app. now left.
Qed.

Lemma build_suggestions_collected baseCommand existing synonyms :
  collected toLowerCase (list_to_set (List.map toLowerCase existing))
    (build_suggestions toLowerCase baseCommand existing synonyms).
Proof.
  unfold build_suggestions. cbv zeta. apply take_collected.
  apply numeric_suffixes_collected.
  assert (H2 : collected toLowerCase (list_to_set (List.map toLowerCase existing))
    (fold_left (fun acc suffix =>
       addSuggestion toLowerCase (list_to_set (List.map toLowerCase existing))
         (Char.dot :: drop 1 baseCommand ++ suffix) acc) descriptiveSuffixes
       (fold_left (fun acc synonym =>
          add_long_enough toLowerCase (list_to_set (List.map toLowerCase existing))
            acc (Char.dot :: synonym)) synonyms []))).
  { apply fold_collected; [intros; now apply addSuggestion_collected|].
    apply fold_collected; [intros; now apply add_long_enough_collected|].
    apply collected_nil. }
  destruct (4 <? _); [|exact H2].
  cbn [fold_left]. now repeat apply add_long_enough_collected.
Qed.

(** An empty base command, or one that does not start with a period, gets
    no suggestions, and neither the cache nor the array is touched. *)
Lemma no_suggestions_without_period baseCommand existing cache :
  baseCommand = [] \/ startsWith baseCommand (js ".") = false ->
  generateCommandSuggestions toLowerCase baseCommand existing cache
  = {| completed := Returns []; suggestionCache := cache; existingCommands := existing |}.
Proof.
  intros H. unfold generateCommandSuggestions.
  destruct H as [-> | H]; [reflexivity|]. rewrite H.
  now rewrite orb_true_r.
Qed.

(** On a cache miss, and when the base command's tail is not a name that
    objects inherit, the call returns at most five suggestions, each starting
    with a period, all distinct, none equal without regard to case to an
    existing command. *)
Lemma fresh_suggestions_sound baseCommand existing cache :
  cache !! (baseCommand ++ js ":" ++ join (js ",") (sort existing)) = None ->
  synonymMap_get (toLowerCase (drop 1 baseCommand)) <> Inherited ->
  exists suggestions,
    completed (generateCommandSuggestions toLowerCase baseCommand existing cache)
      = Returns suggestions
    /\ (length suggestions <= 5)%nat
    /\ NoDup suggestions
    /\ (forall s, s ∈ suggestions -> startsWith s (js ".") = true)
    /\ (forall s c, s ∈ suggestions -> c ∈ existing -> toLowerCase c <> toLowerCase s).
Proof.
  intros Hmiss Hown. unfold generateCommandSuggestions.
  destruct (_ || _) eqn:Hearly.
  { exists []. repeat split; [simpl; lia | constructor | |];
      intros s; intros; exfalso; eapply not_elem_of_nil; eauto. }
  cbv zeta. rewrite Hmiss.
  assert (Hgen : forall synonyms, exists suggestions,
    build_suggestions toLowerCase baseCommand (sort existing) synonyms = suggestions
    /\ (length suggestions <= 5)%nat /\ NoDup suggestions
    /\ (forall s, s ∈ suggestions -> startsWith s (js ".") = true)
    /\ (forall s c, s ∈ suggestions -> c ∈ existing -> toLowerCase c <> toLowerCase s)).
  { intros synonyms. eexists. split; [reflexivity|].
    destruct (build_suggestions_collected baseCommand (sort existing) synonyms)
      as [Hlen Hnodup Hdot Hunused].
    repeat split; try assumption.
    - intros s Hs. destruct (Hdot s Hs) as [rest ->]. reflexivity.
    - intros s c Hs Hc Heq. apply (Hunused s Hs).
      apply elem_of_list_to_set. rewrite <- Heq.
      apply list_elem_of_fmap. exists c. split; [reflexivity|]. now apply elem_of_sort. }
  destruct (synonymMap_get (toLowerCase (drop 1 baseCommand))) as [synonyms| |] eqn:Hget;
    [|congruence|].
  - destruct (Hgen synonyms) as [l [<- H]]. eexists. split; [reflexivity|exact H].
  - destruct (Hgen []) as [l [<- H]]. eexists. split; [reflexivity|exact H].
Qed.

(** C10 fails for a base command whose tail names a property that the
    synonym table inherits: on a cache miss,
    [generateCommandSuggestions(".constructor", existing)] finds the
    inherited [constructor] function instead of a list of synonyms and throws
    a [TypeError] when it iterates over it, so nothing is returned and
    nothing is cached. *)
Theorem inherited_name_throws existing cache :
  toLowerCase (js "constructor") = js "constructor" ->
  cache !! (js ".constructor" ++ js ":" ++ join (js ",") (sort existing)) = None ->
  generateCommandSuggestions toLowerCase (js ".constructor") existing cache
  = {| completed := ThrowsTypeError; suggestionCache := cache;
       existingCommands := sort existing |}.
Proof.
  intros Hlower Hmiss. unfold generateCommandSuggestions.
  change (match js ".constructor" with [] => true | _ :: _ => false end
          || negb (startsWith (js ".constructor") (js "."))) with false.
  cbv iota zeta. rewrite Hmiss.
  change (drop 1 (js ".constructor")) with (js "constructor"). rewrite Hlower.
  reflexivity.
Qed.

(** *** Facts about the cache *)

Lemma synonymMap_get_Inherited key :
  synonymMap_get key = Inherited <-> key ∈ Object_prototype_names.
Proof.
  unfold synonymMap_get. split.
  - destruct (assoc key synonymMap); [discriminate|].
    destruct (decide (key ∈ Object_prototype_names)); [trivial | discriminate].
  - intros H. destruct (decide (key ∈ Object_prototype_names)) as [_|n]; [|contradiction].
    unfold Object_prototype_names in H.
    repeat (apply elem_of_cons in H as [-> | H]; [reflexivity|]).
    inversion H.
Qed.

(** [generateCommandSuggestions] throws exactly when the base command starts
    with a period, the call is not answered from the cache, and the lower-cased
    rest of the command is a name that every object inherits. *)
Theorem throws_exactly_when baseCommand existing cache :
  completed (generateCommandSuggestions toLowerCase baseCommand existing cache)
  = ThrowsTypeError
  <-> startsWith baseCommand (js ".") = true
      /\ cache !! (baseCommand ++ js ":" ++ join (js ",") (sort existing)) = None
      /\ toLowerCase (drop 1 baseCommand) ∈ Object_prototype_names.
Proof.
  rewrite <- synonymMap_get_Inherited. unfold generateCommandSuggestions.
  destruct baseCommand as [|c rest]; [cbn; split; [discriminate | now intros [? _]]|].
  cbn [orb]. destruct (startsWith (c :: rest) (js ".")) eqn:Hdot; cbn [negb].
  - cbv zeta. destruct (cache !! _) eqn:Hcache; cbn [completed].
    + split; [discriminate | now intros [_ [? _]]].
    + destruct (synonymMap_get _) eqn:Hget; cbn [completed].
      * split; [discriminate | now intros [_ [_ ?]]].
      * tauto.
      * split; [discriminate | now intros [_ [_ ?]]].
  - cbn [completed]. split; [discriminate | now intros [? _]].
Qed.

(** A call repeated with the same base command and the same commands, in
    whatever order, is answered from the cache: it returns what the first call
    returned and leaves the cache as the first call left it. *)
Theorem repeated_call_hits_cache baseCommand existing existing' cache suggestions :
  existing' ≡ₚ existing ->
  completed (generateCommandSuggestions toLowerCase baseCommand existing cache)
  = Returns suggestions ->
  let first := generateCommandSuggestions toLowerCase baseCommand existing cache in
  let second :=
    generateCommandSuggestions toLowerCase baseCommand existing' (suggestionCache first) in
  completed second = Returns suggestions
  /\ suggestionCache second = suggestionCache first.
Proof.
  intros Hperm. cbv zeta. unfold generateCommandSuggestions.
  rewrite (sort_of_Permutation existing' existing Hperm).
  destruct (_ || _); [cbn; auto|]. cbv zeta.
  destruct (cache !! _) as [cached|] eqn:Hcache.
  - cbn [completed suggestionCache]. rewrite Hcache. cbn. auto.
  - destruct (synonymMap_get _) eqn:Hget; cbn [completed suggestionCache];
      try discriminate; intros [= <-]; rewrite lookup_insert_eq; cbn; auto.
Qed.

(** The cache is emptied before it would hold more than 101 entries: a call
    leaves at most 101 entries, or no more than it found. *)
Theorem cache_stays_small baseCommand existing cache :
  (size (suggestionCache (generateCommandSuggestions toLowerCase baseCommand existing cache))
   <= Nat.max (size cache) 101)%nat.
Proof.
  unfold generateCommandSuggestions.
  destruct (_ || _); [cbn; lia|]. cbv zeta.
  destruct (cache !! _) as [cached|] eqn:Hcache; [cbn; lia|].
  assert (Hins : forall result : list jsstring,
    (size (<[baseCommand ++ js ":" ++ join (js ",") (sort existing) := result]>
             (if (100 <? N.of_nat (size cache))%N then ∅ else cache))
     <= Nat.max (size cache) 101)%nat).
  { intros result. destruct (N.ltb_spec 100 (N.of_nat (size cache))).
    - rewrite insert_empty, map_size_singleton. lia.
    - rewrite map_size_insert_None by exact Hcache. lia. }
  destruct (synonymMap_get _); cbn [suggestionCache]; [apply Hins | lia | apply Hins].
Qed.

End SuggestionFacts.

(** Asking for alternatives to [.constructor] when a rule of that name
    exists, under ASCII case folding and with an empty cache. *)
Lemma inherited_name_throws_witness :
  generateCommandSuggestions ascii_toLowerCase (js ".constructor") [js ".constructor"] ∅
  = {| completed := ThrowsTypeError; suggestionCache := ∅;
       existingCommands := [js ".constructor"] |}.
Proof.
  apply (inherited_name_throws ascii_toLowerCase [js ".constructor"] ∅).
  - reflexivity.
  - apply lookup_empty.
Defined.

(** A second way in which the suggestions go wrong: the cache key joins the
    commands with commas, so one command holding a comma and two commands
    without it share a key, and the second call is answered with the
    suggestions of the first, among them an existing command. *)
Example cache_key_collision :
  let first :=
    generateCommandSuggestions ascii_toLowerCase (js ".sig") [js ".sig_new,.x"] ∅ in
  let second :=
    generateCommandSuggestions ascii_toLowerCase (js ".sig")
      [js ".sig_new"; js ".x"] (suggestionCache first) in
  completed second
  = Returns [js ".signature"; js ".sign"; js ".sig_new"; js ".sig_alt"; js ".sig_work"].
Proof. vm_compute. reflexivity. Qed.

(** The cases of the repository's own tests. *)
Example suggestions_for_sig :
  completed (generateCommandSuggestions ascii_toLowerCase (js ".sig")
               [js ".sig"; js ".sig2"; js ".signature"; js ".meeting"] ∅)
  = Returns [js ".sign"; js ".sig_new"; js ".sig_alt"; js ".sig_work"; js ".sig_personal"].
Proof. vm_compute. reflexivity. Qed.

Example suggestions_for_meeting :
  completed (generateCommandSuggestions ascii_toLowerCase (js ".meeting")
               [js ".sig"; js ".sig2"; js ".signature"; js ".meeting"] ∅)
  = Returns [js ".meet"; js ".mtg"; js ".meeting_new"; js ".meeting_alt";
             js ".meeting_work"].
Proof. vm_compute. reflexivity. Qed.

Example suggestions_numeric :
  completed (generateCommandSuggestions ascii_toLowerCase (js ".xyz")
               [js ".xyz_new"; js ".xyz_alt"; js ".xyz_work"; js ".xyz_personal";
                js ".xyz_temp"] ∅)
  = Returns [js ".xyz2"; js ".xyz3"; js ".xyz4"; js ".xyz5"; js ".xyz6"].
Proof. vm_compute. reflexivity. Qed.

(** A second call with the commands in another order, under ASCII case
    folding and from an empty cache. *)
Lemma repeated_call_hits_cache_witness :
  let first :=
    generateCommandSuggestions ascii_toLowerCase (js ".sig") [js ".sig"; js ".sign"] ∅ in
  let second :=
    generateCommandSuggestions ascii_toLowerCase (js ".sig") [js ".sign"; js ".sig"]
      (suggestionCache first) in
  completed second
  = Returns [js ".signature"; js ".sig_new"; js ".sig_alt"; js ".sig_work"; js ".sig_personal"]
  /\ suggestionCache second = suggestionCache first.
Proof.
  apply (repeated_call_hits_cache ascii_toLowerCase (js ".sig")
           [js ".sig"; js ".sign"] [js ".sign"; js ".sig"] ∅).
  - apply perm_swap.
  - vm_compute. reflexivity.
Defined.

(** Alternatives to [.sig] when [.sig] and [.SIGN] exist, under ASCII case
    folding and from an empty cache. *)
Lemma fresh_suggestions_sound_witness :
  exists suggestions,
    completed (generateCommandSuggestions ascii_toLowerCase (js ".sig")
                 [js ".sig"; js ".SIGN"] ∅) = Returns suggestions
    /\ (length suggestions <= 5)%nat
    /\ NoDup suggestions
    /\ (forall s, s ∈ suggestions -> startsWith s (js ".") = true)
    /\ (forall s c, s ∈ suggestions -> c ∈ [js ".sig"; js ".SIGN"] ->
          ascii_toLowerCase c <> ascii_toLowerCase s).
Proof.
  apply (fresh_suggestions_sound ascii_toLowerCase (js ".sig") [js ".sig"; js ".SIGN"] ∅).
  - apply lookup_empty.
  - vm_compute. discriminate.
Defined.

(** *** Facts about conflicts *)

Section ConflictFacts.
Variable toLowerCase : jsstring -> jsstring.

Lemma is_excluded_true excludeId rule :
  is_excluded excludeId rule = true -> Some (id rule) = excludeId.
Proof.
  destruct excludeId as [[|c excluded]|]; cbn [is_excluded]; try discriminate.
  intros H. apply bool_decide_eq_true in H. now rewrite H.
Qed.

Lemma detectConflict_None cmd existingRules excludeId :
  detectConflict toLowerCase cmd existingRules excludeId = None ->
  cmd <> [] ->
  forall rule, In rule existingRules ->
    is_excluded excludeId rule = true
    \/ trim (toLowerCase (command rule)) <> trim (toLowerCase cmd).
Proof.
  intros Hfind Hcmd rule Hin. destruct cmd as [|c rest]; [contradiction|].
  cbn [detectConflict] in Hfind. cbv zeta in Hfind.
  pose proof (List.find_none _ _ Hfind rule Hin) as H. unfold conflicts_with in H.
  destruct (is_excluded excludeId rule); [now left|]. right.
  now apply bool_decide_eq_false in H.
Qed.

Lemma find_app_first {A} (f : A -> bool) (l1 l2 : list A) :
  List.find f (l1 ++ l2)
  = match List.find f l1 with Some x => Some x | None => List.find f l2 end.
Proof.
  induction l1 as [|x l1 IH]; [reflexivity|]. cbn. destruct (f x); [reflexivity | exact IH].
Qed.

Lemma existingCommandMap_lookup existingRules : forall (m : gmap jsstring ExpansionRule) key,
  fold_left (fun m rule => <[toLowerCase (command rule) := rule]> m) existingRules m !! key
  = match List.find (fun rule => bool_decide (toLowerCase (command rule) = key))
            (rev existingRules) with
    | Some rule => Some rule
    | None => m !! key
    end.
Proof.
  induction existingRules as [|rule rules IH]; intros m key; [reflexivity|].
  cbn [fold_left rev]. rewrite IH, find_app_first.
  destruct (List.find _ (rev rules)); [reflexivity|]. cbn [List.find].
  destruct (bool_decide _) eqn:E.
  - apply bool_decide_eq_true in E. subst key. apply lookup_insert_eq.
  - apply bool_decide_eq_false in E. now apply lookup_insert_ne.
Qed.

Lemma find_existsb {A} (f : A -> bool) (l : list A) :
  (match List.find f l with Some _ => true | None => false end) = existsb f l.
Proof.
  induction l as [|x l IH]; [reflexivity|]. cbn. destruct (f x); [reflexivity | exact IH].
Qed.

Lemma existsb_rev {A} (f : A -> bool) (l : list A) : existsb f (rev l) = existsb f l.
Proof.
  induction l as [|x l IH]; [reflexivity|]. cbn [rev existsb].
  rewrite existsb_app, IH. cbn. rewrite orb_false_r. apply orb_comm.
Qed.

(** What [existingCommandMap.get] finds for an imported rule: the last
    existing rule with the same lower-cased command. *)
Lemma existingCommandMap_get existingRules imported :
  existingCommandMap_of toLowerCase existingRules !! toLowerCase (command imported)
  = List.find (fun rule => bool_decide (toLowerCase (command rule)
                                        = toLowerCase (command imported)))
      (rev existingRules).
Proof.
  unfold existingCommandMap_of. rewrite existingCommandMap_lookup.
  destruct (List.find _ _); [reflexivity | apply lookup_empty].
Qed.

Lemma check_imported_returns existingRules allCommands rules :
  forall conflicts cache result cache',
  check_imported toLowerCase (existingCommandMap_of toLowerCase existingRules)
    allCommands rules conflicts cache = (ReturnsConflicts result, cache') ->
  exists added,
    result = conflicts ++ added
    /\ List.map importedRule added = List.filter (clashes_with toLowerCase existingRules) rules
    /\ Forall (fun item =>
                 List.find (fun rule => bool_decide (toLowerCase (command rule)
                                          = toLowerCase (command (importedRule item))))
                   (rev existingRules) = Some (existingRule item)) added.
Proof.
  induction rules as [|imported rules IH]; intros conflicts cache result cache'.
  - cbn [check_imported]. intros [= <- <-]. exists []. now rewrite app_nil_r.
  - cbn [check_imported List.filter]. unfold clashes_with at 1.
    rewrite <- existsb_rev, <- find_existsb, existingCommandMap_get.
    destruct (List.find _ (rev existingRules)) as [existing|] eqn:Hfind.
    + cbv zeta. destruct (completed _) as [alternatives|]; [|discriminate].
      intros H. apply IH in H as [added [-> [Hmap Hall]]].
      eexists (_ :: added). rewrite <- app_assoc. split; [reflexivity|].
      split; [cbn [List.map importedRule]; now rewrite Hmap|].
      constructor; [exact Hfind | exact Hall].
    + apply IH.
Qed.

(** When [detectImportConflicts] returns, it lists, in the order of the
    file, exactly the imported rules whose command equals without regard to
    case the command of an existing rule, each with the last existing rule of
    that command. *)
Theorem detectImportConflicts_lists_clashes importedRules existingRules cache conflicts :
  fst (detectImportConflicts toLowerCase importedRules existingRules cache)
  = ReturnsConflicts conflicts ->
  List.map importedRule conflicts
  = List.filter (clashes_with toLowerCase existingRules) importedRules
  /\ Forall (fun item =>
               exists before after,
                 existingRules = before ++ existingRule item :: after
                 /\ toLowerCase (command (existingRule item))
                    = toLowerCase (command (importedRule item))
                 /\ Forall (fun rule => toLowerCase (command rule)
                                        <> toLowerCase (command (importedRule item))) after)
       conflicts.
Proof.
  unfold detectImportConflicts.
  destruct (check_imported _ _ _ _ _ _) as [result cache'] eqn:Hcheck. cbn [fst].
  intros ->. apply check_imported_returns in Hcheck as [added [-> [Hmap Hall]]].
  cbn [app]. split; [exact Hmap|].
  eapply Forall_impl; [exact Hall|]. cbn beta. intros item Hfind.
  remember (rev existingRules) as reversed eqn:Hrev.
  assert (Hex : existingRules = rev reversed) by (subst; now rewrite rev_involutive).
  clear Hrev. subst existingRules. clear Hall Hmap.
  induction reversed as [|rule reversed IH]; [discriminate|].
  cbn [List.find] in Hfind. destruct (bool_decide _) eqn:E.
  - injection Hfind as <-. apply bool_decide_eq_true in E.
    exists (rev reversed), []. cbn [rev]. repeat split; [exact E | constructor].
  - apply bool_decide_eq_false in E.
    destruct (IH Hfind) as [before [after [Heq [Hcmd Hafter]]]].
    exists before, (after ++ [rule]). cbn [rev]. rewrite Heq, <- app_assoc. cbn [app].
    repeat split; [exact Hcmd|]. apply Forall_app. split; [exact Hafter|].
    now repeat constructor.
Qed.



(** A command that [validateCommandWithConflicts] calls valid is returned
    without suggestions and without a look at the cache, and [validateRule],
    given the same rules and the same id, reports against it at most that it
    is reserved, a test that [validateCommandWithConflicts] does not make. *)
Theorem valid_command_only_reserved cmd existingRules excludeId cache validation cache'
    replacement :
  validateCommandWithConflicts toLowerCase cmd existingRules excludeId cache
  = (Some validation, cache') ->
  isValid validation = true ->
  cache' = cache
  /\ hasConflict validation = false
  /\ suggestions validation = []
  /\ Validation.errors_for Validation.FieldCommand
       (Validation.validateRule toLowerCase
          {| Validation.draftCommand := cmd; Validation.draftReplacementText := replacement |}
          existingRules excludeId)
     = if bool_decide (toLowerCase cmd ∈ Validation.RESERVED)
       then [Validation.err Validation.FieldCommand "This command is reserved"]
       else [].
Proof.
  unfold validateCommandWithConflicts. cbv zeta.
  destruct (detectConflict toLowerCase cmd existingRules excludeId) as [rule|] eqn:Hconflict.
  { destruct (completed _); [|discriminate]. intros [= <- <-]. cbn [isValid].
    rewrite andb_false_r. discriminate. }
  intros [= <- <-]. cbn [isValid hasConflict suggestions]. rewrite andb_true_r.
  unfold hasValidFormat. rewrite !andb_true_iff, !negb_true_iff.
  intros [[[[[Hdot Hmin] Hword] Hmax] Hdouble] Hedge].
  repeat split.
  assert (Hcmd : cmd <> []) by (intros ->; discriminate).
  assert (Hfind : List.find
            (Validation.is_duplicate_of toLowerCase (toLowerCase cmd) excludeId)
            existingRules = None).
  { destruct (List.find _ existingRules) as [rule|] eqn:Hfound; [|reflexivity].
    apply List.find_some in Hfound as [Hin Hdup].
    apply ValidationFacts.is_duplicate_of_spec in Hdup as [Hid Hsame].
    destruct (detectConflict_None _ _ _ Hconflict Hcmd rule Hin) as [Hex | Hne].
    - apply is_excluded_true in Hex. contradiction.
    - now rewrite Hsame in Hne. }
  unfold Validation.validateRule. cbv zeta.
  cbn [Validation.draftCommand Validation.draftReplacementText].
  rewrite Hfind, Hdot, Hword, Hdouble, Hedge.
  apply N.ltb_lt in Hmin. apply N.leb_le in Hmax.
  destruct (N.leb_spec (jslength cmd) 4); [lia|].
  destruct (N.ltb_spec 50 (jslength cmd)); [lia|].
  rewrite !ValidationFacts.errors_for_push_if.
  cbn [Validation.field Validation.err Validation.Field_eqb negb andb
       Validation.push_if Validation.errors_for List.filter app].
  rewrite !andb_false_r, !andb_true_r. cbn [app].
  now destruct (bool_decide _).
Qed.

End ConflictFacts.

(** [.about] has the format and clashes with no rule, but is reserved. *)
Lemma valid_command_only_reserved_witness :
  Validation.errors_for Validation.FieldCommand
    (Validation.validateRule ascii_toLowerCase
       {| Validation.draftCommand := js ".about";
          Validation.draftReplacementText := js "About me" |}
       [rule_sig] None)
  = [Validation.err Validation.FieldCommand "This command is reserved"].
Proof.
  refine (proj2 (proj2 (proj2
    (valid_command_only_reserved ascii_toLowerCase (js ".about") [rule_sig] None ∅
       {| isValid := true; hasConflict := false; conflictingRule := None; suggestions := [] |}
       ∅ (js "About me") _ _)))).
  - vm_compute. reflexivity.
  - reflexivity.
Defined.

(** A file with [.SIG] imported while [.sig] exists. *)
Lemma detectImportConflicts_lists_clashes_witness :
  List.map importedRule
    [{| importedRule := rule_imported_sig; existingRule := rule_sig;
        suggestedAlternatives :=
          [js ".signature"; js ".sign"; js ".SIG_new"; js ".SIG_alt"; js ".SIG_work"] |}]
  = List.filter (clashes_with ascii_toLowerCase [rule_sig; rule_about])
      [rule_imported_sig].
Proof.
  refine (proj1 (detectImportConflicts_lists_clashes ascii_toLowerCase
                   [rule_imported_sig] [rule_sig; rule_about] ∅ _ _)).
  vm_compute. reflexivity.
Defined.


End ConflictUtilsFacts.

Module PauseStoreFacts.
Import PauseStore.

(** *** Facts about the store *)

(** C6. [mapPauseReason] gives ['both'] exactly when both flags are set,
    ['user'] exactly when only the user flag is set, ['secure-input'] exactly
    when only the secure-input flag is set, and ['none'] exactly when neither
    is: the presented reason is a function of the two flags alone. *)
Theorem mapPauseReason_spec (pausedByUser pausedBySecureInput : bool) :
  (mapPauseReason pausedByUser pausedBySecureInput = ReasonBoth <->
     pausedByUser = true /\ pausedBySecureInput = true)
  /\ (mapPauseReason pausedByUser pausedBySecureInput = ReasonUser <->
        pausedByUser = true /\ pausedBySecureInput = false)
  /\ (mapPauseReason pausedByUser pausedBySecureInput = ReasonSecureInput <->
        pausedByUser = false /\ pausedBySecureInput = true)
  /\ (mapPauseReason pausedByUser pausedBySecureInput = ReasonNone <->
        pausedByUser = false /\ pausedBySecureInput = false).
Proof.
  destruct pausedByUser, pausedBySecureInput; cbn;
    repeat split; intros; try discriminate; try tauto;
    match goal with H : _ /\ _ |- _ => destruct H; discriminate end.
Qed.

Lemma PauseReason_eqb_eq a b : PauseReason_eqb a b = true <-> a = b.
Proof. destruct a, b; simpl; split; intros; congruence. Qed.

Lemma refreshed_same stateInfo prev :
  refreshed stateInfo prev = SameObject <->
  presentation (mapped stateInfo) = presentation prev.
Proof.
  unfold refreshed, presentation, mapped. cbn [isPaused pauseReason canResume].
  destruct (eqb (isPaused prev) (is_paused stateInfo)) eqn:E1;
  destruct (PauseReason_eqb (pauseReason prev)
              (mapPauseReason (paused_by_user stateInfo) (paused_by_secure_input stateInfo)))
    eqn:E2;
  destruct (eqb (canResume prev) (can_resume stateInfo)) eqn:E3; cbn [andb];
  try apply eqb_prop in E1; try apply PauseReason_eqb_eq in E2; try apply eqb_prop in E3;
  split; intros H; try discriminate; try congruence;
  injection H as H1 H2 H3.
  all: try (rewrite H1, eqb_reflx in E1; discriminate).
  all: try (rewrite H3, eqb_reflx in E3; discriminate).
  all: try (assert (PauseReason_eqb (pauseReason prev)
              (mapPauseReason (paused_by_user stateInfo) (paused_by_secure_input stateInfo))
            = true) by (apply PauseReason_eqb_eq; congruence); congruence).
Qed.

Lemma refreshed_new stateInfo prev next :
  refreshed stateInfo prev = NewObject next -> next = mapped stateInfo.
Proof. unfold refreshed. destruct (_ && _); [discriminate|]. now intros [= <-]. Qed.

(** C8. When the state mapped from the backend's reply equals the presented
    one in [isPaused], [pauseReason] and [canResume], [refreshPauseState]
    keeps the existing state object and presents nothing; it puts a new
    state object (the mapped one) in place exactly when one of the three
    differs. *)
Theorem refreshPauseState_coalesces stateInfo p :
  let p' := fst (refreshPauseState (Fulfilled stateInfo) p) in
  (presentation (mapped stateInfo) = presentation (pauseState p) -> p' = p)
  /\ (presentation (mapped stateInfo) <> presentation (pauseState p) ->
        pauseState p' = mapped stateInfo
        /\ stateObject p' = S (stateObject p)
        /\ presentations p' = S (presentations p))
  /\ (stateObject p' <> stateObject p <->
        presentation (mapped stateInfo) <> presentation (pauseState p)).
Proof.
  cbn [refreshPauseState fst]. unfold setPauseState.
  pose proof (refreshed_same stateInfo (pauseState p)) as Hsame.
  destruct (refreshed stateInfo (pauseState p)) as [|next] eqn:E.
  - assert (Heq : presentation (mapped stateInfo) = presentation (pauseState p))
      by (now apply Hsame).
    repeat split; try tauto; intros; congruence.
  - assert (Hne : presentation (mapped stateInfo) <> presentation (pauseState p)).
    { intros H. apply Hsame in H. discriminate. }
    apply refreshed_new in E. subst next. cbn.
    repeat split; try tauto; intros; try lia; contradiction.
Qed.

(** C7. When [get_pause_state] is rejected at start-up, the store stays in
    the not-paused default state, the failure is written to the console, and
    the refresh still completes normally: nothing is thrown on. *)
Theorem load_failure_falls_back error :
  let result := mount (Rejected error) in
  pauseState (fst result) = defaultState
  /\ isPaused (pauseState (fst result)) = false
  /\ pauseReason (pauseState (fst result)) = ReasonNone
  /\ canResume (pauseState (fst result)) = true
  /\ console (fst result) = [js "Failed to refresh pause state:"]
  /\ snd result = Fulfilled tt.
Proof. cbn. repeat split. Qed.

(** A reply that differs only in its time stamp keeps the state object. *)
Lemma refreshPauseState_coalesces_witness :
  fst (refreshPauseState
         (Fulfilled {| is_paused := false; paused_by_user := false;
                       paused_by_secure_input := false;
                       pause_timestamp := Some (js "2025-08-13"); can_resume := true |})
         initialProvider) = initialProvider.
Proof.
  apply (proj1 (refreshPauseState_coalesces
                  {| is_paused := false; paused_by_user := false;
                     paused_by_secure_input := false;
                     pause_timestamp := Some (js "2025-08-13"); can_resume := true |}
                  initialProvider)).
  reflexivity.
Defined.

(** A failed refresh never changes the presented state. *)
Lemma refresh_failure_keeps_state error p :
  pauseState (fst (refreshPauseState (Rejected error) p)) = pauseState p
  /\ snd (refreshPauseState (Rejected error) p) = Fulfilled tt.
Proof. split; reflexivity. Qed.

Lemma refreshed_isPaused stateInfo p :
  isPaused (pauseState (setPauseState (refreshed stateInfo) p)) = is_paused stateInfo.
Proof.
  unfold setPauseState. destruct (refreshed stateInfo (pauseState p)) as [|next] eqn:E.
  - apply refreshed_same in E. unfold presentation in E. now injection E as <- _ _.
  - apply refreshed_new in E. now subst next.
Qed.

Lemma refreshed_pauseReason stateInfo p :
  pauseReason (pauseState (setPauseState (refreshed stateInfo) p))
  = mapPauseReason (paused_by_user stateInfo) (paused_by_secure_input stateInfo).
Proof.
  unfold setPauseState. destruct (refreshed stateInfo (pauseState p)) as [|next] eqn:E.
  - apply refreshed_same in E. unfold presentation in E. now injection E as _ <- _.
  - apply refreshed_new in E. now subst next.
Qed.

(** The presented [isPaused] follows the coordinator's effective state
    through every sequence of updates. *)
Lemma presented_isPaused_follows us : forall s,
  isPaused (pauseState (provider s)) = effective (coordinator s) ->
  isPaused (pauseState (provider (apply_updates us s)))
  = effective (coordinator (apply_updates us s)).
Proof.
  induction us as [|u us IH]; intros s Hs; [exact Hs|].
  apply IH. destruct u as [now | now | | detected]; cbn.
  - reflexivity.
  - reflexivity.
  - now rewrite refreshed_isPaused.
  - now rewrite refreshed_isPaused.
Qed.

(** C1 fails on the pause reason.  After secure input is detected and the
    user then toggles the pause, both stored flags are set and the effective
    state is paused, as is the presented [isPaused]; but the presented reason
    is ['user'] where the flags call for ['both']: [togglePause] overwrote
    the secure-input contribution that [pauseExpansions] would have kept. *)
Theorem togglePause_drops_secure_input now :
  let s := apply_updates [SecureInputDetected true; TogglePause now] initialSystem in
  pausedByUser (coordinator s) = true
  /\ pausedBySecureInput (coordinator s) = true
  /\ isPaused (pauseState (provider s)) = true
  /\ reason_of_flags (coordinator s) = ReasonBoth
  /\ pauseReason (pauseState (provider s)) = ReasonUser
  /\ pauseReason (pauseState (provider
       (apply_updates [SecureInputDetected true; PauseExpansions now] initialSystem)))
     = ReasonBoth.
Proof. cbn. repeat split. Qed.

(** Whatever the back end answers, [togglePause] presents ['user'] or
    ['none']: it never keeps a secure-input pause in the presented reason. *)
Lemma togglePause_reason newState now refreshReply p :
  let r := pauseReason (pauseState (fst (togglePause (Fulfilled newState) now refreshReply p))) in
  r = ReasonUser \/ r = ReasonNone.
Proof. destruct newState; cbn; auto. Qed.

(** [pauseExpansions] on a state already presented as ['both'] presents
    ['user']. *)
Lemma pauseExpansions_twice_drops_secure_input now :
  pauseReason (pauseState (provider
    (apply_updates [SecureInputDetected true; PauseExpansions now; PauseExpansions now]
       initialSystem))) = ReasonUser.
Proof. reflexivity. Qed.

(** *** Facts about the actions *)

(** A refresh that is answered leaves the store presenting what the answer
    maps to, whatever it presented before; refreshing again with the same
    answer changes nothing at all. *)
Theorem refreshPauseState_settles stateInfo p :
  let p' := fst (refreshPauseState (Fulfilled stateInfo) p) in
  presentation (pauseState p') = presentation (mapped stateInfo)
  /\ fst (refreshPauseState (Fulfilled stateInfo) p') = p'.
Proof.
  cbn [refreshPauseState fst].
  assert (H : presentation (pauseState (setPauseState (refreshed stateInfo) p))
              = presentation (mapped stateInfo)).
  { unfold setPauseState.
    destruct (refreshed stateInfo (pauseState p)) as [|next] eqn:E.
    - symmetry. now apply refreshed_same.
    - apply refreshed_new in E. now subst next. }
  split; [exact H|].
  unfold setPauseState at 1.
  now rewrite (proj2 (refreshed_same stateInfo _) (eq_sym H)).
Qed.

(** [pauseExpansions], when the back end accepts it, presents a resumable
    pause stamped with the time of the call; the reason is ['both'] exactly
    when ['secure-input'] was presented, so that a second call always leaves
    ['user'], also while secure input is still active. *)
Theorem pauseExpansions_reason now now' refreshReply refreshReply' p :
  let p1 := fst (pauseExpansions (Fulfilled tt) now refreshReply p) in
  let p2 := fst (pauseExpansions (Fulfilled tt) now' refreshReply' p1) in
  isPaused (pauseState p1) = true
  /\ canResume (pauseState p1) = true
  /\ pauseTimestamp (pauseState p1) = Some now
  /\ (pauseReason (pauseState p1) = ReasonBoth
      <-> pauseReason (pauseState p) = ReasonSecureInput)
  /\ (pauseReason (pauseState p1) = ReasonUser
      <-> pauseReason (pauseState p) <> ReasonSecureInput)
  /\ pauseReason (pauseState p2) = ReasonUser.
Proof.
  cbn. destruct (pauseReason (pauseState p)); cbn; repeat split; congruence.
Qed.

(** No action rejects: when the back end fails, [togglePause],
    [pauseExpansions] and [resumeExpansions] each write one line to the
    console and leave the store presenting what a refresh gives. *)
Theorem failed_action_refreshes error now refreshReply p :
  let toggled := togglePause (Rejected error) now refreshReply p in
  let paused := pauseExpansions (Rejected error) now refreshReply p in
  let resumed := resumeExpansions (Rejected error) refreshReply p in
  let refreshedState := pauseState (fst (refreshPauseState refreshReply p)) in
  snd toggled = Fulfilled tt /\ snd paused = Fulfilled tt /\ snd resumed = Fulfilled tt
  /\ pauseState (fst toggled) = refreshedState
  /\ pauseState (fst paused) = refreshedState
  /\ pauseState (fst resumed) = refreshedState
  /\ (exists rest, console (fst toggled) = console p ++ js "Failed to toggle pause:" :: rest)
  /\ (exists rest, console (fst paused) = console p ++ js "Failed to pause expansions:" :: rest)
  /\ (exists rest,
        console (fst resumed) = console p ++ js "Failed to resume expansions:" :: rest).
Proof.
  cbv zeta. destruct refreshReply as [stateInfo | error'];
    cbn [togglePause pauseExpansions resumeExpansions refreshPauseState fst snd].
  - unfold setPauseState, console_error. cbn [pauseState].
    destruct (refreshed stateInfo (pauseState p)); cbn [pauseState console];
      repeat split; now exists [].
  - unfold console_error. cbn [pauseState console]. repeat split; eexists;
      rewrite <- app_assoc; reflexivity.
Qed.

End PauseStoreFacts.

Module EngineFacts.
Import Engine.

Section GuardFacts.
Variable toLowerCase : jsstring -> jsstring.
Variable is_delimiter : N -> bool.

(** *** The guard *)

Lemma observe_guarded fuel ev e :
  (0 < guard e)%nat -> observe toLowerCase is_delimiter (S fuel) ev e = Some e.
Proof.
  intros H. cbn [observe].
  destruct (Nat.ltb_spec 0 (guard e)); [reflexivity|lia].
Qed.

Lemma observe_all_guarded fuel evs e :
  (0 < guard e)%nat -> observe_all toLowerCase is_delimiter (S fuel) evs e = Some e.
Proof.
  intros H. unfold observe_all. induction evs as [|ev evs IH]; [reflexivity|].
  cbn [fold_left]. now rewrite observe_guarded.
Qed.

Lemma observe_expands fuel d replacement e :
  guard e = 0%nat -> paused e = false -> dryRun e = false -> buffer e <> [] ->
  lookup_rule toLowerCase (buffer e) (rules e) = Some replacement ->
  observe toLowerCase is_delimiter (S (S fuel)) (Delimiter d) e
  = Some (expanded replacement e).
Proof.
  intros Hguard Hpaused Hdry Hbuf Hrule.
  change (observe toLowerCase is_delimiter (S (S fuel)) (Delimiter d) e) with
    (if (0 <? guard e)%nat then Some e
     else if paused e then Some (reset e)
     else match buffer e with
          | [] => Some e
          | _ :: _ =>
              match lookup_rule toLowerCase (buffer e) (rules e) with
              | None => Some (reset e)
              | Some replacement =>
                  let token := buffer e in
                  if dryRun e then Some (reset (record_match token e))
                  else
                    let raised :=
                      emit [DeleteBackward (length token); InjectText replacement]
                        (with_guard (S (guard e)) (record_match token e)) in
                    match observe_all toLowerCase is_delimiter (S fuel)
                            (synthetic_events is_delimiter (length token) replacement) raised
                    with
                    | Some injected => Some (reset (with_guard (guard e) injected))
                    | None => None
                    end
              end
          end).
  rewrite Hguard, Hpaused, Hrule, Hdry. cbn [Nat.ltb Nat.leb].
  destruct (buffer e) as [|c b] eqn:Eb; [congruence|]. cbv zeta.
  rewrite observe_all_guarded by (cbn; lia).
  unfold expanded. rewrite Eb. destruct e; cbn in *. subst. reflexivity.
Qed.

(** C2. While the guard is raised every observed event leaves the engine as
    it is: buffer, matches and adapter calls are untouched.  So an expansion
    whose replacement text itself holds a command and a delimiter records one
    match and one delete-and-inject, whatever the replacement is: the
    synthetic events of the injection are observed under the raised guard. *)
Theorem guard_blocks_secondary_expansion fuel e :
  (forall evs, (0 < guard e)%nat ->
     observe_all toLowerCase is_delimiter (S fuel) evs e = Some e)
  /\ (forall d replacement,
        guard e = 0%nat -> paused e = false -> dryRun e = false -> buffer e <> [] ->
        lookup_rule toLowerCase (buffer e) (rules e) = Some replacement ->
        exists e',
          observe toLowerCase is_delimiter (S (S fuel)) (Delimiter d) e = Some e'
          /\ matches e' = matches e ++ [buffer e]
          /\ outputs e' = outputs e ++ [DeleteBackward (length (buffer e));
                                        InjectText replacement]
          /\ buffer e' = [] /\ guard e' = 0%nat).
Proof.
  split.
  - intros evs H. now apply observe_all_guarded.
  - intros d replacement Hguard Hpaused Hdry Hbuf Hrule.
    exists (expanded replacement e). split; [now apply observe_expands|].
    unfold expanded. cbn. repeat split. exact Hguard.
Qed.

End GuardFacts.

(** Typing [.sig] and a space with that table expands [.sig] once and does
    not go on to expand the injected [.addr]. *)
Lemma guard_blocks_secondary_expansion_witness :
  exists e',
    observe ascii_toLowerCase space_delimits 2 (Delimiter Char.space) typed_sig = Some e'
    /\ matches e' = [js ".sig"]
    /\ outputs e' = [DeleteBackward 4; InjectText (js ".addr ")]
    /\ buffer e' = [] /\ guard e' = 0%nat.
Proof.
  apply (proj2 (guard_blocks_secondary_expansion ascii_toLowerCase space_delimits 0 typed_sig)
           Char.space (js ".addr ")); try reflexivity.
  vm_compute. discriminate.
Defined.

Example typing_sig_expands_once :
  option_map matches
    (observe_all ascii_toLowerCase space_delimits 2
       (List.map Printable (js ".sig") ++ [Delimiter Char.space])
       {| rules := nested_rules; dryRun := false; paused := false; guard := 0;
          buffer := []; outputs := []; matches := [] |})
  = Some [js ".sig"].
Proof. vm_compute. reflexivity. Qed.

Example superstring_does_not_expand :
  option_map matches
    (observe_all ascii_toLowerCase space_delimits 2
       (List.map Printable (js ".signature") ++ [Delimiter Char.space])
       {| rules := nested_rules; dryRun := false; paused := false; guard := 0;
          buffer := []; outputs := []; matches := [] |})
  = Some [].
Proof. vm_compute. reflexivity. Qed.

Example paused_engine_does_not_expand :
  option_map matches
    (observe_all ascii_toLowerCase space_delimits 2
       (List.map Printable (js ".sig") ++ [Delimiter Char.space])
       {| rules := nested_rules; dryRun := false; paused := true; guard := 0;
          buffer := []; outputs := []; matches := [] |})
  = Some [].
Proof. vm_compute. reflexivity. Qed.

End EngineFacts.

Module ShortcutsStoreFacts.
Import ShortcutsStore.

(** *** Facts about the updaters *)

Lemma update_matching_ids ruleId rule clock prev : forall reads,
  List.map id (update_matching ruleId rule clock reads prev) = List.map id prev.
Proof.
  induction prev as [|r rest IH]; intros reads; [reflexivity|]. cbn [update_matching].
  destruct (bool_decide (id r = ruleId)) eqn:E; cbn [List.map]; rewrite IH; [|reflexivity].
  apply bool_decide_eq_true in E. cbn [id]. now rewrite E.
Qed.

Lemma update_matching_createdAt ruleId rule clock prev : forall reads,
  List.map createdAt (update_matching ruleId rule clock reads prev)
  = List.map createdAt prev.
Proof.
  induction prev as [|r rest IH]; intros reads; [reflexivity|]. cbn [update_matching].
  destruct (bool_decide (id r = ruleId)); cbn [List.map]; now rewrite IH.
Qed.

Lemma update_matching_edited ruleId rule clock prev : forall reads r,
  In r (update_matching ruleId rule clock reads prev) ->
  (id r <> ruleId /\ In r prev)
  \/ (id r = ruleId /\ command r = inputCommand rule
      /\ replacementText r = inputReplacementText rule
      /\ exists k, updatedAt r = clock k).
Proof.
  induction prev as [|r0 rest IH]; intros reads r; [contradiction|]. cbn [update_matching].
  destruct (bool_decide (id r0 = ruleId)) eqn:E; intros [<- | Hin].
  - right. cbn. repeat split. now exists reads.
  - destruct (IH _ _ Hin) as [[H1 H2] | H]; [left; split; [exact H1 | now right] | now right].
  - apply bool_decide_eq_false in E. left. split; [exact E | now left].
  - destruct (IH _ _ Hin) as [[H1 H2] | H]; [left; split; [exact H1 | now right] | now right].
Qed.

Lemma update_matching_unknown ruleId rule clock prev : forall reads,
  ~ In ruleId (List.map id prev) ->
  update_matching ruleId rule clock reads prev = prev.
Proof.
  induction prev as [|r rest IH]; intros reads Hnot; [reflexivity|]. cbn [update_matching].
  destruct (bool_decide (id r = ruleId)) eqn:E.
  - apply bool_decide_eq_true in E. exfalso. apply Hnot. now left.
  - f_equal. apply IH. intros H. apply Hnot. now right.
Qed.

(** [upsertRule] with an id edits in place: the rules keep their number,
    order, ids and creation dates; every rule with that id gets the new
    command and replacement text and a new update date, every other rule is
    left as it was; and when no rule has that id, nothing changes at all. *)
Theorem upsertRule_edits_in_place rule clock uuid prev ruleId :
  inputId rule = Some ruleId ->
  ruleId <> [] ->
  let next := upsertRule rule clock uuid prev in
  List.map id next = List.map id prev
  /\ List.map createdAt next = List.map createdAt prev
  /\ (forall r, In r next ->
        (id r <> ruleId /\ In r prev)
        \/ (id r = ruleId /\ command r = inputCommand rule
            /\ replacementText r = inputReplacementText rule
            /\ exists k, updatedAt r = clock k))
  /\ (~ In ruleId (List.map id prev) -> next = prev).
Proof.
  intros Hid Hne. cbv zeta. unfold upsertRule. rewrite Hid.
  destruct ruleId as [|c ruleId]; [contradiction|].
  split; [apply update_matching_ids|]. split; [apply update_matching_createdAt|].
  split; [apply update_matching_edited | apply update_matching_unknown].
Qed.

Lemma deleteRule_other ruleId prev :
  ~ In ruleId (List.map id prev) -> deleteRule ruleId prev = prev.
Proof.
  unfold deleteRule. induction prev as [|r rest IH]; intros Hnot; [reflexivity|].
  cbn [List.filter]. destruct (bool_decide (id r = ruleId)) eqn:E.
  - apply bool_decide_eq_true in E. exfalso. apply Hnot. now left.
  - cbn [negb]. f_equal. apply IH. intros H. apply Hnot. now right.
Qed.

Lemma deleteRule_app ruleId l1 l2 :
  deleteRule ruleId (l1 ++ l2) = deleteRule ruleId l1 ++ deleteRule ruleId l2.
Proof. unfold deleteRule. apply List.filter_app. Qed.

(** A rule added by [upsertRule] under an id that no rule has is the last
    rule, dated with one reading of the clock, and [deleteRule] with that id
    takes the store back to what it was. *)
Theorem add_then_delete rule clock uuid prev :
  inputId rule = None \/ inputId rule = Some [] ->
  ~ In uuid (List.map id prev) ->
  upsertRule rule clock uuid prev
  = prev ++ [{| id := uuid; command := inputCommand rule;
                replacementText := inputReplacementText rule;
                createdAt := clock 0%nat; updatedAt := clock 0%nat |}]
  /\ deleteRule uuid (upsertRule rule clock uuid prev) = prev.
Proof.
  intros Hid Hfresh.
  assert (Hadd : upsertRule rule clock uuid prev
                 = prev ++ [{| id := uuid; command := inputCommand rule;
                               replacementText := inputReplacementText rule;
                               createdAt := clock 0%nat; updatedAt := clock 0%nat |}]).
  { unfold upsertRule. now destruct Hid as [-> | ->]. }
  split; [exact Hadd|]. rewrite Hadd, deleteRule_app, (deleteRule_other _ _ Hfresh).
  unfold deleteRule. cbn [List.filter id]. rewrite bool_decide_eq_true_2 by reflexivity.
  apply app_nil_r.
Qed.

Lemma deleteRule_ids ruleId prev :
  List.map id (deleteRule ruleId prev)
  = List.filter (fun i => negb (bool_decide (i = ruleId))) (List.map id prev).
Proof.
  unfold deleteRule. induction prev as [|r rest IH]; [reflexivity|].
  cbn [List.filter List.map]. destruct (bool_decide (id r = ruleId)); cbn [negb List.map];
    now rewrite IH.
Qed.

(** The updaters keep the ids of the store distinct, as long as the id drawn
    for a new rule is not in use; after [deleteRule] no rule has the deleted
    id. *)
Theorem ids_stay_distinct rule clock uuid ruleId prev :
  NoDup (List.map id prev) ->
  ~ In uuid (List.map id prev) ->
  NoDup (List.map id (upsertRule rule clock uuid prev))
  /\ NoDup (List.map id (deleteRule ruleId prev))
  /\ ~ In ruleId (List.map id (deleteRule ruleId prev)).
Proof.
  intros Hnodup Hfresh. split; [|split].
  - unfold upsertRule.
    assert (Hadd : forall r, id r = uuid -> NoDup (List.map id (prev ++ [r]))).
    { intros r Hr. rewrite List.map_app. cbn [List.map]. rewrite Hr.
      apply NoDup_app. repeat split; [exact Hnodup | | apply NoDup_singleton].
      intros i Hi Hi'. apply list_elem_of_singleton in Hi'. subst i.
      apply Hfresh. now apply list_elem_of_In. }
    destruct (inputId rule) as [[|c i]|]; [now apply Hadd | | now apply Hadd].
    now rewrite update_matching_ids.
  - rewrite deleteRule_ids. apply NoDup_ListNoDup, List.NoDup_filter.
    now apply NoDup_ListNoDup.
  - rewrite deleteRule_ids. intros H. apply List.filter_In in H as [_ H].
    now rewrite bool_decide_eq_true_2 in H.
Qed.

(** Editing the one stored rule. *)
Lemma upsertRule_edits_in_place_witness :
  List.map id
    (upsertRule {| inputId := Some (js "a1"); inputCommand := js ".sign";
                   inputReplacementText := js "Regards" |} noon (js "b2") [stored_sig])
  = [js "a1"].
Proof.
  refine (proj1 (upsertRule_edits_in_place
    {| inputId := Some (js "a1"); inputCommand := js ".sign";
       inputReplacementText := js "Regards" |} noon (js "b2") [stored_sig] (js "a1") _ _)).
  - reflexivity.
  - discriminate.
Defined.

(** Adding a rule beside the one stored rule, then deleting it. *)
Lemma add_then_delete_witness :
  deleteRule (js "b2")
    (upsertRule {| inputId := None; inputCommand := js ".meet";
                   inputReplacementText := js "See you" |} noon (js "b2") [stored_sig])
  = [stored_sig].
Proof.
  refine (proj2 (add_then_delete
    {| inputId := None; inputCommand := js ".meet"; inputReplacementText := js "See you" |}
    noon (js "b2") [stored_sig] _ _)).
  - now left.
  - cbn. intros [H | []]. discriminate.
Defined.

Lemma ids_stay_distinct_witness :
  NoDup (List.map id
           (upsertRule {| inputId := None; inputCommand := js ".meet";
                          inputReplacementText := js "See you" |} noon (js "b2")
              [stored_sig])).
Proof.
  refine (proj1 (ids_stay_distinct
    {| inputId := None; inputCommand := js ".meet"; inputReplacementText := js "See you" |}
    noon (js "b2") (js "a1") [stored_sig] _ _)).
  - cbn. apply NoDup_singleton.
  - cbn. intros [H | []]. discriminate.
Defined.

End ShortcutsStoreFacts.

Module SettingsViewFacts.
Import ConflictUtils SettingsView.

(** *** Facts about the resolution of import conflicts *)

Section ResolutionFacts.
Variable resolutionMap : gmap jsstring ConflictResolution.
Variable conflictMap : gmap jsstring ConflictItem.

Lemma resolve_one_counted state imported :
  counted (snd (resolve_one resolutionMap conflictMap state imported))
  = S (counted (snd state)).
Proof.
  destruct state as [updatedRules counts]. unfold resolve_one, counted.
  destruct (conflictMap !! id imported) as [conflict|]; [|cbn; lia].
  destruct (resolutionMap !! id imported) as [resolution|]; [|cbn; lia].
  destruct (action resolution); [cbn; lia | cbn; lia |].
  destruct (newCommand resolution) as [[|c renamed]|]; cbn; lia.
Qed.

Lemma resolve_one_length state imported :
  (length (fst (resolve_one resolutionMap conflictMap state imported))
   + added (snd state)
   <= length (fst state)
      + added (snd (resolve_one resolutionMap conflictMap state imported)))%nat.
Proof.
  destruct state as [updatedRules counts]. unfold resolve_one, added.
  destruct (conflictMap !! id imported) as [conflict|];
    [|cbn; rewrite length_app; cbn; lia].
  destruct (resolutionMap !! id imported) as [resolution|];
    [|cbn; rewrite length_app; cbn; lia].
  destruct (action resolution); [cbn; lia | |].
  - cbn. rewrite length_app. cbn.
    pose proof (List.filter_length_le
      (fun r => negb (bool_decide (id r = id (existingRule conflict)))) updatedRules).
    lia.
  - destruct (newCommand resolution) as [[|c renamed]|]; cbn; try lia.
    rewrite length_app. cbn. lia.
Qed.

Lemma resolve_one_keeps (kept : ExpansionRule -> Prop) state imported :
  (forall conflict, conflictMap !! id imported = Some conflict ->
     forall r, kept r -> id r <> id (existingRule conflict)) ->
  (forall r, kept r -> In r (fst state)) ->
  forall r, kept r -> In r (fst (resolve_one resolutionMap conflictMap state imported)).
Proof.
  intros Hconflict Hstate r Hr. specialize (Hstate r Hr).
  destruct state as [updatedRules counts]. unfold resolve_one. cbn [fst] in Hstate.
  destruct (conflictMap !! id imported) as [conflict|];
    [|cbn; apply in_or_app; now left].
  destruct (resolutionMap !! id imported) as [resolution|];
    [|cbn; apply in_or_app; now left].
  destruct (action resolution); [exact Hstate | |].
  - cbn. apply in_or_app. left. apply List.filter_In. split; [exact Hstate|].
    apply negb_true_iff, bool_decide_eq_false. now apply (Hconflict conflict).
  - destruct (newCommand resolution) as [[|c renamed]|]; cbn; try exact Hstate.
    apply in_or_app. now left.
Qed.

End ResolutionFacts.

Lemma Map_of_lookup {A} (key : A -> jsstring) (entries : list A) :
  forall (m : gmap jsstring A) k e,
  fold_left (fun m e => <[key e := e]> m) entries m !! k = Some e ->
  In e entries \/ m !! k = Some e.
Proof.
  induction entries as [|e0 entries IH]; intros m k e; [now right|]. cbn [fold_left].
  intros H. apply IH in H as [H | H]; [left; now right|].
  destruct (decide (key e0 = k)) as [<- | Hne].
  - rewrite lookup_insert_eq in H. injection H as <-. left. now left.
  - rewrite lookup_insert_ne in H by exact Hne. now right.
Qed.

(** Every pending rule is counted exactly once: the four counts of the
    summary add up to the number of rules in the file, and the list handed
    to [replaceAllRules] has grown by no more than the rules counted as
    imported, overwritten or renamed. *)
Theorem every_rule_counted resolutions importConflicts pendingImportRules rules :
  let result := handleConflictResolution resolutions importConflicts pendingImportRules rules in
  counted (snd result) = length pendingImportRules
  /\ (length (fst result) <= length rules + added (snd result))%nat.
Proof.
  cbv zeta. unfold handleConflictResolution. cbv zeta.
  set (resolutionMap := Map_of ruleId resolutions).
  set (conflictMap := Map_of _ importConflicts).
  assert (H : forall pending state,
    counted (snd (fold_left (resolve_one resolutionMap conflictMap) pending state))
    = (counted (snd state) + length pending)%nat
    /\ (length (fst (fold_left (resolve_one resolutionMap conflictMap) pending state))
        + added (snd state)
        <= length (fst state)
           + added (snd (fold_left (resolve_one resolutionMap conflictMap) pending state)))%nat).
  { induction pending as [|imported pending IH]; intros state; cbn [fold_left length].
    - split; lia.
    - destruct (IH (resolve_one resolutionMap conflictMap state imported)) as [IH1 IH2].
      rewrite resolve_one_counted in IH1.
      pose proof (resolve_one_length resolutionMap conflictMap state imported).
      split; lia. }
  destruct (H pendingImportRules
              (rules, {| importedCount := 0; skippedCount := 0;
                         overwrittenCount := 0; renamedCount := 0 |})) as [H1 H2].
  cbn in H1, H2. split; [exact H1 | lia].
Qed.

(** An existing rule is still there after the import unless a conflict
    names a rule with its id as the existing rule. *)
Theorem unconflicted_rules_survive resolutions importConflicts pendingImportRules rules r :
  In r rules ->
  (forall conflict, In conflict importConflicts -> id (existingRule conflict) <> id r) ->
  In r (fst (handleConflictResolution resolutions importConflicts pendingImportRules rules)).
Proof.
  intros Hin Hfree. unfold handleConflictResolution. cbv zeta.
  set (resolutionMap := Map_of ruleId resolutions).
  set (conflictMap := Map_of _ importConflicts).
  assert (Hconflict : forall k conflict, conflictMap !! k = Some conflict ->
                        id r <> id (existingRule conflict)).
  { intros k conflict Hk. apply Map_of_lookup in Hk as [Hk | Hk].
    - intros Heq. now apply (Hfree conflict Hk).
    - now rewrite lookup_empty in Hk. }
  assert (H : forall pending state, In r (fst state) ->
                In r (fst (fold_left (resolve_one resolutionMap conflictMap) pending state))).
  { induction pending as [|imported pending IH]; intros state Hstate; [exact Hstate|].
    cbn [fold_left]. apply IH.
    apply (resolve_one_keeps resolutionMap conflictMap (fun x => x = r)); [| |reflexivity].
    - intros conflict Hk x ->. now apply (Hconflict (id imported)).
    - now intros x ->. }
  now apply H.
Qed.

(** [.sig] is kept when the file's [.SIG] is told to replace another rule. *)
Lemma unconflicted_rules_survive_witness :
  In rule_sig
    (fst (handleConflictResolution
            [{| action := Overwrite; newCommand := None; ruleId := js "9" |}]
            [{| importedRule := rule_imported_sig; existingRule := rule_about;
                suggestedAlternatives := [] |}]
            [rule_imported_sig] [rule_sig; rule_about])).
Proof.
  apply (unconflicted_rules_survive
           [{| action := Overwrite; newCommand := None; ruleId := js "9" |}]
           [{| importedRule := rule_imported_sig; existingRule := rule_about;
               suggestedAlternatives := [] |}]
           [rule_imported_sig] [rule_sig; rule_about] rule_sig).
  - now left.
  - intros conflict [<- | []]. discriminate.
Defined.

End SettingsViewFacts.
